(** * dir-merge: classification and resolution of duplicate files

    A shallow embedding of [file.py], [comparison.py] and
    [comparison_manager.py].

    Python objects live in an explicit store: a [File] is an index into the
    heap of descriptors, so that two references to the same descriptor alias
    and the lazily filled fingerprint fields are shared by every group the
    descriptor is listed in.  Exceptions are an explicit outcome; the state
    reached when an exception is raised is kept, as Python keeps the
    mutations done before the raise.  [logging] and [print] calls have no
    effect on any value of the program and are left out.  Of the methods
    that format, [Comparison.__str__] is embedded; [File.__str__] and
    [get_link] go through [utils.make_link], [Path.resolve] and
    [urllib.parse.quote], the [__repr__] methods through Python's [repr] of
    a string, and are left out, as are [write_to_file], which only calls a
    method of the absent [ComparisonIndex], and the methods of the manager
    that cannot return: [__repr__] and [__str__] read [self.unique], which
    no method assigns, and [_compare_files] calls [Comparison] without its
    third argument.

    [dir_index.py], [comparison_index.py] and [cli.py] are not among the
    sources at hand.  What the manager reads of a [DirIndex] is a record;
    [ComparisonIndex] is the interface the manager uses, a type class; the
    user behind [cli] is a function from the dialogue so far to an answer.
    Of the file system the program reads two things, the bytes that
    [open(path, "rb")] gives and the size that [Path.stat] gives; the two
    are kept apart, as a directory has a size and cannot be opened. *)

From Stdlib Require Import Strings.String Strings.Byte NArith Lia.
From stdpp Require Import base option list gmap strings.

Set Default Proof Using "Type".
Open Scope string_scope.
Open Scope list_scope.

(** ** Exceptions and the state-and-exception monad *)

Inductive exn :=
| ValueError_self_compare        (* file.py, line 54 *)
| ValueError_no_comp_type        (* file.py, line 80 *)
| ValueError_relative_to         (* Path.relative_to, file.py line 12 *)
| OSError                        (* open() on a path that cannot be read, stat() on a
                                    path that is not there *)
| IndexError                     (* [0] on an empty list *)
| RuntimeError_changed_size      (* "dictionary changed size during iteration" *)
| RuntimeError_keys_changed      (* "dictionary keys changed during iteration" *)
| ReferenceError.                (* a reference outside the store: no Python program can form one *)

#[global] Instance exn_eq_dec : EqDecision exn.
Proof. solve_decision. Defined.

Inductive outcome (A : Type) :=
| Return (a : A)
| Raise (e : exn).
Arguments Return {A} a.
Arguments Raise {A} e.

Definition M (S A : Type) : Type := S -> outcome A * S.

Definition ret {S A} (a : A) : M S A := fun s => (Return a, s).
Definition raise {S A} (e : exn) : M S A := fun s => (Raise e, s).
Definition bind {S A B} (m : M S A) (k : A -> M S B) : M S B :=
  fun s => match m s with
           | (Return a, s') => k a s'
           | (Raise e, s') => (Raise e, s')
           end.
Definition gets {S A} (f : S -> A) : M S A := fun s => (Return (f s), s).
Definition modify {S} (f : S -> S) : M S unit := fun s => (Return tt, f s).

(** stdpp's notations [x ← m; k] and [m;; k] stand for [bind]. *)
#[global] Instance M_ret {S} : MRet (M S) := fun A => @ret S A.
#[global] Instance M_bind {S} : MBind (M S) := fun A B k m => @bind S A B m k.

(** [for x in l: body x] *)
Fixpoint for_each {S A} (l : list A) (body : A -> M S unit) : M S unit :=
  match l with
  | [] => ret tt
  | x :: l' => body x ;; for_each l' body
  end.

(** ** comparison.py *)

(** The value of an enum member: a dict with the keys "path", "name" and
    "content". *)
Record Traits := { path : bool; name : bool; content : bool }.

Inductive CompType :=
| MATCH
| PATH_NAME_DUP
| CONTENT_NAME_DUP
| CONTENT_PATH_DUP
| NAME_DUP
| CONTENT_DUP
| PATH_DUP
| UNIQUE.

#[global] Instance CompType_eq_dec : EqDecision CompType.
Proof. solve_decision. Defined.

Definition value (t : CompType) : Traits :=
  match t with
  | MATCH            => {| path := true;  name := true;  content := true  |}
  | PATH_NAME_DUP    => {| path := true;  name := true;  content := false |}
  | CONTENT_NAME_DUP => {| path := false; name := true;  content := true  |}
  | CONTENT_PATH_DUP => {| path := true;  name := false; content := true  |}
  | NAME_DUP         => {| path := false; name := true;  content := false |}
  | CONTENT_DUP      => {| path := false; name := false; content := true  |}
  | PATH_DUP         => {| path := true;  name := false; content := false |}
  | UNIQUE           => {| path := false; name := false; content := false |}
  end.

(** [for comp_type in CompType]: the members in definition order (the eight
    values are pairwise different, so the enum has no alias). *)
Definition CompType_members : list CompType :=
  [MATCH; PATH_NAME_DUP; CONTENT_NAME_DUP; CONTENT_PATH_DUP;
   NAME_DUP; CONTENT_DUP; PATH_DUP; UNIQUE].

(** A reference to a [File] object. *)
Abbreviation FileRef := nat (only parsing).

Record Comparison := { fileA : FileRef; fileB : FileRef; comp_type : CompType }.

#[global] Instance Comparison_eq_dec : EqDecision Comparison.
Proof. solve_decision. Defined.

(** ** The outside world of file.py: pathlib, the disk, hashlib *)

(** A path is the list of its parts; equality of two paths is equality of
    their parts (POSIX flavour). *)
Abbreviation Path := (list string) (only parsing).

(** [p.parent] of a relative path: the path without its last part, and "."
    (no part) stays ".". *)
Definition parent (p : Path) : Path := removelast p.

(** The first part of an absolute path is its anchor, the one part that
    begins with "/"; a relative path has none. *)
Definition is_anchor (part : string) : bool := String.prefix "/" part.

Definition is_absolute (p : Path) : bool :=
  match p with
  | part :: _ => is_anchor part
  | [] => false
  end.

(** [p.name]: the last part, and the empty string when there is none or
    when the path is its anchor alone. *)
Definition path_name (p : Path) : string :=
  match p with
  | [part] => if is_anchor part then "" else part
  | _ => List.last p ""
  end.

(** [p.parent] of any path: as [parent], but the anchor alone is its own
    parent. *)
Definition Path_parent (p : Path) : Path :=
  match p with
  | [part] => if is_anchor part then p else []
  | _ => parent p
  end.

(** [p.relative_to(base)], which raises ValueError unless the parts of
    [base] begin the parts of [p] and the two paths are both absolute or
    both relative: against a [base] without a part, ".", an absolute path is
    refused. *)
Definition relative_to (p base : Path) : option Path :=
  if bool_decide (take (length base) p = base)
     && bool_decide (is_absolute p = is_absolute base)
  then Some (drop (length base) p)
  else None.

(** hashlib: the two digest functions the program uses, each from the bytes
    fed to the hex digest. *)
Class Hashlib := {
  md5_hexdigest : list byte -> string;
  sha256_hexdigest : list byte -> string
}.

(** A hex digest is never the empty string (32 and 64 hex digits). *)
Definition hex_digests (H : Hashlib) : Prop :=
  (forall b, md5_hexdigest b <> "") /\ (forall b, sha256_hexdigest b <> "").

(** A fingerprint computation that went through. *)
Inductive hash_event :=
| QuickHashed (f : FileRef)
| FullHashed (f : FileRef).

#[global] Instance hash_event_eq_dec : EqDecision hash_event.
Proof. solve_decision. Defined.

(** ** file.py *)

Module File.

Record t := mk {
  name : string;
  rel_path : Path;
  dir_path : Path;
  abs_path : Path;
  size : N;
  quick_hash : option string;
  full_hash : option string
}.

Definition set_quick_hash (h : string) (f : t) : t :=
  mk (name f) (rel_path f) (dir_path f) (abs_path f) (size f) (Some h) (full_hash f).

Definition set_full_hash (h : string) (f : t) : t :=
  mk (name f) (rel_path f) (dir_path f) (abs_path f) (size f) (quick_hash f) (Some h).

End File.

(** The store of descriptors, the disk (the content of every readable path)
    and the record of the fingerprints computed so far. *)
Record World := {
  heap : list File.t;
  disk : Path -> option (list byte);
  hash_log : list hash_event
}.

Definition set_heap (h : list File.t) (w : World) : World :=
  {| heap := h; disk := disk w; hash_log := hash_log w |}.

Definition set_disk (d : Path -> option (list byte)) (w : World) : World :=
  {| heap := heap w; disk := d; hash_log := hash_log w |}.

Definition add_hash_event (e : hash_event) (w : World) : World :=
  {| heap := heap w; disk := disk w; hash_log := hash_log w ++ [e] |}.

(** Reading the object behind a reference. *)
Definition deref (r : FileRef) : M World File.t :=
  fun w => match heap w !! r with
           | Some f => (Return f, w)
           | None => (Raise ReferenceError, w)
           end.

(** An attribute assignment [r.field = ...]. *)
Definition update (r : FileRef) (g : File.t -> File.t) : M World unit :=
  fun w => match heap w !! r with
           | Some f => (Return tt, set_heap (<[r := g f]> (heap w)) w)
           | None => (Raise ReferenceError, w)
           end.

(** A new object, at the next free reference. *)
Definition alloc (f : File.t) : M World FileRef :=
  fun w => (Return (length (heap w)), set_heap (heap w ++ [f]) w).

(** [open(p, "rb")] followed by reading: the whole content of the file, or
    OSError. *)
Definition open_rb (p : Path) : M World (list byte) :=
  fun w => match disk w p with
           | Some c => (Return c, w)
           | None => (Raise OSError, w)
           end.

(** Python's truth value of a field that holds None or a str. *)
Definition truthy (o : option string) : bool :=
  match o with
  | Some (String _ _) => true
  | _ => false
  end.

(** [os.stat]: the size in bytes of what is at a path, be it a file that can
    be opened, a file that cannot, or a directory, and nothing when stat
    raises, as it does for a path that is not there.  The program never
    compares this size with the bytes it reads later. *)
Class Os := { st_size : World -> Path -> option N }.

(** [p.stat().st_size] *)
Definition stat_st_size {os : Os} (p : Path) : M World N :=
  fun w => match st_size w p with
           | Some size => (Return size, w)
           | None => (Raise OSError, w)
           end.

Section file_py.
Context {hashlib : Hashlib} {os : Os}.

(** [File(base_path, abs_path)]: a new descriptor, without fingerprints.
    The attributes are assigned in the order of the source: [relative_to]
    is called, and can raise, before [stat] is. *)
Definition File_init (base_path abs_path : Path) : M World FileRef :=
  match relative_to abs_path base_path with
  | None => raise ValueError_relative_to
  | Some rel =>
      size ← stat_st_size abs_path;
      alloc (File.mk (path_name abs_path) rel (Path_parent abs_path) abs_path
                     size None None)
  end.

(** [__create_quick_hash]: the md5 of what one [read(chunk_size)] returns. *)
Definition __create_quick_hash (self : FileRef) (chunk_size : nat) : M World string :=
  f ← deref self;
  c ← open_rb (File.abs_path f);
  let fingerprint := take chunk_size c in
  modify (add_hash_event (QuickHashed self)) ;;
  ret (md5_hexdigest fingerprint).

(** [while chunk := file.read(chunk_size): hasher.update(chunk)], on the
    bytes still to read and the bytes the hasher was fed so far.  Each turn
    with a non-empty chunk consumes at least one byte, so one unit of fuel
    per byte left, and one for the last, empty, read, is enough. *)
Fixpoint feed_hasher (fuel chunk_size : nat) (rest fed : list byte) : list byte :=
  match fuel with
  | 0 => fed
  | S fuel' =>
      match take chunk_size rest with
      | [] => fed
      | chunk => feed_hasher fuel' chunk_size (drop chunk_size rest) (fed ++ chunk)
      end
  end.

(** [__create_full_hash], with the default algorithm sha256. *)
Definition __create_full_hash (self : FileRef) (chunk_size : nat) : M World string :=
  f ← deref self;
  c ← open_rb (File.abs_path f);
  let fed := feed_hasher (S (length c)) chunk_size c [] in
  modify (add_hash_event (FullHashed self)) ;;
  ret (sha256_hexdigest fed).

(** The default [chunk_size] of the two helpers. *)
Definition quick_chunk_size : nat := N.to_nat 4096.
Definition full_chunk_size : nat := N.to_nat 8192.

(** [if not self.quick_hash: self.quick_hash = self.__create_quick_hash()] *)
Definition ensure_quick_hash (r : FileRef) : M World unit :=
  f ← deref r;
  if negb (truthy (File.quick_hash f))
  then h ← __create_quick_hash r quick_chunk_size; update r (File.set_quick_hash h)
  else ret tt.

(** [if not self.full_hash: self.full_hash = self.__create_full_hash()] *)
Definition ensure_full_hash (r : FileRef) : M World unit :=
  f ← deref r;
  if negb (truthy (File.full_hash f))
  then h ← __create_full_hash r full_chunk_size; update r (File.set_full_hash h)
  else ret tt.

(** The full hash stage of [compare_content], lines 97 to 105. *)
Definition compare_full_hash (self other : FileRef) : M World bool :=
  ensure_full_hash self ;;
  ensure_full_hash other ;;
  s ← deref self;
  o ← deref other;
  if negb (bool_decide (File.full_hash s = File.full_hash o)) then ret false
  else ret (bool_decide (File.full_hash s = File.full_hash o)).

(** The quick hash stage of [compare_content], lines 89 to 95, followed by
    the full hash stage. *)
Definition compare_quick_hash (self other : FileRef) : M World bool :=
  ensure_quick_hash self ;;
  ensure_quick_hash other ;;
  s ← deref self;
  o ← deref other;
  if negb (bool_decide (File.quick_hash s = File.quick_hash o)) then ret false
  else compare_full_hash self other.

Definition compare_content (self other : FileRef) : M World bool :=
  s ← deref self;
  o ← deref other;
  if negb (File.size s =? File.size o)%N then ret false
  else compare_quick_hash self other.

(** The loop of [compare_to] over the members of [CompType], and the raise
    that follows it. *)
Fixpoint assign_comp_type (members : list CompType)
    (same_path same_name same_content : bool) (self other : FileRef)
  : M World (option Comparison) :=
  match members with
  | [] => raise ValueError_no_comp_type
  | member :: members' =>
      let traits := value member in
      if bool_decide (path traits = same_path)
         && bool_decide (name traits = same_name)
         && bool_decide (content traits = same_content)
      then
        let comparison := {| fileA := self; fileB := other; comp_type := member |} in
        if bool_decide (comp_type comparison = PATH_DUP) then ret None
        else ret (Some comparison)
      else assign_comp_type members' same_path same_name same_content self other
  end.

Definition compare_to (self other : FileRef) : M World (option Comparison) :=
  if bool_decide (self = other) then raise ValueError_self_compare
  else
    s ← deref self;
    o ← deref other;
    let same_name := bool_decide (File.name s = File.name o) in
    let same_path := bool_decide (parent (File.rel_path s) = parent (File.rel_path o)) in
    same_content ← compare_content self other;
    assign_comp_type CompType_members same_path same_name same_content self other.

End file_py.

(** ** comparison.py: the text of an outcome *)

(** [comp_type.name] *)
Definition CompType_name (t : CompType) : string :=
  match t with
  | MATCH => "MATCH"
  | PATH_NAME_DUP => "PATH_NAME_DUP"
  | CONTENT_NAME_DUP => "CONTENT_NAME_DUP"
  | CONTENT_PATH_DUP => "CONTENT_PATH_DUP"
  | NAME_DUP => "NAME_DUP"
  | CONTENT_DUP => "CONTENT_DUP"
  | PATH_DUP => "PATH_DUP"
  | UNIQUE => "UNIQUE"
  end.

(** The line feed of the string literals. *)
Definition LF : string :=
  String (Ascii.Ascii false true false true false false false false) EmptyString.

(** [str(p)] of a relative path: its parts joined by "/", and "." when it
    has none. *)
Definition path_str (p : Path) : string :=
  match p with
  | [] => "."
  | part :: parts => foldl (fun joined x => joined +:+ "/" +:+ x) part parts
  end.

(** [Comparison.__str__] *)
Definition Comparison__str__ (self : Comparison) : M World string :=
  a ← deref (fileA self);
  b ← deref (fileB self);
  ret ("Comparison Type: " +:+ CompType_name (comp_type self) +:+ LF +:+
       "File A: " +:+ File.name a +:+ " (" +:+ path_str (File.rel_path a) +:+ ")" +:+ LF +:+
       "File B: " +:+ File.name b +:+ " (" +:+ path_str (File.rel_path b) +:+ ")").

(** ** The collaborators of comparison_manager.py *)

(** What [add_dir_index] reads of a [DirIndex]: the list of descriptors and
    the two indexes, by name and by size. *)
Record DirIndex := {
  file_list : list FileRef;
  name_index : string -> list FileRef;
  size_index : N -> list FileRef
}.

(** The argument of [set_comparisons]: [resolve_matches] passes one file,
    [resolve_dups] the list the user chose. *)
Inductive Selection :=
| KeepFile (f : FileRef)
| KeepFiles (l : list FileRef).

(** The interface of [ComparisonIndex] as the manager uses it: the
    constructor, the dict [index] and the four methods that change a bucket.
    The manager only iterates [index.items()] and never looks at the keys;
    what is kept of the dict is what its iterator walks, the array of its
    entries as CPython lays it out: the entries in the order they were
    inserted, each with its group, and a hole where an entry was deleted.
    Assigning to a key that is there changes the group of its entry;
    deleting a key leaves a hole; a new key is appended.  The methods are
    taken to change this one dict in place, so that a loop over its items
    sees what a method called in its body did. *)
Class ComparisonIndex (CI : Type) := {
  ComparisonIndex_init : CompType -> CI;
  index_entries : CI -> list (option (list FileRef));
  add_file : FileRef -> CI -> CI;
  add_comparison : Comparison -> CI -> CI;
  set_comparisons : Selection -> CI -> CI;
  remove_comparisons : FileRef -> CI -> CI
}.

(** The groups that [index.items()] holds: the entries that are there, in
    their order. *)
Definition index_items {CI} `{ComparisonIndex CI} (b : CI) : list (list FileRef) :=
  omap id (index_entries b).

(** The first entry of an array that is not a hole, with its position,
    counted from [pos]. *)
Fixpoint first_entry (entries : list (option (list FileRef))) (pos : nat)
  : option (nat * list FileRef) :=
  match entries with
  | [] => None
  | Some group :: _ => Some (pos, group)
  | None :: entries' => first_entry entries' (S pos)
  end.

(** The first entry at or after [pos]: the iterator skips the holes. *)
Definition next_entry (entries : list (option (list FileRef))) (pos : nat)
  : option (nat * list FileRef) :=
  first_entry (drop pos entries) pos.

(** The calls into [cli], with what the user answered. *)
Inductive cli_event :=
| display_files (type : CompType) (file_list : list FileRef)
| prompt_build_diff (file_list : list FileRef)
| prompt_keep_options (file_list : list FileRef) (user_choice : list FileRef).

(** The user: the answer to [prompt_keep_options], from everything shown and
    asked so far and the list now on offer. *)
Class Cli := { keep_options : list cli_event -> list FileRef -> list FileRef }.

(** A Python object that can be a member of a key of the pair cache. *)
Inductive obj :=
| OFile (f : FileRef)
| OManager.

#[global] Instance obj_eq_dec : EqDecision obj.
Proof. solve_decision. Defined.

Definition obj_to_option (o : obj) : option nat :=
  match o with OFile f => Some f | OManager => None end.
Definition obj_of_option (x : option nat) : obj :=
  match x with Some f => OFile f | None => OManager end.
Definition obj_of_to_option (o : obj) : obj_of_option (obj_to_option o) = o :=
  match o with OFile _ => eq_refl | OManager => eq_refl end.

#[global] Instance obj_countable : Countable obj :=
  inj_countable' obj_to_option obj_of_option obj_of_to_option.

(** ** comparison_manager.py *)

(** The manager (its [comparisons] and [comparison_cache]), the world of
    the descriptors and the dialogue with the user. *)
Record Sys (CI : Type) := {
  world : World;
  comparisons : CompType -> CI;
  comparison_cache : gmap (obj * obj) Comparison;
  cli_log : list cli_event
}.
Arguments world {CI} s.
Arguments comparisons {CI} s t.
Arguments comparison_cache {CI} s.
Arguments cli_log {CI} s.

Section comparison_manager_py.
Context {hashlib : Hashlib} {CI : Type} {index_ops : ComparisonIndex CI} {cli : Cli}.

(** A step of file.py, run by the manager. *)
Definition in_world {A} (m : M World A) : M (Sys CI) A :=
  fun s => match m (world s) with
           | (r, w) => (r, {| world := w; comparisons := comparisons s;
                              comparison_cache := comparison_cache s;
                              cli_log := cli_log s |})
           end.

(** [self.comparison_cache[key] = comparison] *)
Definition cache_set (key : obj * obj) (comparison : Comparison) (s : Sys CI) : Sys CI :=
  {| world := world s; comparisons := comparisons s;
     comparison_cache := <[key := comparison]> (comparison_cache s);
     cli_log := cli_log s |}.

(** A method call on [self.comparisons[type]]. *)
Definition on_index (type : CompType) (method : CI -> CI) (s : Sys CI) : Sys CI :=
  {| world := world s;
     comparisons := fun t => if bool_decide (t = type) then method (comparisons s t)
                             else comparisons s t;
     comparison_cache := comparison_cache s;
     cli_log := cli_log s |}.

Definition add_cli_event (e : cli_event) (s : Sys CI) : Sys CI :=
  {| world := world s; comparisons := comparisons s;
     comparison_cache := comparison_cache s; cli_log := cli_log s ++ [e] |}.

(** [ComparisonManager()] next to a given world. *)
Definition ComparisonManager_init (w : World) : Sys CI :=
  {| world := w; comparisons := ComparisonIndex_init;
     comparison_cache := ∅; cli_log := [] |}.

(** The truth value of [self.comparison_cache.get(key)]: a [Comparison]
    object is true, None is false. *)
Definition cache_get (key : obj * obj) : M (Sys CI) bool :=
  gets (fun s => match comparison_cache s !! key with Some _ => true | None => false end).

(** The loop of [_compare_file_against_group]; in the body of that method
    [self] is the manager. *)
Fixpoint compare_group_loop (file : FileRef) (group : list FileRef)
    (comparisons : list Comparison) : M (Sys CI) (list Comparison) :=
  match group with
  | [] => ret comparisons
  | other_file :: group' =>
      cached1 ← cache_get (OManager, OFile other_file);
      cached2 ← cache_get (OManager, OFile other_file);
      if bool_decide (file ≠ other_file) && negb (cached1 || cached2)
      then
        new_comparison ← in_world (compare_to file other_file);
        match new_comparison with
        | Some c => compare_group_loop file group' (comparisons ++ [c])
        | None => compare_group_loop file group' comparisons
        end
      else compare_group_loop file group' comparisons
  end.

Definition _compare_file_against_group (file : FileRef) (group : list FileRef)
  : M (Sys CI) (list Comparison) :=
  compare_group_loop file group [].

(** The loop of [_add_comparisons]. *)
Fixpoint add_comparisons_loop (comparisons : list Comparison) (non_unique_added : bool)
  : M (Sys CI) bool :=
  match comparisons with
  | [] => ret non_unique_added
  | comparison :: comparisons' =>
      modify (cache_set (OFile (fileA comparison), OFile (fileB comparison)) comparison);;
      if bool_decide (comp_type comparison ≠ UNIQUE)
      then
        modify (on_index (comp_type comparison) (add_comparison comparison));;
        add_comparisons_loop comparisons' true
      else add_comparisons_loop comparisons' non_unique_added
  end.

Definition _add_comparisons (comparisons : list Comparison) : M (Sys CI) bool :=
  add_comparisons_loop comparisons false.

(** The body of the loop of [add_dir_index]. *)
Definition add_dir_index_file (dir_index : DirIndex) (file : FileRef) : M (Sys CI) unit :=
  f ← in_world (deref file);
  let same_name_files := name_index dir_index (File.name f) in
  name_comparisons ← _compare_file_against_group file same_name_files;
  found_name_compare ← _add_comparisons name_comparisons;
  let same_size_files := size_index dir_index (File.size f) in
  size_comparisons ← _compare_file_against_group file same_size_files;
  found_size_compare ← _add_comparisons size_comparisons;
  if negb found_name_compare && negb found_size_compare
  then modify (on_index UNIQUE (add_file file))
  else ret tt.

Definition add_dir_index (dir_index : DirIndex) : M (Sys CI) unit :=
  for_each (file_list dir_index) (add_dir_index_file dir_index).

(** [for key, group in self.comparisons[type].index.items()], with a value
    [acc] carried from turn to turn, as the iterator of a dict runs it in
    CPython.  The iterator remembers the number [used] of entries the dict
    had when the loop began, the number [len] of entries it has still to
    yield and the position [pos] it has come to in the array of the entries.
    Each turn reads the dict as it is then: when the number of its entries
    is no longer [used] the iterator raises; else it looks for the first
    entry at or after [pos]; when there is none the loop ends; when there is
    one although [len] entries were yielded already, the iterator raises;
    else the body runs on the group of the entry. *)
Fixpoint iter_items {A} (len pos used : nat) (type : CompType)
    (body : A -> list FileRef -> M (Sys CI) A) (acc : A) {struct len} : M (Sys CI) A :=
  b ← gets (fun s => comparisons s type);
  if bool_decide (length (index_items b) ≠ used) then raise RuntimeError_changed_size
  else
    match next_entry (index_entries b) pos with
    | None => ret acc
    | Some (i, group) =>
        match len with
        | 0 => raise RuntimeError_keys_changed
        | S len' =>
            acc' ← body acc group;
            iter_items len' (S i) used type body acc'
        end
    end.

Definition for_items {A} (type : CompType)
    (body : A -> list FileRef -> M (Sys CI) A) (acc : A) : M (Sys CI) A :=
  b ← gets (fun s => comparisons s type);
  iter_items (length (index_items b)) 0 (length (index_items b)) type body acc.

Definition resolve_matches : M (Sys CI) unit :=
  for_items MATCH
    (fun _ matches =>
       match matches with
       | [] => raise IndexError
       | first :: _ => modify (on_index MATCH (set_comparisons (KeepFile first)))
       end) tt.

(** [cli.prompt_keep_options(dup_list)] *)
Definition ask_keep_options (dup_list : list FileRef) : M (Sys CI) (list FileRef) :=
  fun s =>
    let user_choice := keep_options (cli_log s) dup_list in
    (Return user_choice, add_cli_event (prompt_keep_options dup_list user_choice) s).

(** The body of the first loop of [resolve_dups]. *)
Definition resolve_dup_group (type : CompType) (to_remove dup_list : list FileRef)
  : M (Sys CI) (list FileRef) :=
  modify (add_cli_event (display_files type dup_list));;
  (if negb (content (value type))
   then modify (add_cli_event (prompt_build_diff dup_list))
   else ret tt);;
  user_choice ← ask_keep_options dup_list;
  if (length user_choice =? 0)%nat
  then
    match dup_list with
    | [] => raise IndexError
    | first :: _ => ret (to_remove ++ [first])
    end
  else
    modify (on_index type (set_comparisons (KeepFiles user_choice)));;
    ret to_remove.

Definition resolve_dups (type : CompType) : M (Sys CI) unit :=
  to_remove ← for_items type (resolve_dup_group type) [];
  for_each to_remove (fun file => modify (on_index type (remove_comparisons file))).

(** The body of the loop of [resolve_all]. *)
Definition resolve_type (type : CompType) : M (Sys CI) unit :=
  if bool_decide (type = MATCH) then resolve_matches
  else if bool_decide (type = UNIQUE) then ret tt
  else resolve_dups type.

Definition resolve_all : M (Sys CI) unit :=
  for_each CompType_members resolve_type.

End comparison_manager_py.

(** ** A bucket that records what it is asked

    This bucket keeps the groups it is created with and records, in order,
    every call of a method that would change it; what a call then does to
    the groups is the business of the class that is not there. *)

Inductive request :=
| AddFile (f : FileRef)
| AddComparison (c : Comparison)
| SetComparisons (kept : Selection)
| RemoveComparisons (f : FileRef).

Record Recorder := {
  groups : list (list FileRef);
  requests : list request
}.

Definition record (r : request) (b : Recorder) : Recorder :=
  {| groups := groups b; requests := requests b ++ [r] |}.

#[global] Instance Recorder_index : ComparisonIndex Recorder := {
  ComparisonIndex_init := fun _ => {| groups := []; requests := [] |};
  index_entries := fun b => Some <$> groups b;
  add_file := fun f => record (AddFile f);
  add_comparison := fun c => record (AddComparison c);
  set_comparisons := fun k => record (SetComparisons k);
  remove_comparisons := fun f => record (RemoveComparisons f)
}.

(** The files handed to [remove_comparisons], and the selections handed to
    [set_comparisons]. *)
Definition removals (b : Recorder) : list FileRef :=
  omap (fun r => match r with RemoveComparisons f => Some f | _ => None end) (requests b).

Definition selections (b : Recorder) : list Selection :=
  omap (fun r => match r with SetComparisons k => Some k | _ => None end) (requests b).

(** What the recording buckets were asked, category by category. *)
Definition asked (s : Sys Recorder) : list (CompType * list request) :=
  omap (fun t => match requests (comparisons s t) with
                 | [] => None
                 | l => Some (t, l)
                 end) CompType_members.

(** ** Sample data *)

(** A stand-in for hashlib whose digests spell out the bytes they are taken
    from: never empty, and different for different bytes. *)
Definition spelling_hashlib : Hashlib := {|
  md5_hexdigest := fun b => "m" +:+ string_of_list_byte b;
  sha256_hexdigest := fun b => "s" +:+ string_of_list_byte b
|}.

(** A user who keeps nothing, and one who keeps everything on offer. *)
Definition keeps_nothing : Cli := {| keep_options := fun _ _ => [] |}.
Definition keeps_everything : Cli := {| keep_options := fun _ dup_list => dup_list |}.

(** Two trees under "left" and "right":
    - left/docs/a.txt and right/docs/a.txt, both "hello";
    - left/docs/b.txt, "hellp" (the size of a.txt, other bytes);
    - left/pics/c.txt, "hello";
    - right/gone.txt, of 5 bytes when it was indexed and unreadable since;
    - right/docs/b.txt, "hello". *)
Definition sample_disk (p : Path) : option (list byte) :=
  if bool_decide (p = ["left"; "docs"; "a.txt"]) then Some (list_byte_of_string "hello")
  else if bool_decide (p = ["right"; "docs"; "a.txt"]) then Some (list_byte_of_string "hello")
  else if bool_decide (p = ["left"; "docs"; "b.txt"]) then Some (list_byte_of_string "hellp")
  else if bool_decide (p = ["left"; "pics"; "c.txt"]) then Some (list_byte_of_string "hello")
  else if bool_decide (p = ["right"; "docs"; "b.txt"]) then Some (list_byte_of_string "hello")
  else None.

Definition sample_file (base : string) (rel : Path) : File.t :=
  File.mk (path_name rel) rel (parent (base :: rel)) (base :: rel) 5 None None.

Definition sample_heap : list File.t :=
  [ sample_file "left" ["docs"; "a.txt"];     (* 0 *)
    sample_file "right" ["docs"; "a.txt"];    (* 1 *)
    sample_file "left" ["docs"; "b.txt"];     (* 2 *)
    sample_file "left" ["pics"; "c.txt"];     (* 3 *)
    sample_file "right" ["gone.txt"];         (* 4 *)
    sample_file "right" ["docs"; "b.txt"] ].  (* 5 *)

Definition sample_world : World :=
  {| heap := sample_heap; disk := sample_disk; hash_log := [] |}.

(** What stat gives on the sample trees: the number of bytes of a file that
    can be read, 4096 for the directories left/docs and right/docs, which
    cannot be opened as files, and an error for anything else. *)
Definition sample_os : Os :=
  {| st_size := fun w p =>
       if bool_decide (p = ["left"; "docs"]) || bool_decide (p = ["right"; "docs"])
       then Some 4096%N
       else (fun c => N.of_nat (length c)) <$> disk w p |}.

(** Two descriptors of the same name and folder and of different sizes,
    whose files are gone. *)
Definition gone_world : World :=
  {| heap := [ File.mk "a.txt" ["docs"; "a.txt"] ["left"; "docs"]
                       ["left"; "docs"; "a.txt"] 5 None None;
               File.mk "a.txt" ["docs"; "a.txt"] ["right"; "docs"]
                       ["right"; "docs"; "a.txt"] 7 None None ];
     disk := fun _ => None;
     hash_log := [] |}.

(** The index of some descriptors of a store: each is listed under its name
    and under its size. *)
Definition index_of (h : list File.t) (files : list FileRef) : DirIndex :=
  {| file_list := files;
     name_index := fun n => filter (fun r => File.name <$> h !! r = Some n) files;
     size_index := fun z => filter (fun r => File.size <$> h !! r = Some z) files |}.

(** A manager next to the sample world whose bucket of [type] holds the
    given groups. *)
Definition with_groups (type : CompType) (gs : list (list FileRef)) : Sys Recorder :=
  {| world := sample_world;
     comparisons := fun t => if bool_decide (t = type)
                             then {| groups := gs; requests := [] |}
                             else ComparisonIndex_init t;
     comparison_cache := ∅;
     cli_log := [] |}.

(** Buckets that re-key: the dict is the array of its entries, and
    [set_comparisons] deletes the first key in use and files what is kept
    under a new key, so that the dict has as many keys as before and its
    iterator still finds one after its last turn. *)
Record Rekeying := { slots : list (option (list FileRef)) }.

Fixpoint delete_first (entries : list (option (list FileRef)))
  : list (option (list FileRef)) :=
  match entries with
  | [] => []
  | Some _ :: entries' => None :: entries'
  | None :: entries' => None :: delete_first entries'
  end.

Definition selected (k : Selection) : list FileRef :=
  match k with KeepFile f => [f] | KeepFiles l => l end.

Definition Rekeying_index : ComparisonIndex Rekeying := {|
  ComparisonIndex_init := fun _ => {| slots := [] |};
  index_entries := slots;
  add_file := fun f b => {| slots := slots b ++ [Some [f]] |};
  add_comparison := fun c b => {| slots := slots b ++ [Some [fileA c; fileB c]] |};
  set_comparisons := fun k b => {| slots := delete_first (slots b) ++ [Some (selected k)] |};
  remove_comparisons := fun _ b => b
|}.

Definition rekeying_groups (type : CompType) (gs : list (list FileRef)) : Sys Rekeying :=
  {| world := sample_world;
     comparisons := fun t => if bool_decide (t = type)
                             then {| slots := Some <$> gs |}
                             else {| slots := [] |};
     comparison_cache := ∅;
     cli_log := [] |}.

(** ** Notions used to state the properties *)

(** *** Of a computation *)

(** [m] keeps the property [P] of the state, whatever it answers. *)
Definition keeps {S A} (P : S -> Prop) (m : M S A) : Prop :=
  forall s, P s -> P (snd (m s)).

(** Every answer of [m] has the property [Q]. *)
Definition returns {S A} (Q : A -> Prop) (m : M S A) : Prop :=
  forall s a s', m s = (Return a, s') -> Q a.

(** *** Of the taxonomy *)

(** The taxonomy read the other way round: the member whose value is a
    triple of traits. *)
Definition classify (same_path same_name same_content : bool) : CompType :=
  match same_path, same_name, same_content with
  | true, true, true => MATCH
  | true, true, false => PATH_NAME_DUP
  | false, true, true => CONTENT_NAME_DUP
  | true, false, true => CONTENT_PATH_DUP
  | false, true, false => NAME_DUP
  | false, false, true => CONTENT_DUP
  | true, false, false => PATH_DUP
  | false, false, false => UNIQUE
  end.

(** The category that goes with the answer of the content test on two
    descriptors: None stands for the suppressed PATH_DUP. *)
Definition verdict_category (s o : File.t) (v : outcome bool) : outcome (option CompType) :=
  match v with
  | Return same_content =>
      let category :=
        classify (bool_decide (parent (File.rel_path s) = parent (File.rel_path o)))
                 (bool_decide (File.name s = File.name o)) same_content in
      Return (if bool_decide (category = PATH_DUP) then None else Some category)
  | Raise e => Raise e
  end.

(** The category of what [compare_to] answers. *)
Definition category_of (r : outcome (option Comparison)) : outcome (option CompType) :=
  match r with
  | Return c => Return (comp_type <$> c)
  | Raise e => Raise e
  end.

(** *** Of the fingerprints *)

Definition is_quick (e : hash_event) : Prop :=
  match e with QuickHashed _ => True | FullHashed _ => False end.

Definition is_full (e : hash_event) : Prop :=
  match e with FullHashed _ => True | QuickHashed _ => False end.

(** How many times an event is on the record. *)
Definition times (e : hash_event) (log : list hash_event) : nat :=
  length (filter (eq e) log).

(** [f'] is [f] with a quick (full) fingerprint assigned. *)
Definition quick_assigned (f f' : File.t) : Prop :=
  exists q, f' = File.set_quick_hash q f.

Definition full_assigned (f f' : File.t) : Prop :=
  exists q, f' = File.set_full_hash q f.

(** The world once the quick (full) fingerprint [q] of [r] was asked for:
    the hash is recorded as computed when the descriptor had none. *)
Definition quick_known (r : FileRef) (f : File.t) (q : string) (w : World) : World :=
  {| heap := <[r := File.set_quick_hash q f]> (heap w);
     disk := disk w;
     hash_log := hash_log w ++ (if truthy (File.quick_hash f) then [] else [QuickHashed r]) |}.

Definition full_known (r : FileRef) (f : File.t) (q : string) (w : World) : World :=
  {| heap := <[r := File.set_full_hash q f]> (heap w);
     disk := disk w;
     hash_log := hash_log w ++ (if truthy (File.full_hash f) then [] else [FullHashed r]) |}.

(** The descriptors as [File(...)] makes them, and nothing hashed yet. *)
Definition fresh (w : World) : Prop :=
  hash_log w = [] /\
  forall r f, heap w !! r = Some f -> File.quick_hash f = None /\ File.full_hash f = None.

(** The record agrees with the store: a fingerprint was computed once for a
    descriptor that holds one, and never for the others. *)
Definition computed_once (w : World) : Prop :=
  forall r,
    times (QuickHashed r) (hash_log w) =
      match heap w !! r with
      | Some f => if truthy (File.quick_hash f) then 1 else 0
      | None => 0
      end /\
    times (FullHashed r) (hash_log w) =
      match heap w !! r with
      | Some f => if truthy (File.full_hash f) then 1 else 0
      | None => 0
      end.

(** [r] still holds the fingerprints that [f] had cached. *)
Definition cached_kept (r : FileRef) (f : File.t) (w : World) : Prop :=
  exists f', heap w !! r = Some f' /\
    (truthy (File.quick_hash f) = true -> File.quick_hash f' = File.quick_hash f) /\
    (truthy (File.full_hash f) = true -> File.full_hash f' = File.full_hash f).

(** What happens to the world in the course of a run: a comparison of the
    content of two descriptors, or a change of the disk under the program. *)
Inductive run_step :=
| Compare (self other : FileRef)
| DiskChange (d : Path -> option (list byte)).

Section fingerprints.
Context {hashlib : Hashlib}.

(** The fingerprints a descriptor holds once they were asked for: the
    cached one when there is one, else the digest of what is on the disk. *)
Definition quick_value (w : World) (f : File.t) : option string :=
  if truthy (File.quick_hash f) then File.quick_hash f
  else (fun c => md5_hexdigest (take quick_chunk_size c)) <$> disk w (File.abs_path f).

Definition full_value (w : World) (f : File.t) : option string :=
  if truthy (File.full_hash f) then File.full_hash f
  else sha256_hexdigest <$> disk w (File.abs_path f).

(** The answer of the staged test on two descriptors, from the fingerprints
    they hold or would be given. *)
Definition content_verdict (w : World) (s o : File.t) : outcome bool :=
  if (File.size s =? File.size o)%N then
    match quick_value w s, quick_value w o with
    | Some qs, Some qo =>
        if bool_decide (qs = qo) then
          match full_value w s, full_value w o with
          | Some fs, Some fo => Return (bool_decide (fs = fo))
          | _, _ => Raise OSError
          end
        else Return false
    | _, _ => Raise OSError
    end
  else Return false.

(** In [w'] the descriptor behind [r] has the name, the folder, the size and
    the fingerprints, cached or to come, that [f] has in [w]. *)
Definition same_traits (w : World) (r : FileRef) (f : File.t) (w' : World) : Prop :=
  exists f', heap w' !! r = Some f' /\
    File.name f' = File.name f /\ File.rel_path f' = File.rel_path f /\
    File.size f' = File.size f /\
    quick_value w' f' = quick_value w f /\ full_value w' f' = full_value w f.

Fixpoint run_steps (steps : list run_step) (w : World) : World :=
  match steps with
  | [] => w
  | Compare self other :: steps' => run_steps steps' (snd (compare_content self other w))
  | DiskChange d :: steps' => run_steps steps' (set_disk d w)
  end.

End fingerprints.

(** *** Of the manager *)

(** The key under which an outcome goes into the pair cache. *)
Definition pair_key (c : Comparison) : obj * obj :=
  (OFile (fileA c), OFile (fileB c)).

(** The keys of the pair cache are pairs of files. *)
Definition file_keys {CI} (s : Sys CI) : Prop :=
  forall k, is_Some (comparison_cache s !! k) -> exists a b, k = (OFile a, OFile b).

(** What a group can yield: an outcome of [file] against another member of
    the group, of a category other than PATH_DUP. *)
Definition outcome_of (file : FileRef) (group : list FileRef) (c : Comparison) : Prop :=
  fileA c = file /\ fileB c ∈ group /\ fileB c <> file /\ comp_type c <> PATH_DUP.

(** The methods of the manager that a program can call. *)
Inductive manager_call :=
| AddDirIndex (dir_index : DirIndex)
| ResolveAll
| ResolveMatches
| ResolveDups (type : CompType).

(** A loop over a list of groups that is known beforehand. *)
Fixpoint fold_items {S A} (groups : list (list FileRef))
    (body : A -> list FileRef -> M S A) (acc : A) : M S A :=
  match groups with
  | [] => mret acc
  | group :: groups' => acc' ← body acc group; fold_items groups' body acc'
  end.

(** Reading the dialogue with the user: the group a prompt was about, the
    selection a prompt was answered with when the user kept something, and
    the first member of the group when the user kept nothing. *)
Definition prompted (e : cli_event) : option (list FileRef) :=
  match e with
  | prompt_keep_options dup_list _ => Some dup_list
  | _ => None
  end.

Definition kept_selection (e : cli_event) : option Selection :=
  match e with
  | prompt_keep_options _ (f :: l) => Some (KeepFiles (f :: l))
  | _ => None
  end.

Definition kept (e : cli_event) : option request :=
  SetComparisons <$> kept_selection e.

Definition dropped (e : cli_event) : option FileRef :=
  match e with
  | prompt_keep_options (first :: _) [] => Some first
  | _ => None
  end.

Section manager_notions.
Context {hashlib : Hashlib} {CI : Type} {index_ops : ComparisonIndex CI} {cli : Cli}.

Definition call (c : manager_call) : M (Sys CI) unit :=
  match c with
  | AddDirIndex dir_index => add_dir_index dir_index
  | ResolveAll => resolve_all
  | ResolveMatches => resolve_matches
  | ResolveDups type => resolve_dups type
  end.

(** The state after a sequence of calls, each of them made whatever the one
    before answered. *)
Fixpoint after_calls (calls : list manager_call) (s : Sys CI) : Sys CI :=
  match calls with
  | [] => s
  | c :: calls' => after_calls calls' (snd (call c s))
  end.

(** The bucket of PATH_DUP is as [ComparisonIndex(PATH_DUP)] made it. *)
Definition path_dup_untouched (s : Sys CI) : Prop :=
  comparisons s PATH_DUP = ComparisonIndex_init PATH_DUP.


(** [add_dir_index], started in [s], comes to [file] in the state [s1]. *)
Definition reaches_file (d : DirIndex) (s : Sys CI) (file : FileRef) (s1 : Sys CI) : Prop :=
  exists before after,
    file_list d = before ++ file :: after /\
    for_each before (add_dir_index_file d) s = (Return (), s1).

(** The loop over [group], started in [s1], comes to [other] in the state
    [s2]. *)
Definition reaches_member (file : FileRef) (group : list FileRef) (s1 : Sys CI)
    (other : FileRef) (s2 : Sys CI) : Prop :=
  exists g1 g2 acc,
    group = g1 ++ other :: g2 /\
    compare_group_loop file g1 [] s1 = (Return acc, s2).

(** The classification of [file], started in [s1], comes to the comparison
    with [other] in the state [s2]: in the name-group, or, the name-group
    done and recorded, in the size-group. *)
Definition reaches_pair (d : DirIndex) (file : FileRef) (f : File.t) (s1 : Sys CI)
    (other : FileRef) (s2 : Sys CI) : Prop :=
  reaches_member file (name_index d (File.name f)) s1 other s2 \/
  exists names s' found s'',
    _compare_file_against_group file (name_index d (File.name f)) s1 = (Return names, s') /\
    _add_comparisons names s' = (Return found, s'') /\
    reaches_member file (size_index d (File.size f)) s'' other s2.

End manager_notions.

(** *** Sentences of the specification that the code does not bear out *)

(** An empty selection retains the first member of the group and removes
    the others: in a pass of [resolve_dups], whenever the user answered a
    prompt with nothing, the first member of the group on offer is not
    removed and every other member is. *)
Definition first_member_retained {cli : Cli} (type : CompType) (s : Sys Recorder) : Prop :=
  let s' := snd (resolve_dups type s) in
  forall first rest,
    prompt_keep_options (first :: rest) [] ∈ cli_log s' ->
    (first ∉ removals (comparisons s' type)) /\
    (forall f, f ∈ rest -> f ∈ removals (comparisons s' type)).


(** Every outcome handed to [_add_comparisons] is both cached and filed into
    the bucket of its category. *)
Definition outcomes_all_filed (cs : list Comparison) (s : Sys Recorder) : Prop :=
  let s' := snd (_add_comparisons cs s) in
  forall c, c ∈ cs ->
    is_Some (comparison_cache s' !! pair_key c) /\
    AddComparison c ∈ requests (comparisons s' (comp_type c)).

(** An unreadable file does not stop the classification. *)
Definition classification_goes_on {hashlib : Hashlib} (d : DirIndex) (s : Sys Recorder) : Prop :=
  exists s', add_dir_index d s = (Return (), s').

(** *** Of the descriptors and the store, for the properties beyond the
    sentences of the specification *)

(** [f'] is [f] but for its fingerprints. *)
Definition same_file (f f' : File.t) : Prop :=
  File.name f' = File.name f /\ File.rel_path f' = File.rel_path f /\
  File.dir_path f' = File.dir_path f /\ File.abs_path f' = File.abs_path f /\
  File.size f' = File.size f.

(** From [w] to [w'] nothing happened but fingerprints being computed: the
    disk is the same, the store holds the same descriptors but for their
    fingerprints, and unchanged the ones that are not [touched]. *)
Definition only_fingerprints (touched : FileRef -> Prop) (w w' : World) : Prop :=
  disk w' = disk w /\
  length (heap w') = length (heap w) /\
  (exists l, hash_log w' = hash_log w ++ l) /\
  forall r f, heap w !! r = Some f ->
    exists f', heap w' !! r = Some f' /\ same_file f f' /\ (~ touched r -> f' = f).

(** A descriptor as [File(...)] makes it: no fingerprint yet. *)
Definition unhashed (f : File.t) : Prop :=
  File.quick_hash f = None /\ File.full_hash f = None.

(** *** Of what a computation can raise *)

(** The outcome [r] is a result, or an exception of [E]. *)
Definition raises_in {A} (E : exn -> Prop) (r : outcome A) : Prop :=
  match r with
  | Return _ => True
  | Raise e => E e
  end.

(** [m] keeps the property [P] of the state and raises nothing outside [E]. *)
Definition safe {S A} (E : exn -> Prop) (P : S -> Prop) (m : M S A) : Prop :=
  forall s, P s -> P (snd (m s)) /\ raises_in E (fst (m s)).

(** *** Of a [DirIndex] and the pair cache *)

(** The descriptors that a [DirIndex] lists: in its list of files, or in a
    group of one of its two indexes. *)
Definition listed (d : DirIndex) (r : FileRef) : Prop :=
  r ∈ file_list d \/ (exists n, r ∈ name_index d n) \/ (exists z, r ∈ size_index d z).

(** Every descriptor that [d] lists is in the store, as every reference of
    a Python program is. *)
Definition valid_index (d : DirIndex) (w : World) : Prop :=
  forall r, listed d r -> is_Some (heap w !! r).

(** The file of every descriptor that [d] lists can be read. *)
Definition readable_index (d : DirIndex) (w : World) : Prop :=
  forall r f, listed d r -> heap w !! r = Some f -> is_Some (disk w (File.abs_path f)).

(** Every entry of the pair cache is an outcome kept under its own pair, of
    two different files and of a category other than PATH_DUP. *)
Definition cache_consistent {CI} (s : Sys CI) : Prop :=
  forall k c, comparison_cache s !! k = Some c ->
    k = pair_key c /\ fileA c <> fileB c /\ comp_type c <> PATH_DUP.

(** *** Of the dialogue of a pass of [resolve_dups] *)

(** The dialogue after a pass over the groups [visited], started with the
    dialogue [log]: each group is displayed, a diff is offered when the
    category is one of different content, and the user is asked what to
    keep. *)
Fixpoint dialogue {cli : Cli} (type : CompType) (log : list cli_event)
    (visited : list (list FileRef)) : list cli_event :=
  match visited with
  | [] => log
  | dup_list :: visited' =>
      let shown :=
        log ++ display_files type dup_list
            :: (if content (value type) then [] else [prompt_build_diff dup_list]) in
      dialogue type
        (shown ++ [prompt_keep_options dup_list (keep_options shown dup_list)]) visited'
  end.

(** *** Of the buckets, for the passes of resolution *)

(** Two states of the dict of a bucket with the same array of entries, up
    to the groups they hold: an entry is in use in one exactly when the
    entry at its place is in use in the other.  This is how a dict stays
    when no key is inserted and none is deleted. *)
Definition same_layout {CI} `{ComparisonIndex CI} (b b' : CI) : Prop :=
  Forall2 (fun entry entry' : option (list FileRef) => is_Some entry <-> is_Some entry')
          (index_entries b) (index_entries b').

(** A bucket class whose [set_comparisons] inserts and deletes no key of
    the dict, so that the array of the entries keeps its holes where they
    are, and leaves no group empty. *)
Definition steady_selection (CI : Type) `{ComparisonIndex CI} : Prop :=
  forall k b,
    same_layout b (set_comparisons k b) /\
    ([] ∉ index_items b -> [] ∉ index_items (set_comparisons k b)).

(** The dict of the bucket of [type] is laid out as the one of [b0] is, and
    none of its groups is empty. *)
Definition steady_from {CI} `{ComparisonIndex CI} (b0 : CI) (type : CompType)
    (s : Sys CI) : Prop :=
  same_layout b0 (comparisons s type) /\ [] ∉ index_items (comparisons s type).

(** *** Of the sizes that an index holds *)

(** No two descriptors that [d] lists have the same recorded size. *)
Definition sizes_differ (d : DirIndex) (w : World) : Prop :=
  forall a b fa fb, listed d a -> listed d b -> a <> b ->
    heap w !! a = Some fa -> heap w !! b = Some fb -> File.size fa <> File.size fb.

(** * Properties *)

(** ** Running the monad *)

Lemma run_bind {S A B} (m : M S A) (k : A -> M S B) s :
  (m ≫= k) s = match m s with
               | (Return a, s') => k a s'
               | (Raise e, s') => (Raise e, s')
               end.
Proof. reflexivity. Qed.

Lemma bind_inv {S A B} (m : M S A) (k : A -> M S B) s r s2 :
  (m ≫= k) s = (r, s2) ->
  (exists a s1, m s = (Return a, s1) /\ k a s1 = (r, s2)) \/
  (exists e, m s = (Raise e, s2) /\ r = Raise e).
Proof.
  rewrite run_bind. destruct (m s) as [[a|e] s1]; intros E.
  - left. eauto.
  - right. inversion E; subst. eauto.
Qed.

Lemma run_deref r w f : heap w !! r = Some f -> deref r w = (Return f, w).
Proof. unfold deref. by intros ->. Qed.

Lemma run_update r g w f :
  heap w !! r = Some f -> update r g w = (Return tt, set_heap (<[r := g f]> (heap w)) w).
Proof. unfold update. by intros ->. Qed.

(** ** The taxonomy *)
Lemma value_classify p n c : value (classify p n c) = {| path := p; name := n; content := c |}.
Proof. by destruct p, n, c. Qed.

Lemma classify_value t : classify (path (value t)) (name (value t)) (content (value t)) = t.
Proof. by destruct t. Qed.

Lemma value_inj t1 t2 : value t1 = value t2 -> t1 = t2.
Proof. intros E. rewrite <- (classify_value t1), <- (classify_value t2). by rewrite E. Qed.

Lemma classify_unique p n c t : value t = {| path := p; name := n; content := c |} <-> t = classify p n c.
Proof.
  split.
  - intros E. apply value_inj. by rewrite value_classify.
  - intros ->. apply value_classify.
Qed.

(** ** file.py *)

Section file_facts.
Context {hashlib : Hashlib}.

Lemma feed_hasher_fuel fuel chunk_size rest fed :
  0 < chunk_size -> length rest < fuel ->
  feed_hasher fuel chunk_size rest fed = fed ++ rest.
Proof.
  intros Hpos. revert rest fed.
  induction fuel as [|fuel IH]; intros rest fed Hlen; [lia|].
  simpl. destruct (take chunk_size rest) as [|b chunk] eqn:E.
  - apply take_nil_inv in E as [->| ->]; [lia|]. by rewrite app_nil_r.
  - rewrite IH.
    + rewrite <- E, <- app_assoc. by rewrite take_drop.
    + rewrite length_drop. destruct rest; [by rewrite take_nil in E|]. simpl in *. lia.
Qed.

(** The hasher is fed the whole content, chunk after chunk. *)
Lemma feed_hasher_content c :
  feed_hasher (S (length c)) full_chunk_size c [] = c.
Proof. apply feed_hasher_fuel; [|lia]. unfold full_chunk_size. lia. Qed.


Lemma truthy_Some o : truthy o = true -> exists q, o = Some q.
Proof. destruct o as [[|]|]; naive_solver. Qed.

Lemma set_quick_hash_same f q : File.quick_hash f = Some q -> File.set_quick_hash q f = f.
Proof. destruct f; simpl; by intros ->. Qed.

Lemma set_full_hash_same f q : File.full_hash f = Some q -> File.set_full_hash q f = f.
Proof. destruct f; simpl; by intros ->. Qed.

Lemma world_eta w : {| heap := heap w; disk := disk w; hash_log := hash_log w |} = w.
Proof. by destruct w. Qed.

Lemma run_ensure_quick_hash r w f :
  heap w !! r = Some f ->
  ensure_quick_hash r w =
    match quick_value w f with
    | Some q => (Return tt, quick_known r f q w)
    | None => (Raise OSError, w)
    end.
Proof.
  intros Hr. unfold ensure_quick_hash, quick_value, quick_known.
  rewrite run_bind, (run_deref _ _ _ Hr).
  destruct (truthy _) eqn:Ht; simpl.
  - destruct (truthy_Some _ Ht) as [q Hq]. rewrite Hq.
    rewrite (set_quick_hash_same _ _ Hq), (list_insert_id _ _ _ Hr), app_nil_r.
    by rewrite world_eta.
  - unfold __create_quick_hash. rewrite !run_bind, (run_deref _ _ _ Hr).
    rewrite run_bind. unfold open_rb. destruct (disk _ _) as [c|]; [|done].
    simpl. unfold update. simpl. by rewrite Hr.
Qed.

Lemma run_ensure_full_hash r w f :
  heap w !! r = Some f ->
  ensure_full_hash r w =
    match full_value w f with
    | Some q => (Return tt, full_known r f q w)
    | None => (Raise OSError, w)
    end.
Proof.
  intros Hr. unfold ensure_full_hash, full_value, full_known.
  rewrite run_bind, (run_deref _ _ _ Hr).
  destruct (truthy _) eqn:Ht; simpl.
  - destruct (truthy_Some _ Ht) as [q Hq]. rewrite Hq.
    rewrite (set_full_hash_same _ _ Hq), (list_insert_id _ _ _ Hr), app_nil_r.
    by rewrite world_eta.
  - unfold __create_full_hash. rewrite !run_bind, (run_deref _ _ _ Hr).
    rewrite run_bind. unfold open_rb. destruct (disk _ _) as [c|]; [|done].
    rewrite feed_hasher_content.
    simpl. unfold update. simpl. by rewrite Hr.
Qed.


(** What a stage leaves in the store, at the reference it worked on and at
    the others. *)
Lemma lookup_quick_known r f q w r' g :
  heap w !! r = Some f -> heap w !! r' = Some g ->
  heap (quick_known r f q w) !! r' =
    Some (if decide (r = r') then File.set_quick_hash q f else g).
Proof.
  intros Hr Hr'. simpl. destruct (decide (r = r')) as [<-|Hne].
  - apply list_lookup_insert_eq. by eapply lookup_lt_Some.
  - by rewrite list_lookup_insert_ne.
Qed.

Lemma lookup_full_known r f q w r' g :
  heap w !! r = Some f -> heap w !! r' = Some g ->
  heap (full_known r f q w) !! r' =
    Some (if decide (r = r') then File.set_full_hash q f else g).
Proof.
  intros Hr Hr'. simpl. destruct (decide (r = r')) as [<-|Hne].
  - apply list_lookup_insert_eq. by eapply lookup_lt_Some.
  - by rewrite list_lookup_insert_ne.
Qed.

(** The two stages that hash, run from a store that holds both files. *)
Lemma run_compare_full_hash self other w s o :
  heap w !! self = Some s -> heap w !! other = Some o ->
  compare_full_hash self other w =
    match full_value w s with
    | None => (Raise OSError, w)
    | Some fs =>
        let w1 := full_known self s fs w in
        let g := if decide (self = other) then File.set_full_hash fs s else o in
        match full_value w1 g with
        | None => (Raise OSError, w1)
        | Some fo =>
            let w2 := full_known other g fo w1 in
            let o2 := File.set_full_hash fo g in
            let s2 := if decide (other = self) then o2 else File.set_full_hash fs s in
            (Return (bool_decide (File.full_hash s2 = File.full_hash o2)), w2)
        end
    end.
Proof.
  intros Hs Ho. unfold compare_full_hash.
  rewrite run_bind, (run_ensure_full_hash _ _ _ Hs).
  destruct (full_value w s) as [fs|]; [|done]. cbv zeta.
  pose proof (lookup_full_known self s fs w _ _ Hs Ho) as Ho1.
  pose proof (lookup_full_known self s fs w _ _ Hs Hs) as Hs1.
  rewrite (decide_True (P := self = self)) in Hs1 by done.
  rewrite run_bind, (run_ensure_full_hash _ _ _ Ho1).
  destruct (full_value _ _) as [fo|]. 2:{ done. }
  pose proof (lookup_full_known other _ fo _ _ _ Ho1 Hs1) as Hs2.
  pose proof (lookup_full_known other _ fo _ _ _ Ho1 Ho1) as Ho2.
  rewrite (decide_True (P := other = other)) in Ho2 by done.
  rewrite run_bind, (run_deref _ _ _ Hs2), run_bind, (run_deref _ _ _ Ho2).
  by destruct (bool_decide _).
Qed.

Lemma run_compare_quick_hash self other w s o :
  heap w !! self = Some s -> heap w !! other = Some o ->
  compare_quick_hash self other w =
    match quick_value w s with
    | None => (Raise OSError, w)
    | Some qs =>
        let w1 := quick_known self s qs w in
        let g := if decide (self = other) then File.set_quick_hash qs s else o in
        match quick_value w1 g with
        | None => (Raise OSError, w1)
        | Some qo =>
            let w2 := quick_known other g qo w1 in
            let o2 := File.set_quick_hash qo g in
            let s2 := if decide (other = self) then o2 else File.set_quick_hash qs s in
            if bool_decide (File.quick_hash s2 = File.quick_hash o2)
            then compare_full_hash self other w2
            else (Return false, w2)
        end
    end.
Proof.
  intros Hs Ho. unfold compare_quick_hash.
  rewrite run_bind, (run_ensure_quick_hash _ _ _ Hs).
  destruct (quick_value w s) as [qs|]; [|done]. cbv zeta.
  pose proof (lookup_quick_known self s qs w _ _ Hs Ho) as Ho1.
  pose proof (lookup_quick_known self s qs w _ _ Hs Hs) as Hs1.
  rewrite (decide_True (P := self = self)) in Hs1 by done.
  rewrite run_bind, (run_ensure_quick_hash _ _ _ Ho1).
  destruct (quick_value _ _) as [qo|]; [|done].
  pose proof (lookup_quick_known other _ qo _ _ _ Ho1 Hs1) as Hs2.
  pose proof (lookup_quick_known other _ qo _ _ _ Ho1 Ho1) as Ho2.
  rewrite (decide_True (P := other = other)) in Ho2 by done.
  rewrite run_bind, (run_deref _ _ _ Hs2), run_bind, (run_deref _ _ _ Ho2).
  by destruct (bool_decide _).
Qed.

Lemma run_compare_content self other w s o :
  heap w !! self = Some s -> heap w !! other = Some o ->
  compare_content self other w =
    if (File.size s =? File.size o)%N then compare_quick_hash self other w
    else (Return false, w).
Proof.
  intros Hs Ho. unfold compare_content.
  rewrite run_bind, (run_deref _ _ _ Hs), run_bind, (run_deref _ _ _ Ho).
  by destruct (_ =? _)%N.
Qed.


Lemma quick_log_is_quick r (b : bool) : Forall is_quick (if b then [] else [QuickHashed r]).
Proof. destruct b; repeat constructor. Qed.

Lemma full_log_is_full r (b : bool) : Forall is_full (if b then [] else [FullHashed r]).
Proof. destruct b; repeat constructor. Qed.

(** The quick stage either fails on a file it cannot read, or leaves both
    descriptors with a quick fingerprint, at the cost of quick hashes only,
    and goes on to the full stage exactly when the two fingerprints agree. *)
Lemma compare_quick_hash_cases self other w s o :
  heap w !! self = Some s -> heap w !! other = Some o ->
  (exists w1 l, compare_quick_hash self other w = (Raise OSError, w1) /\
      hash_log w1 = hash_log w ++ l /\ Forall is_quick l) \/
  (exists w2 s2 o2 l,
      heap w2 !! self = Some s2 /\ heap w2 !! other = Some o2 /\
      quick_assigned s s2 /\ quick_assigned o o2 /\
      disk w2 = disk w /\ hash_log w2 = hash_log w ++ l /\ Forall is_quick l /\
      compare_quick_hash self other w =
        if bool_decide (File.quick_hash s2 = File.quick_hash o2)
        then compare_full_hash self other w2
        else (Return false, w2)).
Proof.
  intros Hs Ho. rewrite (run_compare_quick_hash _ _ _ _ _ Hs Ho).
  destruct (quick_value w s) as [qs|];
    [|left; exists w, []; by rewrite app_nil_r]. cbv zeta.
  pose proof (lookup_quick_known self s qs w _ _ Hs Ho) as Ho1.
  pose proof (lookup_quick_known self s qs w _ _ Hs Hs) as Hs1.
  rewrite (decide_True (P := self = self)) in Hs1 by done.
  destruct (quick_value _ _) as [qo|];
    [|left; eexists _, _; split; [done|]; split; [done|apply quick_log_is_quick]].
  pose proof (lookup_quick_known other _ qo _ _ _ Ho1 Hs1) as Hs2.
  pose proof (lookup_quick_known other _ qo _ _ _ Ho1 Ho1) as Ho2.
  rewrite (decide_True (P := other = other)) in Ho2 by done.
  right. eexists _, _, _, _. split; [exact Hs2|]. split; [exact Ho2|].
  split; [|split; [|split; [done|split; [|split; [|done]]]]].
  - destruct (decide (other = self)) as [->|]; [|by exists qs].
    rewrite (decide_True (P := self = self)) by done. by exists qo.
  - destruct (decide (self = other)) as [->|]; [|by exists qo].
    assert (s = o) as -> by congruence. by exists qo.
  - simpl. by rewrite <- app_assoc.
  - apply Forall_app; split; apply quick_log_is_quick.
Qed.

Lemma compare_full_hash_cases self other w s o :
  heap w !! self = Some s -> heap w !! other = Some o ->
  (exists w1 s1 o1 l, compare_full_hash self other w = (Raise OSError, w1) /\
      heap w1 !! self = Some s1 /\ heap w1 !! other = Some o1 /\
      File.quick_hash s1 = File.quick_hash s /\ File.quick_hash o1 = File.quick_hash o /\
      hash_log w1 = hash_log w ++ l) \/
  (exists w2 s2 o2 l,
      heap w2 !! self = Some s2 /\ heap w2 !! other = Some o2 /\
      full_assigned s s2 /\ full_assigned o o2 /\
      disk w2 = disk w /\ hash_log w2 = hash_log w ++ l /\ Forall is_full l /\
      compare_full_hash self other w =
        (Return (bool_decide (File.full_hash s2 = File.full_hash o2)), w2)).
Proof.
  intros Hs Ho. rewrite (run_compare_full_hash _ _ _ _ _ Hs Ho).
  destruct (full_value w s) as [qs|];
    [|left; exists w, s, o, []; by rewrite app_nil_r]. cbv zeta.
  pose proof (lookup_full_known self s qs w _ _ Hs Ho) as Ho1.
  pose proof (lookup_full_known self s qs w _ _ Hs Hs) as Hs1.
  rewrite (decide_True (P := self = self)) in Hs1 by done.
  destruct (full_value _ _) as [qo|].
  2:{ left. eexists _, _, _, _. split; [done|]. split; [exact Hs1|]. split; [exact Ho1|].
      split; [done|]. split; [|done].
      destruct (decide (self = other)) as [->|]; [|done].
      assert (s = o) as -> by congruence. done. }
  pose proof (lookup_full_known other _ qo _ _ _ Ho1 Hs1) as Hs2.
  pose proof (lookup_full_known other _ qo _ _ _ Ho1 Ho1) as Ho2.
  rewrite (decide_True (P := other = other)) in Ho2 by done.
  right. eexists _, _, _, _. split; [exact Hs2|]. split; [exact Ho2|].
  split; [|split; [|split; [done|split; [|split; [|done]]]]].
  - destruct (decide (other = self)) as [->|]; [|by exists qs].
    rewrite (decide_True (P := self = self)) by done. by exists qo.
  - destruct (decide (self = other)) as [->|]; [|by exists qo].
    assert (s = o) as -> by congruence. by exists qo.
  - simpl. by rewrite <- app_assoc.
  - apply Forall_app; split; apply full_log_is_full.
Qed.

Lemma quick_assigned_fields f f' :
  quick_assigned f f' ->
  is_Some (File.quick_hash f') /\ File.size f' = File.size f /\
  File.full_hash f' = File.full_hash f /\ File.name f' = File.name f /\
  File.rel_path f' = File.rel_path f /\ File.abs_path f' = File.abs_path f.
Proof. intros [q ->]. simpl. eauto 10. Qed.

Lemma full_assigned_fields f f' :
  full_assigned f f' ->
  is_Some (File.full_hash f') /\ File.size f' = File.size f /\
  File.quick_hash f' = File.quick_hash f /\ File.name f' = File.name f /\
  File.rel_path f' = File.rel_path f /\ File.abs_path f' = File.abs_path f.
Proof. intros [q ->]. simpl. eauto 10. Qed.

(** The stages of [compare_content].  From a store that holds both
    descriptors: when the sizes differ the answer is False and the world is
    left as it was; when the sizes are equal and the call returns, both
    descriptors hold a quick fingerprint, and either these differ, the
    answer is False, only quick hashes were computed and the full
    fingerprints are as they were, or they agree, both descriptors hold a
    full fingerprint and the answer is the equality of the two. *)
Lemma compare_content_stages (w : World) (self other : FileRef) (s o : File.t) :
  heap w !! self = Some s -> heap w !! other = Some o ->
  (File.size s <> File.size o -> compare_content self other w = (Return false, w)) /\
  (File.size s = File.size o ->
   forall v w', compare_content self other w = (Return v, w') ->
     exists s' o' l,
       heap w' !! self = Some s' /\ heap w' !! other = Some o' /\
       hash_log w' = hash_log w ++ l /\
       is_Some (File.quick_hash s') /\ is_Some (File.quick_hash o') /\
       (File.quick_hash s' <> File.quick_hash o' ->
          v = false /\ Forall is_quick l /\
          File.full_hash s' = File.full_hash s /\ File.full_hash o' = File.full_hash o) /\
       (File.quick_hash s' = File.quick_hash o' ->
          is_Some (File.full_hash s') /\ is_Some (File.full_hash o') /\
          v = bool_decide (File.full_hash s' = File.full_hash o'))) /\
  (forall w', compare_content self other w = (Return true, w') ->
     exists s' o',
       heap w' !! self = Some s' /\ heap w' !! other = Some o' /\
       File.size s' = File.size o' /\
       is_Some (File.quick_hash s') /\ File.quick_hash s' = File.quick_hash o' /\
       is_Some (File.full_hash s') /\ File.full_hash s' = File.full_hash o').
Proof.
  intros Hs Ho. rewrite (run_compare_content _ _ _ _ _ Hs Ho).
  destruct (N.eqb_spec (File.size s) (File.size o)) as [Hsize|Hsize];
    [|by repeat split].
  split; [done|split].
  - (* equal sizes: the hashing stages *)
    intros _ v w' Hrun.
    destruct (compare_quick_hash_cases _ _ _ _ _ Hs Ho)
      as [(w1 & ? & E & _)|(w2 & s2 & o2 & l & Hs2 & Ho2 & As & Ao & _ & Hl & Hq & E)];
      [congruence|].
    rewrite Hrun in E.
    destruct (quick_assigned_fields _ _ As) as (Qs & _ & Fs & _).
    destruct (quick_assigned_fields _ _ Ao) as (Qo & _ & Fo & _).
    case_bool_decide as Hqq.
    + destruct (compare_full_hash_cases _ _ _ _ _ Hs2 Ho2)
        as [(w3 & ? & ? & ? & E' & _)
           |(w4 & s4 & o4 & l' & Hs4 & Ho4 & As' & Ao' & _ & Hl' & _ & E')];
        [congruence|].
      rewrite E' in E. injection E as -> ->.
      destruct (full_assigned_fields _ _ As') as (Fs' & _ & Qs' & _).
      destruct (full_assigned_fields _ _ Ao') as (Fo' & _ & Qo' & _).
      exists s4, o4, (l ++ l'). rewrite Qs', Qo'.
      repeat split; try done.
      by rewrite Hl', Hl, app_assoc.
    + injection E as -> ->. exists s2, o2, l. by repeat split.
  - (* the answer True *)
    intros w' Hrun.
    destruct (compare_quick_hash_cases _ _ _ _ _ Hs Ho)
      as [(w1 & ? & E & _)|(w2 & s2 & o2 & l & Hs2 & Ho2 & As & Ao & _ & Hl & Hq & E)];
      [congruence|].
    rewrite Hrun in E.
    destruct (quick_assigned_fields _ _ As) as (Qs & Ss & _).
    destruct (quick_assigned_fields _ _ Ao) as (Qo & So & _).
    case_bool_decide as Hqq; [|done].
    destruct (compare_full_hash_cases _ _ _ _ _ Hs2 Ho2)
      as [(w3 & ? & ? & ? & E' & _)
         |(w4 & s4 & o4 & l' & Hs4 & Ho4 & As' & Ao' & _ & Hl' & _ & E')];
      [congruence|].
    rewrite E' in E. injection E as Hv ->.
    destruct (full_assigned_fields _ _ As') as (Fs' & Ss' & Qs' & _).
    destruct (full_assigned_fields _ _ Ao') as (_ & So' & Qo' & _).
    exists s4, o4. rewrite Qs', Qo', Ss', So', Ss, So.
    repeat split; try done.
    symmetry in Hv. by apply bool_decide_eq_true in Hv.
Qed.

Lemma assign_comp_type_members p n c self other w :
  assign_comp_type CompType_members p n c self other w =
  (Return (if bool_decide (classify p n c = PATH_DUP) then None
           else Some {| fileA := self; fileB := other; comp_type := classify p n c |}), w).
Proof. by destruct p, n, c. Qed.

End file_facts.

Section classification.
Context {hashlib : Hashlib}.

Lemma quick_value_set_full w q f :
  quick_value w (File.set_full_hash q f) = quick_value w f.
Proof. done. Qed.

Lemma full_value_set_quick w q f :
  full_value w (File.set_quick_hash q f) = full_value w f.
Proof. done. Qed.

(** Between two different descriptors the answer of [compare_content] is the
    verdict on the fingerprints. *)
Lemma compare_content_verdict w self other s o :
  self <> other -> heap w !! self = Some s -> heap w !! other = Some o ->
  fst (compare_content self other w) = content_verdict w s o.
Proof.
  intros Hne Hs Ho. unfold content_verdict.
  rewrite (run_compare_content _ _ _ _ _ Hs Ho).
  destruct (_ =? _)%N; [|done].
  rewrite (run_compare_quick_hash _ _ _ _ _ Hs Ho).
  destruct (quick_value w s) as [qs|]; [|done]. cbv zeta.
  rewrite (decide_False (P := self = other)) by done.
  change (quick_value (quick_known self s qs w) o) with (quick_value w o).
  destruct (quick_value w o) as [qo|]; [|done].
  rewrite (decide_False (P := other = self)) by done. simpl File.quick_hash.
  rewrite (bool_decide_ext (Some qs = Some qo) (qs = qo)) by naive_solver.
  destruct (bool_decide (qs = qo)); [|done].
  pose proof (lookup_quick_known self s qs w _ _ Hs Ho) as Ho1.
  pose proof (lookup_quick_known self s qs w _ _ Hs Hs) as Hs1.
  rewrite (decide_True (P := self = self)) in Hs1 by done.
  rewrite (decide_False (P := self = other)) in Ho1 by done.
  pose proof (lookup_quick_known other _ qo _ _ _ Ho1 Hs1) as Hs2.
  pose proof (lookup_quick_known other _ qo _ _ _ Ho1 Ho1) as Ho2.
  rewrite (decide_True (P := other = other)) in Ho2 by done.
  rewrite (decide_False (P := other = self)) in Hs2 by done.
  rewrite (run_compare_full_hash _ _ _ _ _ Hs2 Ho2).
  change (full_value _ (File.set_quick_hash qs s)) with (full_value w s).
  destruct (full_value w s) as [fs|]; [|done]. cbv zeta.
  rewrite (decide_False (P := self = other)) by done.
  change (full_value _ (File.set_quick_hash qo o)) with (full_value w o).
  destruct (full_value w o) as [fo|]; [|done].
  rewrite (decide_False (P := other = self)) by done. simpl.
  f_equal. apply bool_decide_ext. naive_solver.
Qed.

Lemma content_verdict_sym w s o : content_verdict w s o = content_verdict w o s.
Proof.
  unfold content_verdict. rewrite (N.eqb_sym (File.size o)).
  destruct (_ =? _)%N; [|done].
  destruct (quick_value w s) as [qs|], (quick_value w o) as [qo|]; try done.
  rewrite (bool_decide_ext (qo = qs) (qs = qo)) by naive_solver.
  destruct (bool_decide _); [|done].
  destruct (full_value w s) as [fs|], (full_value w o) as [fo|]; try done.
  f_equal. apply bool_decide_ext. naive_solver.
Qed.

Lemma content_verdict_raises w s o e : content_verdict w s o = Raise e -> e = OSError.
Proof.
  unfold content_verdict. repeat case_match; congruence.
Qed.

(** [compare_to] on two different descriptors: the traits, the test of the
    content, and the member of the taxonomy that the loop finds. *)
Lemma run_compare_to w self other s o :
  self <> other -> heap w !! self = Some s -> heap w !! other = Some o ->
  compare_to self other w =
    match compare_content self other w with
    | (Return same_content, w') =>
        let category :=
          classify (bool_decide (parent (File.rel_path s) = parent (File.rel_path o)))
                   (bool_decide (File.name s = File.name o)) same_content in
        (Return (if bool_decide (category = PATH_DUP) then None
                 else Some {| fileA := self; fileB := other; comp_type := category |}), w')
    | (Raise e, w') => (Raise e, w')
    end.
Proof.
  intros Hne Hs Ho. unfold compare_to. rewrite bool_decide_eq_false_2 by done.
  rewrite run_bind, (run_deref _ _ _ Hs), run_bind, (run_deref _ _ _ Ho), run_bind.
  destruct (compare_content self other w) as [[c|e] w']; [|done].
  apply assign_comp_type_members.
Qed.

(** C1. [compare_to] on two different descriptors of the store runs the
    content test; when that test answers, exactly one member of the taxonomy
    has the computed triple as its value, and [compare_to] returns the
    outcome of that category, or None when the category is PATH_DUP; when
    the test fails on an unreadable file, that OSError is the only
    exception.  The raise that follows the loop is never reached, for no
    triple of traits at all. *)
Theorem compare_to_one_category (w : World) (self other : FileRef) (s o : File.t) :
  self <> other -> heap w !! self = Some s -> heap w !! other = Some o ->
  let same_path := bool_decide (parent (File.rel_path s) = parent (File.rel_path o)) in
  let same_name := bool_decide (File.name s = File.name o) in
  match compare_content self other w with
  | (Return same_content, w') =>
      exists category,
        category ∈ CompType_members /\
        (forall t, value t = {| path := same_path; name := same_name;
                                content := same_content |} <-> t = category) /\
        compare_to self other w =
          (Return (if bool_decide (category = PATH_DUP) then None
                   else Some {| fileA := self; fileB := other; comp_type := category |}), w')
  | (Raise e, w') => e = OSError /\ compare_to self other w = (Raise OSError, w')
  end /\
  fst (compare_to self other w) <> Raise ValueError_no_comp_type /\
  (forall p n c a b w0,
     fst (assign_comp_type CompType_members p n c a b w0) <> Raise ValueError_no_comp_type).
Proof.
  intros Hne Hs Ho same_path same_name.
  pose proof (run_compare_to _ _ _ _ _ Hne Hs Ho) as Hrun.
  pose proof (compare_content_verdict _ _ _ _ _ Hne Hs Ho) as Hv.
  destruct (compare_content self other w) as [[c|e] w'] eqn:E; simpl in Hv.
  - split; [|split].
    + exists (classify same_path same_name c). split; [|split; [|done]].
      * unfold CompType_members. destruct (classify _ _ _); set_solver.
      * intros t. apply classify_unique.
    + by rewrite Hrun.
    + intros. by rewrite assign_comp_type_members.
  - symmetry in Hv. apply content_verdict_raises in Hv as ->.
    split; [done|split].
    + by rewrite Hrun.
    + intros. by rewrite assign_comp_type_members.
Qed.

Lemma compare_to_category w self other s o :
  self <> other -> heap w !! self = Some s -> heap w !! other = Some o ->
  category_of (fst (compare_to self other w)) =
    verdict_category s o (content_verdict w s o).
Proof.
  intros Hne Hs Ho. rewrite (run_compare_to _ _ _ _ _ Hne Hs Ho).
  rewrite <- (compare_content_verdict _ _ _ _ _ Hne Hs Ho).
  destruct (compare_content self other w) as [[c|e] w']; [|done]. simpl.
  by destruct (bool_decide (_ = PATH_DUP)).
Qed.

Lemma verdict_category_sym s o v : verdict_category s o v = verdict_category o s v.
Proof.
  destruct v as [c|e]; [|done]. unfold verdict_category.
  rewrite (bool_decide_ext (parent (File.rel_path o) = parent (File.rel_path s))
                           (parent (File.rel_path s) = parent (File.rel_path o)))
    by (split; congruence).
  by rewrite (bool_decide_ext (File.name o = File.name s) (File.name s = File.name o))
    by (split; congruence).
Qed.

(** *** The fingerprints that the staged test leaves in the descriptors *)

Lemma quick_value_kept w r g q' f q :
  quick_value w f = Some q ->
  quick_value (quick_known r g q' w) (File.set_quick_hash q f) = Some q.
Proof.
  unfold quick_value. simpl. destruct q as [|a q]; simpl; [|done].
  destruct (truthy (File.quick_hash f)) eqn:Ht; [|done].
  intros Hq. by rewrite Hq in Ht.
Qed.

Lemma full_value_kept w r g q' f q :
  full_value w f = Some q ->
  full_value (full_known r g q' w) (File.set_full_hash q f) = Some q.
Proof.
  unfold full_value. simpl. destruct q as [|a q]; simpl; [|done].
  destruct (truthy (File.full_hash f)) eqn:Ht; [|done].
  intros Hq. by rewrite Hq in Ht.
Qed.

(** What the full stage leaves: the full fingerprint of each descriptor is
    the one it held, or the sha256 of its file. *)
Lemma compare_full_hash_stored w self other s o v w' :
  heap w !! self = Some s -> heap w !! other = Some o ->
  compare_full_hash self other w = (Return v, w') ->
  exists s' o' fs fo,
    heap w' !! self = Some s' /\ heap w' !! other = Some o' /\
    full_value w s = Some fs /\ full_value w o = Some fo /\
    File.full_hash s' = Some fs /\ File.full_hash o' = Some fo /\
    File.quick_hash s' = File.quick_hash s /\ File.quick_hash o' = File.quick_hash o /\
    v = bool_decide (fs = fo).
Proof.
  intros Hs Ho. rewrite (run_compare_full_hash _ _ _ _ _ Hs Ho).
  destruct (full_value w s) as [fs|] eqn:Hfs; [|done]. cbv zeta.
  pose proof (lookup_full_known self s fs w _ _ Hs Ho) as Ho1.
  pose proof (lookup_full_known self s fs w _ _ Hs Hs) as Hs1.
  rewrite (decide_True (P := self = self)) in Hs1 by done.
  destruct (decide (self = other)) as [<-|Hne].
  - assert (o = s) as -> by congruence.
    rewrite (full_value_kept _ _ _ _ _ _ Hfs).
    rewrite (decide_True (P := self = self)) by done.
    pose proof (lookup_full_known self _ fs _ _ _ Ho1 Ho1) as Hs2.
    rewrite (decide_True (P := self = self)) in Hs2 by done.
    intros [= <- <-]. eexists _, _, fs, fs. split; [exact Hs2|]. split; [exact Hs2|].
    rewrite Hfs. repeat (split; [done|]).
    by rewrite !bool_decide_eq_true_2.
  - change (full_value (full_known self s fs w) o) with (full_value w o).
    destruct (full_value w o) as [fo|] eqn:Hfo; [|done].
    rewrite (decide_False (P := other = self)) by done.
    pose proof (lookup_full_known other _ fo _ _ _ Ho1 Hs1) as Hs2.
    pose proof (lookup_full_known other _ fo _ _ _ Ho1 Ho1) as Ho2.
    rewrite (decide_True (P := other = other)) in Ho2 by done.
    rewrite (decide_False (P := other = self)) in Hs2 by done.
    intros [= <- <-]. eexists _, _, fs, fo. split; [exact Hs2|]. split; [exact Ho2|].
    repeat (split; [done|]). simpl.
    apply bool_decide_ext. naive_solver.
Qed.

(** What the quick stage leaves before it goes on or answers: the quick
    fingerprint of each descriptor is the one it held, or the md5 of the
    first 4096 bytes of its file. *)
Lemma compare_quick_hash_stored w self other s o v w' :
  heap w !! self = Some s -> heap w !! other = Some o ->
  compare_quick_hash self other w = (Return v, w') ->
  exists w2 s2 o2 qs qo,
    heap w2 !! self = Some s2 /\ heap w2 !! other = Some o2 /\
    quick_value w s = Some qs /\ quick_value w o = Some qo /\
    File.quick_hash s2 = Some qs /\ File.quick_hash o2 = Some qo /\
    full_value w2 s2 = full_value w s /\ full_value w2 o2 = full_value w o /\
    File.full_hash s2 = File.full_hash s /\ File.full_hash o2 = File.full_hash o /\
    (if bool_decide (qs = qo) then compare_full_hash self other w2 = (Return v, w')
     else v = false /\ w' = w2).
Proof.
  intros Hs Ho. rewrite (run_compare_quick_hash _ _ _ _ _ Hs Ho).
  destruct (quick_value w s) as [qs|] eqn:Hqs; [|done]. cbv zeta.
  pose proof (lookup_quick_known self s qs w _ _ Hs Ho) as Ho1.
  pose proof (lookup_quick_known self s qs w _ _ Hs Hs) as Hs1.
  rewrite (decide_True (P := self = self)) in Hs1 by done.
  destruct (decide (self = other)) as [<-|Hne].
  - assert (o = s) as -> by congruence.
    rewrite (quick_value_kept _ _ _ _ _ _ Hqs).
    rewrite (decide_True (P := self = self)) by done.
    pose proof (lookup_quick_known self _ qs _ _ _ Ho1 Ho1) as Hs2.
    rewrite (decide_True (P := self = self)) in Hs2 by done.
    rewrite !bool_decide_eq_true_2 by done. intros Hrun.
    eexists _, _, _, qs, qs. split; [exact Hs2|]. split; [exact Hs2|].
    rewrite Hqs, bool_decide_eq_true_2 by done. by repeat (split; [done|]).
  - change (quick_value (quick_known self s qs w) o) with (quick_value w o).
    destruct (quick_value w o) as [qo|] eqn:Hqo; [|done].
    rewrite (decide_False (P := other = self)) by done.
    pose proof (lookup_quick_known other _ qo _ _ _ Ho1 Hs1) as Hs2.
    pose proof (lookup_quick_known other _ qo _ _ _ Ho1 Ho1) as Ho2.
    rewrite (decide_True (P := other = other)) in Ho2 by done.
    rewrite (decide_False (P := other = self)) in Hs2 by done.
    simpl File.quick_hash.
    rewrite (bool_decide_ext (Some qs = Some qo) (qs = qo)) by naive_solver.
    intros Hrun.
    eexists _, _, _, qs, qo. split; [exact Hs2|]. split; [exact Ho2|].
    repeat (split; [done|]).
    destruct (bool_decide (qs = qo)); [done|]. by injection Hrun as <- <-.
Qed.

Lemma quick_value_None w f : quick_value w f = None -> disk w (File.abs_path f) = None.
Proof.
  unfold quick_value. destruct (truthy _) eqn:Ht.
  - destruct (truthy_Some _ Ht) as [q ->]. done.
  - by destruct (disk _ _).
Qed.

Lemma full_value_None w f : full_value w f = None -> disk w (File.abs_path f) = None.
Proof.
  unfold full_value. destruct (truthy _) eqn:Ht.
  - destruct (truthy_Some _ Ht) as [q ->]. done.
  - by destruct (disk _ _).
Qed.

Lemma compare_full_hash_raises w self other s o e w' :
  heap w !! self = Some s -> heap w !! other = Some o ->
  compare_full_hash self other w = (Raise e, w') ->
  e = OSError /\ (full_value w s = None \/ full_value w o = None).
Proof.
  intros Hs Ho. rewrite (run_compare_full_hash _ _ _ _ _ Hs Ho).
  destruct (full_value w s) as [fs|] eqn:Hfs; [|intros [= <- <-]; by split; [|left]].
  cbv zeta. destruct (decide (self = other)) as [<-|Hne].
  - by rewrite (full_value_kept _ _ _ _ _ _ Hfs).
  - change (full_value (full_known self s fs w) o) with (full_value w o).
    destruct (full_value w o) as [fo|]; [done|]. intros [= <- <-]. by split; [|right].
Qed.

Lemma compare_quick_hash_raises w self other s o e w' :
  heap w !! self = Some s -> heap w !! other = Some o ->
  compare_quick_hash self other w = (Raise e, w') ->
  e = OSError /\
  (quick_value w s = None \/ quick_value w o = None \/
   full_value w s = None \/ full_value w o = None).
Proof.
  intros Hs Ho. rewrite (run_compare_quick_hash _ _ _ _ _ Hs Ho).
  destruct (quick_value w s) as [qs|] eqn:Hqs; [|intros [= <- <-]; by split; [|left]].
  cbv zeta.
  pose proof (lookup_quick_known self s qs w _ _ Hs Ho) as Ho1.
  pose proof (lookup_quick_known self s qs w _ _ Hs Hs) as Hs1.
  rewrite (decide_True (P := self = self)) in Hs1 by done.
  destruct (decide (self = other)) as [<-|Hne].
  - assert (o = s) as -> by congruence.
    rewrite (quick_value_kept _ _ _ _ _ _ Hqs).
    rewrite (decide_True (P := self = self)) by done.
    pose proof (lookup_quick_known self _ qs _ _ _ Ho1 Ho1) as Hs2.
    rewrite (decide_True (P := self = self)) in Hs2 by done.
    rewrite bool_decide_eq_true_2 by done. intros Hrun.
    apply (compare_full_hash_raises _ _ _ _ _ _ _ Hs2 Hs2) in Hrun as [-> Hnone].
    split; [done|]. right. right. destruct Hnone as [Hnone|Hnone]; by left.
  - change (quick_value (quick_known self s qs w) o) with (quick_value w o).
    destruct (quick_value w o) as [qo|] eqn:Hqo;
      [|intros [= <- <-]; by split; [|right; left]].
    rewrite (decide_False (P := other = self)) by done.
    pose proof (lookup_quick_known other _ qo _ _ _ Ho1 Hs1) as Hs2.
    pose proof (lookup_quick_known other _ qo _ _ _ Ho1 Ho1) as Ho2.
    rewrite (decide_True (P := other = other)) in Ho2 by done.
    rewrite (decide_False (P := other = self)) in Hs2 by done.
    destruct (bool_decide _); [|done]. intros Hrun.
    apply (compare_full_hash_raises _ _ _ _ _ _ _ Hs2 Ho2) in Hrun as [-> Hnone].
    split; [done|]. right. right. exact Hnone.
Qed.

(** [compare_content] fails with OSError only, and only when one of the two
    files cannot be read. *)
Lemma compare_content_raises w self other s o e w' :
  heap w !! self = Some s -> heap w !! other = Some o ->
  compare_content self other w = (Raise e, w') ->
  e = OSError /\
  (disk w (File.abs_path s) = None \/ disk w (File.abs_path o) = None).
Proof.
  intros Hs Ho. rewrite (run_compare_content _ _ _ _ _ Hs Ho).
  destruct (_ =? _)%N; [|done]. intros Hrun.
  apply (compare_quick_hash_raises _ _ _ _ _ _ _ Hs Ho) in Hrun
    as [-> [Hn|[Hn|[Hn|Hn]]]]; (split; [done|]);
    eauto using quick_value_None, full_value_None.
Qed.

(** The fingerprints that [compare_content] leaves, when the sizes are the
    same and it answers. *)
Lemma compare_content_stored w self other s o v w' :
  heap w !! self = Some s -> heap w !! other = Some o ->
  File.size s = File.size o ->
  compare_content self other w = (Return v, w') ->
  exists s' o' qs qo,
    heap w' !! self = Some s' /\ heap w' !! other = Some o' /\
    quick_value w s = Some qs /\ quick_value w o = Some qo /\
    File.quick_hash s' = Some qs /\ File.quick_hash o' = Some qo /\
    (qs <> qo -> v = false) /\
    (qs = qo -> exists fs fo,
       full_value w s = Some fs /\ full_value w o = Some fo /\
       File.full_hash s' = Some fs /\ File.full_hash o' = Some fo /\
       v = bool_decide (fs = fo)).
Proof.
  intros Hs Ho Hsz. rewrite (run_compare_content _ _ _ _ _ Hs Ho).
  apply N.eqb_eq in Hsz. rewrite Hsz. intros Hrun.
  apply (compare_quick_hash_stored _ _ _ _ _ _ _ Hs Ho) in Hrun
    as (w2 & s2 & o2 & qs & qo & Hs2 & Ho2 & Hqs & Hqo & Qs & Qo & Fs & Fo & _ & _ & Hrun).
  case_bool_decide as Hq.
  - apply (compare_full_hash_stored _ _ _ _ _ _ _ Hs2 Ho2) in Hrun
      as (s' & o' & fs & fo & Hs' & Ho' & Hfs & Hfo & Fs' & Fo' & Qs' & Qo' & ->).
    exists s', o', qs, qo. do 6 (split; [congruence|]).
    split; [done|]. intros _. exists fs, fo. split; [congruence|]. by split; [congruence|].
  - destruct Hrun as [-> ->]. exists s2, o2, qs, qo. by repeat (split; [done|]).
Qed.

(** C2. [compare_content] is a staged, short-circuit equality test on the
    sizes, the md5 of the first 4096 bytes and the sha256 of the whole
    contents.  From a store that holds both descriptors:
    - when the sizes differ the answer is False and the world is left as it
      was: nothing is read and nothing is hashed;
    - when the sizes are equal and the call returns, both descriptors hold
      their quick fingerprint, which is the one they had or else the md5 of
      the first 4096 bytes of their file; either the two differ, the answer
      is False, only quick hashes were computed and the full fingerprints
      are as they were, or they agree, both descriptors hold their full
      fingerprint, which is the one they had or else the sha256 of the
      bytes of their file, and the answer is the equality of the two;
    - so an answer True comes with equal sizes, equal quick fingerprints
      and equal full fingerprints, all of them present and all of them
      what the descriptors held or the digests of the files;
    - on two descriptors without fingerprints, of two files that can be
      read, the call answers, and it answers True exactly when the sizes,
      the md5 of the first 4096 bytes and the sha256 of the contents are
      the same;
    - the call fails with OSError only, and only when one of the two files
      cannot be read. *)
Theorem compare_content_staged (w : World) (self other : FileRef) (s o : File.t) :
  heap w !! self = Some s -> heap w !! other = Some o ->
  (File.size s <> File.size o -> compare_content self other w = (Return false, w)) /\
  (File.size s = File.size o ->
   forall v w', compare_content self other w = (Return v, w') ->
     exists s' o' l,
       heap w' !! self = Some s' /\ heap w' !! other = Some o' /\
       hash_log w' = hash_log w ++ l /\
       is_Some (File.quick_hash s') /\ is_Some (File.quick_hash o') /\
       File.quick_hash s' = quick_value w s /\ File.quick_hash o' = quick_value w o /\
       (File.quick_hash s' <> File.quick_hash o' ->
          v = false /\ Forall is_quick l /\
          File.full_hash s' = File.full_hash s /\ File.full_hash o' = File.full_hash o) /\
       (File.quick_hash s' = File.quick_hash o' ->
          is_Some (File.full_hash s') /\ is_Some (File.full_hash o') /\
          File.full_hash s' = full_value w s /\ File.full_hash o' = full_value w o /\
          v = bool_decide (File.full_hash s' = File.full_hash o'))) /\
  (forall w', compare_content self other w = (Return true, w') ->
     exists s' o',
       heap w' !! self = Some s' /\ heap w' !! other = Some o' /\
       File.size s' = File.size o' /\
       is_Some (File.quick_hash s') /\ File.quick_hash s' = File.quick_hash o' /\
       is_Some (File.full_hash s') /\ File.full_hash s' = File.full_hash o' /\
       File.quick_hash s' = quick_value w s /\ File.quick_hash o' = quick_value w o /\
       File.full_hash s' = full_value w s /\ File.full_hash o' = full_value w o) /\
  (unhashed s -> unhashed o ->
   forall cs co,
     disk w (File.abs_path s) = Some cs -> disk w (File.abs_path o) = Some co ->
     exists w',
       compare_content self other w =
         (Return (bool_decide
                    (File.size s = File.size o /\
                     md5_hexdigest (take quick_chunk_size cs) =
                       md5_hexdigest (take quick_chunk_size co) /\
                     sha256_hexdigest cs = sha256_hexdigest co)), w')) /\
  (forall e w', compare_content self other w = (Raise e, w') ->
     e = OSError /\
     (disk w (File.abs_path s) = None \/ disk w (File.abs_path o) = None)).
Proof.
  intros Hs Ho.
  destruct (compare_content_stages w self other s o Hs Ho) as (Hdiff & Hstages & Htrue).
  split; [done|]. split; [|split; [|split]].
  - intros Hsz v w' Hrun.
    destruct (Hstages Hsz v w' Hrun)
      as (s' & o' & l & Hs' & Ho' & Hl & Qs & Qo & Hne & Heq).
    destruct (compare_content_stored _ _ _ _ _ _ _ Hs Ho Hsz Hrun)
      as (s1 & o1 & qs & qo & Hs1 & Ho1 & Hqs & Hqo & Qs1 & Qo1 & _ & Hfull).
    assert (s1 = s') as -> by congruence. assert (o1 = o') as -> by congruence.
    exists s', o', l. do 7 (split; [done || congruence|]). split; [done|].
    intros Hq. destruct (Heq Hq) as (Fs & Fo & Hv).
    destruct Hfull as (fs & fo & Hfs & Hfo & Fs1 & Fo1 & _); [congruence|].
    do 4 (split; [done || congruence|]). done.
  - intros w' Hrun.
    destruct (Htrue w' Hrun) as (s' & o' & Hs' & Ho' & Hsz' & Qs & Qeq & Fs & Feq).
    destruct (decide (File.size s = File.size o)) as [Hsz|Hsz];
      [|by rewrite (Hdiff Hsz) in Hrun].
    destruct (compare_content_stored _ _ _ _ _ _ _ Hs Ho Hsz Hrun)
      as (s1 & o1 & qs & qo & Hs1 & Ho1 & Hqs & Hqo & Qs1 & Qo1 & _ & Hfull).
    assert (s1 = s') as -> by congruence. assert (o1 = o') as -> by congruence.
    destruct Hfull as (fs & fo & Hfs & Hfo & Fs1 & Fo1 & _); [congruence|].
    exists s', o'. do 10 (split; [done || congruence|]). congruence.
  - intros [Hqs Hfs] [Hqo Hfo] cs co Hcs Hco.
    destruct (compare_content self other w) as [[v|e] w'] eqn:Hrun.
    2:{ destruct (compare_content_raises _ _ _ _ _ _ _ Hs Ho Hrun) as [_ [?|?]]; congruence. }
    exists w'. do 2 f_equal.
    destruct (decide (File.size s = File.size o)) as [Hsz|Hsz].
    2:{ pose proof (Hdiff Hsz) as Hfalse. injection Hfalse as -> _.
        symmetry. apply bool_decide_eq_false_2. by intros [? _]. }
    destruct (compare_content_stored _ _ _ _ _ _ _ Hs Ho Hsz Hrun)
      as (s1 & o1 & qs & qo & _ & _ & Hvs & Hvo & _ & _ & Hne & Hfull).
    unfold quick_value in Hvs, Hvo. rewrite Hqs, Hcs in Hvs. rewrite Hqo, Hco in Hvo.
    simpl in Hvs, Hvo. injection Hvs as <-. injection Hvo as <-.
    destruct (decide (md5_hexdigest (take quick_chunk_size cs) =
                      md5_hexdigest (take quick_chunk_size co))) as [Hq|Hq].
    + destruct (Hfull Hq) as (fs & fo & Hvfs & Hvfo & _ & _ & ->).
      unfold full_value in Hvfs, Hvfo. rewrite Hfs, Hcs in Hvfs. rewrite Hfo, Hco in Hvfo.
      simpl in Hvfs, Hvfo. injection Hvfs as <-. injection Hvfo as <-.
      apply bool_decide_ext. split; [by intros ?|by intros (_ & _ & ?)].
    + rewrite (Hne Hq). symmetry. apply bool_decide_eq_false_2. by intros (_ & ? & _).
  - intros e w'. by apply compare_content_raises.
Qed.

End classification.

(** ** Properties that every step keeps *)

Lemma keeps_bind {S A B} (P : S -> Prop) (m : M S A) (k : A -> M S B) :
  keeps P m -> (forall a, keeps P (k a)) -> keeps P (m ≫= k).
Proof.
  intros Hm Hk s Hs. rewrite run_bind. specialize (Hm s Hs).
  destruct (m s) as [[a|e] s']; simpl in *; [by apply Hk|done].
Qed.

Lemma keeps_ret {S A} (P : S -> Prop) (a : A) : keeps P (mret a : M S A).
Proof. by intros s. Qed.

Lemma keeps_raise {S A} (P : S -> Prop) e : keeps P (raise e : M S A).
Proof. by intros s. Qed.

Lemma keeps_gets {S A} (P : S -> Prop) (f : S -> A) : keeps P (gets f).
Proof. by intros s. Qed.

Lemma keeps_deref (P : World -> Prop) r : keeps P (deref r).
Proof. intros w Hw. unfold deref. by destruct (heap w !! r). Qed.

Lemma keeps_for_each {S A} (P : S -> Prop) (l : list A) (body : A -> M S unit) :
  (forall x, keeps P (body x)) -> keeps P (for_each l body).
Proof.
  intros Hbody. induction l as [|x l IH]; simpl.
  - apply keeps_ret.
  - apply keeps_bind; [apply Hbody|by intros].
Qed.

Ltac keeps_step :=
  lazymatch goal with
  | |- keeps _ (mbind _ _) => apply keeps_bind; [|intros]
  | |- keeps _ (ret _) => apply keeps_ret
  | |- keeps _ (mret _) => apply keeps_ret
  | |- keeps _ (raise _) => apply keeps_raise
  | |- keeps _ (gets _) => apply keeps_gets
  | |- keeps _ (deref _) => apply keeps_deref
  | |- keeps _ (if ?b then _ else _) => destruct b
  | |- keeps _ (match ?x with _ => _ end) => destruct x
  | H : forall r, keeps ?P (?m r) |- keeps ?P (?m _) => apply H
  end.

Section memo.
Context {hashlib : Hashlib}.

(** What is kept by the two steps that fill in a fingerprint is kept by the
    whole of file.py. *)
Lemma compare_content_keeps (P : World -> Prop) self other :
  (forall r, keeps P (ensure_quick_hash r)) ->
  (forall r, keeps P (ensure_full_hash r)) ->
  keeps P (compare_content self other).
Proof.
  intros Hq Hf. unfold compare_content, compare_quick_hash, compare_full_hash.
  repeat keeps_step.
Qed.

Lemma assign_comp_type_keeps (P : World -> Prop) members p n c self other :
  keeps P (assign_comp_type members p n c self other).
Proof.
  induction members as [|m members IH]; simpl; cbv zeta;
    repeat first [assumption | keeps_step].
Qed.

Lemma compare_to_keeps (P : World -> Prop) self other :
  (forall r, keeps P (ensure_quick_hash r)) ->
  (forall r, keeps P (ensure_full_hash r)) ->
  keeps P (compare_to self other).
Proof.
  intros Hq Hf. unfold compare_to.
  repeat first [by apply compare_content_keeps | apply assign_comp_type_keeps | keeps_step].
Qed.

Lemma run_steps_keeps (P : World -> Prop) steps :
  (forall r, keeps P (ensure_quick_hash r)) ->
  (forall r, keeps P (ensure_full_hash r)) ->
  (forall d w, P w -> P (set_disk d w)) ->
  forall w, P w -> P (run_steps steps w).
Proof.
  intros Hq Hf Hd. induction steps as [|[a b|d] steps IH]; intros w Hw; simpl.
  - done.
  - apply IH. by apply compare_content_keeps.
  - apply IH. by apply Hd.
Qed.

(** *** A cached fingerprint is not computed again *)

Lemma quick_value_cached w f :
  truthy (File.quick_hash f) = true -> quick_value w f = File.quick_hash f.
Proof. unfold quick_value. by intros ->. Qed.

Lemma full_value_cached w f :
  truthy (File.full_hash f) = true -> full_value w f = File.full_hash f.
Proof. unfold full_value. by intros ->. Qed.

Lemma ensure_quick_hash_cached_kept r0 f0 r :
  keeps (cached_kept r0 f0) (ensure_quick_hash r).
Proof.
  intros w (f' & Hr0 & Hq & Hf). unfold cached_kept.
  destruct (heap w !! r) as [f|] eqn:Hr;
    [|unfold ensure_quick_hash; rewrite run_bind; unfold deref; rewrite Hr; eauto].
  rewrite (run_ensure_quick_hash _ _ _ Hr).
  destruct (quick_value w f) as [q|] eqn:Hv; [|eauto]. simpl.
  destruct (decide (r = r0)) as [->|Hne].
  - rewrite list_lookup_insert_eq by by eapply lookup_lt_Some.
    assert (f = f') as -> by congruence.
    eexists; split; [done|]. simpl. split; [|done].
    intros Ht. rewrite <- (Hq Ht), <- Hv. apply quick_value_cached. by rewrite (Hq Ht).
  - rewrite list_lookup_insert_ne by done. eauto.
Qed.

Lemma ensure_full_hash_cached_kept r0 f0 r :
  keeps (cached_kept r0 f0) (ensure_full_hash r).
Proof.
  intros w (f' & Hr0 & Hq & Hf). unfold cached_kept.
  destruct (heap w !! r) as [f|] eqn:Hr;
    [|unfold ensure_full_hash; rewrite run_bind; unfold deref; rewrite Hr; eauto].
  rewrite (run_ensure_full_hash _ _ _ Hr).
  destruct (full_value w f) as [q|] eqn:Hv; [|eauto]. simpl.
  destruct (decide (r = r0)) as [->|Hne].
  - rewrite list_lookup_insert_eq by by eapply lookup_lt_Some.
    assert (f = f') as -> by congruence.
    eexists; split; [done|]. simpl. split; [done|].
    intros Ht. rewrite <- (Hf Ht), <- Hv. apply full_value_cached. by rewrite (Hf Ht).
  - rewrite list_lookup_insert_ne by done. eauto.
Qed.

End memo.

Section memoized.
Context {hashlib : Hashlib}.

Lemma times_app e l1 l2 : times e (l1 ++ l2) = times e l1 + times e l2.
Proof. unfold times. by rewrite filter_app, length_app. Qed.

Lemma times_singleton e e' : times e [e'] = if decide (e = e') then 1 else 0.
Proof.
  unfold times. rewrite filter_cons, filter_nil. by destruct (decide (e = e')).
Qed.

Lemma truthy_nonempty q : q <> "" -> truthy (Some q) = true.
Proof. by destruct q. Qed.

Lemma deref_dangling {A} r w (k : File.t -> M World A) :
  heap w !! r = None -> (deref r ≫= k) w = (Raise ReferenceError, w).
Proof. intros Hr. rewrite run_bind. unfold deref. by rewrite Hr. Qed.

(** With digests that are never empty, asking for a fingerprint keeps the
    record and the store in agreement. *)
Lemma ensure_quick_hash_computed_once r :
  hex_digests hashlib -> keeps computed_once (ensure_quick_hash r).
Proof.
  intros [Hmd5 _] w Hinv.
  destruct (heap w !! r) as [f|] eqn:Hr;
    [|unfold ensure_quick_hash; by rewrite deref_dangling].
  rewrite (run_ensure_quick_hash _ _ _ Hr). unfold quick_value.
  destruct (truthy (File.quick_hash f)) eqn:Ht.
  - destruct (truthy_Some _ Ht) as [q Hq]. rewrite Hq. simpl.
    unfold quick_known. rewrite Ht, app_nil_r.
    rewrite (set_quick_hash_same _ _ Hq), (list_insert_id _ _ _ Hr).
    by rewrite world_eta.
  - destruct (disk w (File.abs_path f)) as [c|]; [|done]. simpl.
    intros r'. destruct (Hinv r') as [Hquick Hfull].
    unfold quick_known. rewrite Ht. simpl. rewrite !times_app, !times_singleton.
    destruct (decide (r = r')) as [<-|Hne].
    + rewrite list_lookup_insert_eq by by eapply lookup_lt_Some.
      rewrite Hr, Ht in Hquick. rewrite Hr in Hfull.
      rewrite decide_True by done. rewrite decide_False by done.
      cbn [File.quick_hash File.full_hash File.set_quick_hash].
      rewrite truthy_nonempty by apply Hmd5. split; lia.
    + rewrite list_lookup_insert_ne by done.
      rewrite decide_False by congruence. rewrite decide_False by done.
      split; lia.
Qed.

Lemma ensure_full_hash_computed_once r :
  hex_digests hashlib -> keeps computed_once (ensure_full_hash r).
Proof.
  intros [_ Hsha] w Hinv.
  destruct (heap w !! r) as [f|] eqn:Hr;
    [|unfold ensure_full_hash; by rewrite deref_dangling].
  rewrite (run_ensure_full_hash _ _ _ Hr). unfold full_value.
  destruct (truthy (File.full_hash f)) eqn:Ht.
  - destruct (truthy_Some _ Ht) as [q Hq]. rewrite Hq. simpl.
    unfold full_known. rewrite Ht, app_nil_r.
    rewrite (set_full_hash_same _ _ Hq), (list_insert_id _ _ _ Hr).
    by rewrite world_eta.
  - destruct (disk w (File.abs_path f)) as [c|]; [|done]. simpl.
    intros r'. destruct (Hinv r') as [Hquick Hfull].
    unfold full_known. rewrite Ht. simpl. rewrite !times_app, !times_singleton.
    destruct (decide (r = r')) as [<-|Hne].
    + rewrite list_lookup_insert_eq by by eapply lookup_lt_Some.
      rewrite Hr, Ht in Hfull. rewrite Hr in Hquick.
      rewrite decide_False by done. rewrite decide_True by done.
      cbn [File.quick_hash File.full_hash File.set_full_hash].
      rewrite truthy_nonempty by apply Hsha. split; lia.
    + rewrite list_lookup_insert_ne by done.
      rewrite decide_False by done. rewrite decide_False by congruence.
      split; lia.
Qed.

(** [File(...)] makes a descriptor without fingerprints. *)
Lemma File_init_fresh {os : Os} base_path abs_path :
  keeps fresh (File_init base_path abs_path).
Proof.
  intros w [Hlog Hnone]. unfold File_init.
  destruct (relative_to _ _) as [rel|]; [|done].
  rewrite run_bind. unfold stat_st_size. destruct (st_size w abs_path) as [size|]; [|done].
  simpl. split; [done|]. intros r f [Hr|[_ Hr]]%lookup_app_Some; [by eapply Hnone|].
  apply list_lookup_singleton_Some in Hr as [_ <-]. done.
Qed.

Lemma fresh_computed_once w : fresh w -> computed_once w.
Proof.
  intros [Hlog Hnone] r. rewrite Hlog. unfold times. simpl.
  destruct (heap w !! r) as [f|] eqn:Hr; [|done].
  destruct (Hnone _ _ Hr) as [-> ->]. done.
Qed.

Lemma computed_once_at_most w r :
  computed_once w ->
  times (QuickHashed r) (hash_log w) <= 1 /\ times (FullHashed r) (hash_log w) <= 1.
Proof.
  intros Hinv. destruct (Hinv r) as [-> ->].
  destruct (heap w !! r) as [f|]; [|lia].
  destruct (truthy _), (truthy _); lia.
Qed.

(** A full hash is computed in the full stage only, which the two
    descriptors enter with equal quick fingerprints. *)
Lemma compare_content_full_hashed self other w s o res w' :
  heap w !! self = Some s -> heap w !! other = Some o ->
  compare_content self other w = (res, w') ->
  exists l, hash_log w' = hash_log w ++ l /\
    (Exists is_full l ->
     exists s' o', heap w' !! self = Some s' /\ heap w' !! other = Some o' /\
       is_Some (File.quick_hash s') /\ File.quick_hash s' = File.quick_hash o').
Proof.
  intros Hs Ho. rewrite (run_compare_content _ _ _ _ _ Hs Ho).
  assert (forall l, Forall is_quick l -> ~ Exists is_full l) as Hnot.
  { intros l Hl Hex. apply Exists_exists in Hex as (e & He & Hfull).
    rewrite Forall_forall in Hl. specialize (Hl _ He). by destruct e. }
  destruct (_ =? _)%N.
  2:{ intros [= <- <-]. exists []. rewrite app_nil_r. split; [done|].
      by intros ?%Exists_nil. }
  destruct (compare_quick_hash_cases _ _ _ _ _ Hs Ho)
    as [(w1 & l & -> & Hl & Hq)
       |(w2 & s2 & o2 & l & Hs2 & Ho2 & As & Ao & _ & Hl & Hq & ->)].
  { intros [= <- <-]. exists l. split; [done|]. by intros ?%Hnot. }
  destruct (quick_assigned_fields _ _ As) as (Qs & _).
  case_bool_decide as Hqq.
  2:{ intros [= <- <-]. exists l. split; [done|]. by intros ?%Hnot. }
  destruct (compare_full_hash_cases _ _ _ _ _ Hs2 Ho2)
    as [(w3 & s3 & o3 & l' & -> & Hs3 & Ho3 & Qs3 & Qo3 & Hl')
       |(w4 & s4 & o4 & l' & Hs4 & Ho4 & As' & Ao' & _ & Hl' & _ & ->)].
  - intros [= <- <-]. exists (l ++ l'). split; [by rewrite Hl', Hl, app_assoc|].
    intros _. exists s3, o3. rewrite Qs3, Qo3. done.
  - intros [= <- <-]. exists (l ++ l'). split; [by rewrite Hl', Hl, app_assoc|].
    destruct (full_assigned_fields _ _ As') as (_ & _ & Qs' & _).
    destruct (full_assigned_fields _ _ Ao') as (_ & _ & Qo' & _).
    intros _. exists s4, o4. rewrite Qs', Qo'. done.
Qed.

(** *** Asking for a fingerprint changes no answer *)

Lemma same_traits_refl w r f : heap w !! r = Some f -> same_traits w r f w.
Proof. intros Hr. by exists f. Qed.

Lemma quick_value_known w f q :
  quick_value w f = Some q ->
  quick_value w (File.set_quick_hash q f) = Some q.
Proof.
  unfold quick_value. simpl. destruct q as [|c q]; [|done]. simpl.
  destruct (truthy (File.quick_hash f)) eqn:Ht; [|done].
  intros Hq. rewrite Hq in Ht. done.
Qed.

Lemma full_value_known w f q :
  full_value w f = Some q ->
  full_value w (File.set_full_hash q f) = Some q.
Proof.
  unfold full_value. simpl. destruct q as [|c q]; [|done]. simpl.
  destruct (truthy (File.full_hash f)) eqn:Ht; [|done].
  intros Hq. rewrite Hq in Ht. done.
Qed.

Lemma ensure_quick_hash_same_traits w0 r0 f0 r :
  keeps (same_traits w0 r0 f0) (ensure_quick_hash r).
Proof.
  intros w (f' & Hr0 & Hname & Hrel & Hsize & Hq & Hf).
  destruct (heap w !! r) as [f|] eqn:Hr;
    [|unfold ensure_quick_hash; rewrite deref_dangling by done; by exists f'].
  rewrite (run_ensure_quick_hash _ _ _ Hr).
  destruct (quick_value w f) as [q|] eqn:Hv; [|by exists f'].
  unfold same_traits. simpl.
  destruct (decide (r = r0)) as [->|Hne].
  - assert (f = f') as -> by congruence.
    exists (File.set_quick_hash q f').
    rewrite list_lookup_insert_eq by by eapply lookup_lt_Some.
    split; [done|]. split; [done|]. split; [done|]. split; [done|]. split; [|done].
    rewrite <- Hq, Hv. by apply (quick_value_known w).
  - exists f'. rewrite list_lookup_insert_ne by done. by repeat split.
Qed.

Lemma ensure_full_hash_same_traits w0 r0 f0 r :
  keeps (same_traits w0 r0 f0) (ensure_full_hash r).
Proof.
  intros w (f' & Hr0 & Hname & Hrel & Hsize & Hq & Hf).
  destruct (heap w !! r) as [f|] eqn:Hr;
    [|unfold ensure_full_hash; rewrite deref_dangling by done; by exists f'].
  rewrite (run_ensure_full_hash _ _ _ Hr).
  destruct (full_value w f) as [q|] eqn:Hv; [|by exists f'].
  unfold same_traits. simpl.
  destruct (decide (r = r0)) as [->|Hne].
  - assert (f = f') as -> by congruence.
    exists (File.set_full_hash q f').
    rewrite list_lookup_insert_eq by by eapply lookup_lt_Some.
    split; [done|]. split; [done|]. split; [done|]. split; [done|]. split; [done|].
    rewrite <- Hf, Hv. by apply (full_value_known w).
  - exists f'. rewrite list_lookup_insert_ne by done. by repeat split.
Qed.

Lemma same_traits_verdict w w' a b fa fb fa' fb' :
  heap w' !! a = Some fa' -> heap w' !! b = Some fb' ->
  same_traits w a fa w' -> same_traits w b fb w' ->
  verdict_category fa' fb' (content_verdict w' fa' fb') =
  verdict_category fa fb (content_verdict w fa fb).
Proof.
  intros Ha Hb (fa2 & Ha2 & Na & Ra & Sa & Qa & Fa) (fb2 & Hb2 & Nb & Rb & Sb & Qb & Fb).
  assert (fa2 = fa') as -> by congruence. assert (fb2 = fb') as -> by congruence.
  unfold content_verdict, verdict_category. by rewrite Na, Nb, Ra, Rb, Sa, Sb, Qa, Qb, Fa, Fb.
Qed.

(** C9. Classification is symmetric: on two different descriptors of the
    store, the staged test of the content answers the same in both
    directions (as do the comparisons of the names and of the parent
    directories), and so does [compare_to]: the same category, or None twice,
    or the same exception twice.  This holds for the two calls made from the
    same state, and for the second call made in the state the first one
    leaves. *)
Theorem compare_to_symmetric (w : World) (a b : FileRef) (fa fb : File.t) :
  a <> b -> heap w !! a = Some fa -> heap w !! b = Some fb ->
  fst (compare_content a b w) = fst (compare_content b a w) /\
  category_of (fst (compare_to a b w)) = category_of (fst (compare_to b a w)) /\
  category_of (fst (compare_to b a (snd (compare_to a b w)))) =
    category_of (fst (compare_to a b w)).
Proof.
  intros Hne Ha Hb. split; [|split].
  - rewrite (compare_content_verdict _ _ _ _ _ Hne Ha Hb).
    rewrite (compare_content_verdict _ _ _ _ _ (not_eq_sym Hne) Hb Ha).
    apply content_verdict_sym.
  - rewrite (compare_to_category _ _ _ _ _ Hne Ha Hb).
    rewrite (compare_to_category _ _ _ _ _ (not_eq_sym Hne) Hb Ha).
    by rewrite verdict_category_sym, content_verdict_sym.
  - assert (same_traits w a fa (snd (compare_to a b w))) as Ha'.
    { apply compare_to_keeps; [intros; apply ensure_quick_hash_same_traits
                              |intros; apply ensure_full_hash_same_traits
                              |by apply same_traits_refl]. }
    assert (same_traits w b fb (snd (compare_to a b w))) as Hb'.
    { apply compare_to_keeps; [intros; apply ensure_quick_hash_same_traits
                              |intros; apply ensure_full_hash_same_traits
                              |by apply same_traits_refl]. }
    destruct Ha' as (fa' & Ha' & Ta). destruct Hb' as (fb' & Hb' & Tb).
    rewrite (compare_to_category _ _ _ _ _ (not_eq_sym Hne) Hb' Ha').
    rewrite (compare_to_category _ _ _ _ _ Hne Ha Hb).
    rewrite (same_traits_verdict w _ b a fb fa fb' fa') by (done || by eexists).
    by rewrite verdict_category_sym, content_verdict_sym.
Qed.

End memoized.

(** ** comparison_manager.py *)

Lemma returns_bind {S A B} (Q : B -> Prop) (m : M S A) (k : A -> M S B) :
  (forall a, returns Q (k a)) -> returns Q (m ≫= k).
Proof.
  intros Hk s b s'. rewrite run_bind.
  destruct (m s) as [[a|e] s1]; [apply Hk|done].
Qed.

Lemma returns_bind_with {S A B} (R : A -> Prop) (Q : B -> Prop) (m : M S A) (k : A -> M S B) :
  returns R m -> (forall a, R a -> returns Q (k a)) -> returns Q (m ≫= k).
Proof.
  intros Hm Hk s b s'. rewrite run_bind.
  destruct (m s) as [[a|e] s1] eqn:E; [|done]. apply Hk. by eapply Hm.
Qed.

Lemma returns_ret {S A} (Q : A -> Prop) (a : A) : Q a -> returns Q (mret a : M S A).
Proof. intros Ha s a' s' [= <- <-]. done. Qed.

Lemma returns_raise {S A} (Q : A -> Prop) e : returns Q (raise e : M S A).
Proof. by intros s a s'. Qed.

Lemma keeps_bind_with {S A B} (P : S -> Prop) (R : A -> Prop) (m : M S A) (k : A -> M S B) :
  keeps P m -> returns R m -> (forall a, R a -> keeps P (k a)) -> keeps P (m ≫= k).
Proof.
  intros Hm Hr Hk s Hs. rewrite run_bind. specialize (Hm s Hs).
  destruct (m s) as [[a|e] s'] eqn:E; simpl in *; [|done].
  apply Hk; [by eapply Hr|done].
Qed.

Lemma keeps_modify {S} (P : S -> Prop) (f : S -> S) :
  (forall s, P s -> P (f s)) -> keeps P (modify f).
Proof. intros Hf s Hs. by apply Hf. Qed.

Section manager_facts.
Context {hashlib : Hashlib} {CI : Type} {index_ops : ComparisonIndex CI} {cli : Cli}.

(** A step of file.py changes the world and nothing else. *)
Lemma run_in_world {A} (m : M World A) (s : Sys CI) :
  in_world m s =
    ((m (world s)).1,
     {| world := (m (world s)).2; comparisons := comparisons s;
        comparison_cache := comparison_cache s; cli_log := cli_log s |}).
Proof. unfold in_world. by destruct (m (world s)). Qed.

Lemma keeps_in_world {A} (P : Sys CI -> Prop) (m : M World A) :
  (forall s w, P s -> P {| world := w; comparisons := comparisons s;
                           comparison_cache := comparison_cache s; cli_log := cli_log s |}) ->
  keeps P (in_world m).
Proof. intros HP s Hs. rewrite run_in_world. simpl. by apply HP. Qed.

Lemma keeps_in_world_lift {A} (Q : World -> Prop) (m : M World A) :
  keeps Q m -> keeps (fun s : Sys CI => Q (world s)) (in_world m).
Proof. intros Hm s Hs. rewrite run_in_world. simpl. by apply Hm. Qed.

Lemma returns_in_world {A} (Q : A -> Prop) (m : M World A) :
  returns Q m -> returns Q (in_world m : M (Sys CI) A).
Proof.
  intros Hm s a s'. rewrite run_in_world. intros [= Ha _].
  destruct (m (world s)) as [r w] eqn:E. simpl in Ha. subst. by eapply Hm.
Qed.

(** *** What [compare_to] can answer *)

Lemma compare_to_returns self other :
  returns (fun r => forall c, r = Some c ->
             fileA c = self /\ fileB c = other /\ comp_type c <> PATH_DUP)
          (compare_to self other).
Proof.
  unfold compare_to. case_bool_decide; [apply returns_raise|].
  repeat (apply returns_bind; intros).
  intros w r w'. rewrite assign_comp_type_members. intros [= <- _] c.
  case_bool_decide; [done|]. by intros [= <-].
Qed.

Lemma compare_group_loop_returns file group group0 acc :
  group ⊆ group0 ->
  Forall (outcome_of file group0) acc ->
  returns (Forall (outcome_of file group0))
          (compare_group_loop file group acc : M (Sys CI) _).
Proof.
  revert acc. induction group as [|other group IH]; intros acc Hsub Hacc; simpl.
  - by apply returns_ret.
  - assert (group ⊆ group0) by set_solver.
    repeat (apply returns_bind; intros).
    case_bool_decide as Hne; simpl; [|by apply IH].
    destruct (negb _); [|by apply IH].
    eapply returns_bind_with; [apply returns_in_world, compare_to_returns|].
    intros [c|] Hc; [|by apply IH].
    apply IH; [done|]. apply Forall_app; split; [done|].
    destruct (Hc c eq_refl) as (HA & HB & HT).
    apply Forall_singleton. unfold outcome_of. rewrite HB.
    split; [done|]. split; [apply Hsub; left|]. split; [congruence|done].
Qed.

Lemma compare_file_against_group_returns file group :
  returns (Forall (outcome_of file group))
          (_compare_file_against_group file group : M (Sys CI) _).
Proof. by apply compare_group_loop_returns. Qed.

End manager_facts.

Section buckets.
Context {hashlib : Hashlib} {CI : Type} {index_ops : ComparisonIndex CI} {cli : Cli}.

(** *** Which bucket a method touches *)

Lemma on_index_other (type t : CompType) (method : CI -> CI) (s : Sys CI) :
  t <> type -> comparisons (on_index type method s) t = comparisons s t.
Proof. intros Hne. simpl. by rewrite bool_decide_eq_false_2. Qed.

Lemma on_index_same (type : CompType) (method : CI -> CI) (s : Sys CI) :
  comparisons (on_index type method s) type = method (comparisons s type).
Proof. simpl. by rewrite bool_decide_eq_true_2. Qed.

Lemma compare_group_loop_keeps (P : Sys CI -> Prop) file group acc :
  (forall s w, P s -> P {| world := w; comparisons := comparisons s;
                           comparison_cache := comparison_cache s; cli_log := cli_log s |}) ->
  keeps P (compare_group_loop file group acc).
Proof.
  intros HP. revert acc. induction group as [|other group IH]; intros acc; simpl.
  - apply keeps_ret.
  - unfold cache_get. repeat first [apply IH | by apply keeps_in_world | keeps_step].
Qed.

Lemma add_comparisons_loop_keeps_bucket t b cs found :
  Forall (fun c => comp_type c <> t) cs ->
  keeps (fun s : Sys CI => comparisons s t = b) (add_comparisons_loop cs found).
Proof.
  intros Hcs. revert found.
  induction Hcs as [|c cs Hc Hcs IH]; intros found; simpl.
  - apply keeps_ret.
  - apply keeps_bind; [by apply keeps_modify|intros _].
    case_bool_decide.
    + apply keeps_bind; [|intros _; apply IH].
      apply keeps_modify. intros s <-. by apply on_index_other.
    + apply IH.
Qed.

Lemma outcomes_not_path_dup file group cs :
  Forall (outcome_of file group) cs -> Forall (fun c => comp_type c <> PATH_DUP) cs.
Proof. intros H. eapply Forall_impl; [exact H|]. by intros c (_ & _ & _ & ?). Qed.

Lemma add_dir_index_file_keeps_path_dup b d file :
  keeps (fun s : Sys CI => comparisons s PATH_DUP = b) (add_dir_index_file d file).
Proof.
  unfold add_dir_index_file.
  apply keeps_bind; [by apply keeps_in_world|intros f].
  eapply keeps_bind_with;
    [by apply compare_group_loop_keeps|apply compare_file_against_group_returns|].
  intros names Hnames.
  apply keeps_bind;
    [eapply add_comparisons_loop_keeps_bucket, outcomes_not_path_dup, Hnames|].
  intros found_name.
  eapply keeps_bind_with;
    [by apply compare_group_loop_keeps|apply compare_file_against_group_returns|].
  intros sizes Hsizes.
  apply keeps_bind;
    [eapply add_comparisons_loop_keeps_bucket, outcomes_not_path_dup, Hsizes|].
  intros found_size.
  destruct (_ && _); [|apply keeps_ret].
  apply keeps_modify. intros s <-. by apply on_index_other.
Qed.

(** The entries of a dict, as its iterator finds them. *)
Lemma first_entry_None entries pos :
  first_entry entries pos = None <-> omap id entries = [].
Proof.
  revert pos. induction entries as [|[g|] entries IH]; intros pos; simpl; [done|done|].
  apply IH.
Qed.

Lemma first_entry_Some entries pos i g :
  first_entry entries pos = Some (i, g) ->
  pos <= i /\ entries !! (i - pos) = Some (Some g) /\
  forall j, j < i - pos -> entries !! j = Some None.
Proof.
  revert pos. induction entries as [|[g'|] entries IH]; intros pos; simpl; [done|..].
  - intros [= <- <-]. rewrite Nat.sub_diag. split; [lia|]. split; [done|]. lia.
  - intros (Hle & Hi & Hholes)%IH. split; [lia|].
    replace (i - pos) with (S (i - S pos)) by lia. split; [done|].
    intros [|j] Hj; [done|]. simpl. apply Hholes. lia.
Qed.

Lemma next_entry_None entries pos :
  omap id entries = [] -> next_entry entries pos = None.
Proof.
  intros Hnone. apply first_entry_None.
  rewrite <- (take_drop pos entries), omap_app in Hnone.
  by apply app_eq_nil in Hnone as [_ ?].
Qed.

Lemma next_entry_Some entries pos i g :
  next_entry entries pos = Some (i, g) ->
  pos <= i /\ entries !! i = Some (Some g) /\
  forall j, pos <= j < i -> entries !! j = Some None.
Proof.
  intros (Hle & Hi & Hholes)%first_entry_Some. split; [done|].
  rewrite lookup_drop in Hi. replace (pos + (i - pos)) with i in Hi by lia.
  split; [done|]. intros j Hj.
  specialize (Hholes (j - pos) ltac:(lia)). rewrite lookup_drop in Hholes.
  by replace (pos + (j - pos)) with j in Hholes by lia.
Qed.

Lemma next_entry_item entries pos i g :
  next_entry entries pos = Some (i, g) -> g ∈ omap id entries.
Proof.
  intros (_ & Hi & _)%next_entry_Some. apply list_elem_of_omap.
  exists (Some g). split; [by eapply list_elem_of_lookup_2|done].
Qed.

Lemma iter_items_keeps {A} (P : Sys CI -> Prop) len pos used type
    (body : A -> list FileRef -> M (Sys CI) A) acc :
  (forall acc group, keeps P (body acc group)) ->
  keeps P (iter_items len pos used type body acc).
Proof.
  intros Hbody. revert pos acc.
  induction len as [|len IH]; intros pos acc; simpl;
    repeat first [apply IH | apply Hbody | keeps_step].
Qed.

Lemma for_items_keeps {A} (P : Sys CI -> Prop) type
    (body : A -> list FileRef -> M (Sys CI) A) acc :
  (forall acc group, keeps P (body acc group)) ->
  keeps P (for_items type body acc).
Proof.
  intros Hbody. unfold for_items.
  apply keeps_bind; [apply keeps_gets|intros]. by apply iter_items_keeps.
Qed.

(** Resolving one category leaves the buckets of the others alone. *)
Lemma resolve_matches_keeps_bucket t b :
  t <> MATCH -> keeps (fun s : Sys CI => comparisons s t = b) resolve_matches.
Proof.
  intros Hne. apply for_items_keeps. intros _ [|first group].
  - apply keeps_raise.
  - apply keeps_modify. intros s <-. by apply on_index_other.
Qed.

Lemma resolve_dups_keeps_bucket type t b :
  t <> type -> keeps (fun s : Sys CI => comparisons s t = b) (resolve_dups type).
Proof.
  intros Hne. unfold resolve_dups.
  apply keeps_bind; [|intros to_remove].
  - apply for_items_keeps. intros acc group. unfold resolve_dup_group.
    apply keeps_bind; [by apply keeps_modify|intros _].
    apply keeps_bind; [destruct (negb _); [by apply keeps_modify|apply keeps_ret]|intros _].
    apply keeps_bind; [by intros s|intros user_choice].
    destruct (_ =? _)%nat.
    + destruct group; [apply keeps_raise|apply keeps_ret].
    + apply keeps_bind; [|intros; apply keeps_ret].
      apply keeps_modify. intros s <-. by apply on_index_other.
  - apply keeps_for_each. intros file.
    apply keeps_modify. intros s <-. by apply on_index_other.
Qed.

(** A bucket without groups is not resolved: nothing is shown, nothing is
    asked and nothing changes. *)
Lemma resolve_dups_no_group type (s : Sys CI) :
  index_items (comparisons s type) = [] -> resolve_dups type s = (Return (), s).
Proof.
  intros Hitems. unfold resolve_dups, for_items.
  rewrite run_bind, run_bind. unfold gets at 1. cbv beta iota. rewrite Hitems.
  cbn [length iter_items]. rewrite run_bind. unfold gets. cbv beta iota.
  rewrite Hitems. rewrite (next_entry_None _ _ Hitems). reflexivity.
Qed.

End buckets.

Lemma for_each_skip {S A} (P : S -> Prop) (l1 l2 : list A) (x : A)
    (body : A -> M S unit) (s : S) :
  P s ->
  (forall y, keeps P (body y)) ->
  (forall s', P s' -> body x s' = (Return (), s')) ->
  for_each (l1 ++ x :: l2) body s = for_each (l1 ++ l2) body s.
Proof.
  intros Hs Hkeeps Hskip. revert s Hs.
  induction l1 as [|y l1 IH]; intros s Hs; simpl.
  - by rewrite run_bind, (Hskip s Hs).
  - rewrite !run_bind. pose proof (Hkeeps y s Hs) as Hy.
    destruct (body y s) as [[[]|e] s']; [by apply IH|done].
Qed.

Section path_dup.
Context {hashlib : Hashlib} {CI : Type} {index_ops : ComparisonIndex CI} {cli : Cli}.

Lemma add_dir_index_keeps_path_dup d : keeps path_dup_untouched (add_dir_index d).
Proof. apply keeps_for_each. intros file. apply add_dir_index_file_keeps_path_dup. Qed.

Lemma resolve_dups_path_dup (s : Sys CI) :
  (forall t, index_items (ComparisonIndex_init t) = []) ->
  path_dup_untouched s -> resolve_dups PATH_DUP s = (Return (), s).
Proof. intros Hnew Hs. apply resolve_dups_no_group. by rewrite Hs. Qed.

Lemma resolve_type_keeps_path_dup type :
  (forall t, index_items (ComparisonIndex_init t) = []) ->
  keeps path_dup_untouched (resolve_type type).
Proof.
  intros Hnew. unfold resolve_type.
  case_bool_decide; [by apply resolve_matches_keeps_bucket|].
  case_bool_decide; [apply keeps_ret|].
  destruct (decide (type = PATH_DUP)) as [->|Hne].
  - intros s Hs. by rewrite resolve_dups_path_dup.
  - by apply resolve_dups_keeps_bucket.
Qed.

Lemma call_keeps_path_dup c :
  (forall t, index_items (ComparisonIndex_init t) = []) ->
  keeps path_dup_untouched (call c).
Proof.
  intros Hnew. destruct c as [d| | |type]; simpl.
  - apply add_dir_index_keeps_path_dup.
  - apply keeps_for_each. intros type. by apply resolve_type_keeps_path_dup.
  - by apply resolve_matches_keeps_bucket.
  - destruct (decide (type = PATH_DUP)) as [->|Hne].
    + intros s Hs. by rewrite resolve_dups_path_dup.
    + by apply resolve_dups_keeps_bucket.
Qed.

(** C10. The bucket of PATH_DUP is empty at every point of every run: given
    that a new bucket has no group, after any sequence of calls of the
    manager's methods on a new manager the bucket of PATH_DUP is the one the
    constructor made, without a group; [compare_to] never answers with an
    outcome of that category; the pass of [resolve_dups] over PATH_DUP shows
    nothing, asks nothing and changes nothing, so that [resolve_all] does
    what it would do with PATH_DUP left out of its loop. *)
Theorem path_dup_bucket_stays_empty :
  (forall t, index_items (ComparisonIndex_init t) = []) ->
  forall (calls : list manager_call) (w : World),
    let s := after_calls calls (ComparisonManager_init w) in
    comparisons s PATH_DUP = ComparisonIndex_init PATH_DUP /\
    index_items (comparisons s PATH_DUP) = [] /\
    (forall self other w0 c w1,
       compare_to self other w0 = (Return (Some c), w1) -> comp_type c <> PATH_DUP) /\
    resolve_type PATH_DUP = resolve_dups PATH_DUP /\
    resolve_dups PATH_DUP s = (Return (), s) /\
    resolve_all s =
      for_each [MATCH; PATH_NAME_DUP; CONTENT_NAME_DUP; CONTENT_PATH_DUP;
                NAME_DUP; CONTENT_DUP; UNIQUE] resolve_type s.
Proof.
  intros Hnew calls w s.
  assert (path_dup_untouched s) as Hs.
  { subst s. generalize (ComparisonManager_init (CI := CI) w), (eq_refl : path_dup_untouched (ComparisonManager_init (CI := CI) w)).
    induction calls as [|c calls IH]; intros s0 Hs0; simpl; [done|].
    apply IH. by apply call_keeps_path_dup. }
  split; [done|]. split; [by rewrite Hs|]. split; [|split; [done|split]].
  - intros self other w0 c w1 E.
    by destruct (compare_to_returns _ _ _ _ _ E c eq_refl) as (_ & _ & ?).
  - by apply resolve_dups_path_dup.
  - unfold resolve_all, CompType_members.
    apply (for_each_skip path_dup_untouched
             [MATCH; PATH_NAME_DUP; CONTENT_NAME_DUP; CONTENT_PATH_DUP; NAME_DUP; CONTENT_DUP]
             [UNIQUE] PATH_DUP); [done| |].
    + intros type. by apply resolve_type_keeps_path_dup.
    + intros s' Hs'. unfold resolve_type. simpl. by apply resolve_dups_path_dup.
Qed.

End path_dup.

(** ** Resolution, seen from the buckets that record *)

Section recorded.
Context {hashlib : Hashlib} {cli : Cli}.

Lemma groups_on_index type t method (s : Sys Recorder) :
  (forall b, groups (method b) = groups b) ->
  groups (comparisons (on_index type method s) t) = groups (comparisons s t).
Proof. intros Hm. simpl. case_bool_decide; [apply Hm|done]. Qed.

Lemma iter_items_unfold {CI} `{ComparisonIndex CI} {A} len pos used type
    (body : A -> list FileRef -> M (Sys CI) A) acc s :
  iter_items len pos used type body acc s =
    if bool_decide (length (index_items (comparisons s type)) ≠ used)
    then (Raise RuntimeError_changed_size, s)
    else match next_entry (index_entries (comparisons s type)) pos with
         | None => (Return acc, s)
         | Some (i, group) =>
             match len with
             | 0 => (Raise RuntimeError_keys_changed, s)
             | S len' => (body acc group ≫= iter_items len' (S i) used type body) s
             end
         end.
Proof.
  destruct len; simpl; rewrite run_bind; unfold gets; cbv beta iota;
    (destruct (bool_decide _); [done|]);
    by destruct (next_entry _ _) as [[i group]|].
Qed.

(** The dict of a bucket that records has no hole: its entries are its
    groups, in order. *)
Lemma recorder_items (b : Recorder) : index_items b = groups b.
Proof.
  unfold index_items. simpl. induction (groups b) as [|g gs IH]; [done|].
  simpl. by f_equal.
Qed.

Lemma first_entry_whole (gs : list (list FileRef)) pos :
  first_entry (Some <$> gs) pos = (fun g => (pos, g)) <$> head gs.
Proof. by destruct gs. Qed.

Lemma recorder_next_entry (gs : list (list FileRef)) pos :
  next_entry (Some <$> gs) pos = (fun g => (pos, g)) <$> gs !! pos.
Proof.
  unfold next_entry. rewrite <- fmap_drop, first_entry_whole.
  by rewrite head_lookup, lookup_drop, Nat.add_0_r.
Qed.

(** On a bucket whose groups stay what they are, the loop over the items
    of the dict is a loop over these groups. *)
Lemma iter_items_fixed {A} type (body : A -> list FileRef -> M (Sys Recorder) A) gs :
  (forall acc g, keeps (fun s => groups (comparisons s type) = gs) (body acc g)) ->
  forall suf pre acc s,
    gs = pre ++ suf -> groups (comparisons s type) = gs ->
    iter_items (length suf) (length pre) (length gs) type body acc s =
    fold_items suf body acc s.
Proof.
  intros Hbody. induction suf as [|g suf IH]; intros pre acc s Hgs Hs.
  - rewrite iter_items_unfold, recorder_items.
    rewrite Hs, bool_decide_eq_false_2 by (intros ?; done).
    change (index_entries ?b) with (Some <$> groups b).
    rewrite recorder_next_entry, Hs.
    rewrite Hgs, app_nil_r. by rewrite lookup_ge_None_2.
  - rewrite iter_items_unfold, recorder_items.
    rewrite Hs, bool_decide_eq_false_2 by (intros ?; done).
    change (index_entries ?b) with (Some <$> groups b).
    rewrite recorder_next_entry, Hs.
    rewrite Hgs at 1. rewrite list_lookup_middle by done.
    cbn [fold_items length fmap option_fmap option_map]. rewrite !run_bind.
    pose proof (Hbody acc g s Hs) as Hkeep.
    destruct (body acc g s) as [[acc'|e] s']; [|done]. simpl in Hkeep.
    replace (S (length pre)) with (length (pre ++ [g])) by (rewrite length_app; simpl; lia).
    apply IH; [by rewrite <- app_assoc|done].
Qed.

Lemma for_items_fixed {A} type (body : A -> list FileRef -> M (Sys Recorder) A) acc s :
  (forall acc g, keeps (fun s' => groups (comparisons s' type) = groups (comparisons s type))
                       (body acc g)) ->
  for_items type body acc s = fold_items (groups (comparisons s type)) body acc s.
Proof.
  intros Hbody. unfold for_items. rewrite run_bind. unfold gets. cbv beta iota.
  rewrite recorder_items.
  by apply (iter_items_fixed type body _ Hbody _ []).
Qed.

(** *** The pass over MATCH *)



(** *** The pass over a category of duplicates *)

Lemma resolve_dup_group_recorded type to_remove first rest (s : Sys Recorder) :
  exists s' new,
    resolve_dup_group type to_remove (first :: rest) s =
      (Return (to_remove ++ omap dropped new), s') /\
    cli_log s' = cli_log s ++ new /\
    omap prompted new = [first :: rest] /\
    requests (comparisons s' type) = requests (comparisons s type) ++ omap kept new /\
    groups (comparisons s' type) = groups (comparisons s type) /\
    (forall t, t <> type -> comparisons s' t = comparisons s t).
Proof.
  unfold resolve_dup_group. rewrite run_bind. unfold modify at 1. cbv beta iota.
  set (s1 := add_cli_event (display_files type (first :: rest)) s).
  rewrite run_bind.
  set (shown := if negb (content (value type))
                then [prompt_build_diff (first :: rest)] else []).
  set (s2 := if negb (content (value type))
             then add_cli_event (prompt_build_diff (first :: rest)) s1 else s1).
  assert ((if negb (content (value type))
           then modify (add_cli_event (prompt_build_diff (first :: rest)))
           else ret ()) s1 = (Return (), s2)) as ->.
  { subst s2. by destruct (negb _). }
  assert (cli_log s2 = cli_log s ++ display_files type (first :: rest) :: shown) as Hlog2.
  { subst s2 shown. destruct (negb _); simpl; by rewrite <- ?app_assoc. }
  assert (comparisons s2 = comparisons s) as Hcmp2.
  { subst s2. by destruct (negb _). }
  assert (omap prompted shown = [] /\ omap kept shown = [] /\ omap dropped shown = [])
    as (Hp & Hk & Hd).
  { subst shown. by destruct (negb _). }
  rewrite run_bind. unfold ask_keep_options at 1. cbv beta iota zeta.
  set (answer := keep_options (cli_log s2) (first :: rest)).
  set (s3 := add_cli_event (prompt_keep_options (first :: rest) answer) s2).
  destruct answer as [|a more]; cbn [length Nat.eqb].
  - exists s3, ([display_files type (first :: rest)] ++ shown
                ++ [prompt_keep_options (first :: rest) []]).
    rewrite !omap_app, Hp, Hk, Hd. simpl.
    rewrite Hlog2, Hcmp2, app_nil_r. rewrite <- app_assoc. by repeat split.
  - rewrite run_bind. unfold modify at 1. cbv beta iota.
    exists (on_index type (set_comparisons (KeepFiles (a :: more))) s3),
      ([display_files type (first :: rest)] ++ shown
       ++ [prompt_keep_options (first :: rest) (a :: more)]).
    rewrite !omap_app, Hp, Hk, Hd. simpl omap.
    rewrite app_nil_r. split; [done|]. split; [|split; [done|split; [|split]]].
    + simpl. rewrite Hlog2. by rewrite <- app_assoc.
    + rewrite on_index_same. simpl. by rewrite Hcmp2.
    + rewrite on_index_same. simpl. by rewrite Hcmp2.
    + intros t Ht. rewrite on_index_other by done. simpl. by rewrite Hcmp2.
Qed.

Lemma dups_loop type gs :
  Forall (fun g => g <> []) gs ->
  forall to_remove (s : Sys Recorder),
  exists s' new,
    fold_items gs (resolve_dup_group type) to_remove s =
      (Return (to_remove ++ omap dropped new), s') /\
    cli_log s' = cli_log s ++ new /\
    omap prompted new = gs /\
    requests (comparisons s' type) = requests (comparisons s type) ++ omap kept new /\
    groups (comparisons s' type) = groups (comparisons s type) /\
    (forall t, t <> type -> comparisons s' t = comparisons s t).
Proof.
  induction 1 as [|g gs Hg Hgs IH]; intros to_remove s.
  - exists s, []. simpl. rewrite !app_nil_r. by repeat split.
  - destruct g as [|first rest]; [done|].
    cbn [fold_items]. rewrite run_bind.
    destruct (resolve_dup_group_recorded type to_remove first rest s)
      as (s1 & new1 & -> & Hcli1 & Hp1 & Hreq1 & Hgr1 & Hother1).
    destruct (IH (to_remove ++ omap dropped new1) s1)
      as (s2 & new2 & -> & Hcli2 & Hp2 & Hreq2 & Hgr2 & Hother2).
    exists s2, (new1 ++ new2). rewrite !omap_app, Hp1, Hp2.
    split; [by rewrite app_assoc|]. split; [by rewrite Hcli2, Hcli1, app_assoc|].
    split; [done|]. split; [by rewrite Hreq2, Hreq1, app_assoc|].
    split; [by rewrite Hgr2|].
    intros t Ht. by rewrite Hother2, Hother1.
Qed.

Lemma removals_loop type to_remove (s : Sys Recorder) :
  exists s',
    for_each to_remove (fun file => modify (on_index type (remove_comparisons file))) s =
      (Return (), s') /\
    cli_log s' = cli_log s /\
    requests (comparisons s' type) =
      requests (comparisons s type) ++ map RemoveComparisons to_remove /\
    (forall t, t <> type -> comparisons s' t = comparisons s t).
Proof.
  revert s. induction to_remove as [|file to_remove IH]; intros s.
  - exists s. simpl. rewrite app_nil_r. by repeat split.
  - cbn [for_each]. rewrite run_bind. unfold modify at 1. cbv beta iota.
    destruct (IH (on_index type (remove_comparisons file) s))
      as (s' & -> & Hcli & Hreq & Hother).
    exists s'. split; [done|]. split; [done|]. split.
    + rewrite Hreq, on_index_same. simpl. by rewrite <- app_assoc.
    + intros t Ht. rewrite (Hother t Ht). by apply on_index_other.
Qed.

Lemma removals_requests b l :
  requests b = l -> removals b =
    omap (fun r => match r with RemoveComparisons f => Some f | _ => None end) l.
Proof. by intros <-. Qed.

Lemma omap_removal_kept new :
  omap (fun r => match r with RemoveComparisons f => Some f | _ => None end)
       (omap kept new) = [].
Proof.
  induction new as [|e new IH]; [done|].
  destruct e as [| |g [|a l]]; simpl; try done.
Qed.

Lemma omap_removal_map l :
  omap (fun r => match r with RemoveComparisons f => Some f | _ => None end)
       (map RemoveComparisons l) = l.
Proof. induction l as [|f l IH]; [done|]. simpl. by f_equal. Qed.

(** The pass of [resolve_dups], seen from a bucket that records what it is
    asked and whose groups are not empty: every group is shown and prompted
    for, in order; then come the requests to keep what the user chose, and
    after them the requests to remove the first member of each group the
    user kept nothing of. *)
Lemma resolve_dups_recorded (type : CompType) (s : Sys Recorder) :
  Forall (fun g => g <> []) (groups (comparisons s type)) ->
  exists s' new,
    resolve_dups type s = (Return (), s') /\
    cli_log s' = cli_log s ++ new /\
    omap prompted new = groups (comparisons s type) /\
    requests (comparisons s' type) =
      requests (comparisons s type) ++ omap kept new
        ++ map RemoveComparisons (omap dropped new) /\
    removals (comparisons s' type) = removals (comparisons s type) ++ omap dropped new /\
    (forall first rest,
       prompt_keep_options (first :: rest) [] ∈ new ->
       first ∈ removals (comparisons s' type)).
Proof.
  intros Hgs. unfold resolve_dups. rewrite run_bind, for_items_fixed.
  2:{ intros acc g. unfold resolve_dup_group.
      apply keeps_bind; [by apply keeps_modify|intros _].
      apply keeps_bind; [destruct (negb _); [by apply keeps_modify|apply keeps_ret]|intros _].
      apply keeps_bind; [by intros s0|intros user_choice].
      destruct (_ =? _)%nat; [destruct g; [apply keeps_raise|apply keeps_ret]|].
      apply keeps_bind; [|intros; apply keeps_ret].
      apply keeps_modify. intros s0 <-. by apply groups_on_index. }
  destruct (dups_loop type _ Hgs [] s)
    as (s1 & new & -> & Hcli1 & Hp & Hreq1 & _ & _).
  destruct (removals_loop type ([] ++ omap dropped new) s1)
    as (s2 & -> & Hcli2 & Hreq2 & _).
  rewrite app_nil_l in Hreq2.
  assert (requests (comparisons s2 type) =
          requests (comparisons s type) ++ omap kept new
            ++ map RemoveComparisons (omap dropped new)) as Hreq.
  { by rewrite Hreq2, Hreq1, app_assoc. }
  assert (removals (comparisons s2 type) =
          removals (comparisons s type) ++ omap dropped new) as Hrem.
  { rewrite (removals_requests _ _ Hreq), !omap_app.
    by rewrite omap_removal_kept, omap_removal_map. }
  exists s2, new. split; [done|]. split; [by rewrite Hcli2|].
  split; [done|]. split; [done|]. split; [done|].
  intros first rest Hin. rewrite Hrem. apply elem_of_app. right.
  apply list_elem_of_omap. by exists (prompt_keep_options (first :: rest) []).
Qed.

End recorded.

(** *** The two passes, whatever the buckets are *)

Section passes.
Context {CI : Type} {index_ops : ComparisonIndex CI} {cli : Cli}.


(** What one group does: it adds to the dialogue, and the bucket is told the
    selection when there is one. *)
Lemma resolve_dup_group_run type to_remove g (s s' : Sys CI) acc :
  resolve_dup_group type to_remove g s = (Return acc, s') ->
  exists new,
    cli_log s' = cli_log s ++ new /\
    omap prompted new = [g] /\
    acc = to_remove ++ omap dropped new /\
    comparisons s' type =
      foldl (fun b k => set_comparisons k b) (comparisons s type)
            (omap kept_selection new) /\
    (forall t, t <> type -> comparisons s' t = comparisons s t).
Proof.
  unfold resolve_dup_group. rewrite run_bind. unfold modify at 1. cbv beta iota.
  set (s1 := add_cli_event (display_files type g) s).
  rewrite run_bind.
  set (shown := if negb (content (value type)) then [prompt_build_diff g] else []).
  set (s2 := if negb (content (value type))
             then add_cli_event (prompt_build_diff g) s1 else s1).
  assert ((if negb (content (value type))
           then modify (add_cli_event (prompt_build_diff g))
           else ret ()) s1 = (Return (), s2)) as ->.
  { subst s2. by destruct (negb _). }
  assert (cli_log s2 = cli_log s ++ display_files type g :: shown) as Hlog2.
  { subst s2 shown. destruct (negb _); simpl; by rewrite <- ?app_assoc. }
  assert (comparisons s2 = comparisons s) as Hcmp2.
  { subst s2. by destruct (negb _). }
  assert (omap prompted shown = [] /\ omap kept_selection shown = []
          /\ omap dropped shown = []) as (Hp & Hk & Hd).
  { subst shown. by destruct (negb _). }
  rewrite run_bind. unfold ask_keep_options at 1. cbv beta iota zeta.
  set (answer := keep_options (cli_log s2) g).
  set (s3 := add_cli_event (prompt_keep_options g answer) s2).
  destruct answer as [|a more]; cbn [length Nat.eqb].
  - destruct g as [|first rest]; [done|]. intros [= <- <-].
    exists ([display_files type (first :: rest)] ++ shown
            ++ [prompt_keep_options (first :: rest) []]).
    rewrite !omap_app, Hp, Hk, Hd. simpl.
    rewrite Hlog2, Hcmp2. rewrite <- app_assoc. by repeat split.
  - rewrite run_bind. unfold modify at 1. cbv beta iota. intros [= <- <-].
    exists ([display_files type g] ++ shown ++ [prompt_keep_options g (a :: more)]).
    rewrite !omap_app, Hp, Hk, Hd. simpl omap.
    split; [|split; [done|split; [|split]]].
    + simpl. rewrite Hlog2. by rewrite <- app_assoc.
    + destruct g; simpl; by rewrite app_nil_r.
    + rewrite on_index_same. simpl. by rewrite Hcmp2.
    + intros t Ht. rewrite on_index_other by done. simpl. by rewrite Hcmp2.
Qed.

Lemma resolve_dups_loop_run type len :
  forall pos used to_remove (s s' : Sys CI) acc,
    iter_items len pos used type (resolve_dup_group type) to_remove s = (Return acc, s') ->
    exists new,
      cli_log s' = cli_log s ++ new /\
      acc = to_remove ++ omap dropped new /\
      comparisons s' type =
        foldl (fun b k => set_comparisons k b) (comparisons s type)
              (omap kept_selection new) /\
      (forall t, t <> type -> comparisons s' t = comparisons s t).
Proof.
  induction len as [|len IH]; intros pos used to_remove s s' acc;
    rewrite iter_items_unfold; (destruct (bool_decide _); [done|]);
    destruct (next_entry _ pos) as [[i g]|]; try done;
    try (intros [= <- <-]; exists []; simpl; rewrite !app_nil_r; by repeat split).
  intros Hrun.
  apply bind_inv in Hrun as [(acc1 & s1 & Hg & Hrest)|(e & _ & ?)]; [|done].
  apply resolve_dup_group_run in Hg as (new1 & Hcli1 & _ & -> & Hset1 & Hother1).
  apply IH in Hrest as (new2 & Hcli2 & -> & Hset2 & Hother2).
  exists (new1 ++ new2). rewrite !omap_app, foldl_app.
  split; [by rewrite Hcli2, Hcli1, app_assoc|]. split; [by rewrite app_assoc|].
  split; [by rewrite Hset2, Hset1|].
  intros t Ht. by rewrite Hother2, Hother1.
Qed.

Lemma removals_loop_run type to_remove (s : Sys CI) :
  exists s',
    for_each to_remove (fun file => modify (on_index type (remove_comparisons file))) s =
      (Return (), s') /\
    cli_log s' = cli_log s /\
    comparisons s' type =
      foldl (fun b file => remove_comparisons file b) (comparisons s type) to_remove /\
    (forall t, t <> type -> comparisons s' t = comparisons s t).
Proof.
  revert s. induction to_remove as [|file to_remove IH]; intros s.
  - exists s. by repeat split.
  - cbn [for_each]. rewrite run_bind. unfold modify at 1. cbv beta iota.
    destruct (IH (on_index type (remove_comparisons file) s))
      as (s' & -> & Hcli & Hreq & Hother).
    exists s'. split; [done|]. split; [done|]. split.
    + rewrite Hreq, on_index_same. done.
    + intros t Ht. rewrite (Hother t Ht). by apply on_index_other.
Qed.

(** C4, as the code has it.  When a pass of [resolve_dups] over a category
    goes through, whatever the buckets are made of: the bucket of the
    category was first told, group after group, the selection of each group
    the user kept something of, and then, once every group had been shown
    and prompted for, it was asked to remove the first member of each group
    the user kept nothing of, and no other file; no other bucket was
    touched.  So an empty selection has the first member of the group handed
    to [remove_comparisons]. *)
Theorem resolve_dups_empty_selection (type : CompType) (s s' : Sys CI) :
  resolve_dups type s = (Return (), s') ->
  exists new,
    cli_log s' = cli_log s ++ new /\
    comparisons s' type =
      foldl (fun b file => remove_comparisons file b)
            (foldl (fun b k => set_comparisons k b) (comparisons s type)
                   (omap kept_selection new))
            (omap dropped new) /\
    (forall t, t <> type -> comparisons s' t = comparisons s t) /\
    (forall first rest,
       prompt_keep_options (first :: rest) [] ∈ new -> first ∈ omap dropped new).
Proof.
  unfold resolve_dups, for_items. intros Hrun.
  apply bind_inv in Hrun as [(to_remove & s1 & Hloop & Hrem)|(e & _ & ?)]; [|done].
  rewrite run_bind in Hloop. unfold gets at 1 in Hloop. cbv beta iota in Hloop.
  apply resolve_dups_loop_run in Hloop as (new & Hcli1 & -> & Hset & Hother1).
  destruct (removals_loop_run type ([] ++ omap dropped new) s1)
    as (s2 & Hrun2 & Hcli2 & Hrem2 & Hother2).
  rewrite Hrun2 in Hrem. injection Hrem as <-. rewrite app_nil_l in Hrem2.
  exists new. split; [by rewrite Hcli2|]. split; [by rewrite Hrem2, Hset|].
  split; [intros t Ht; by rewrite Hother2, Hother1|].
  intros first rest Hin. apply list_elem_of_omap.
  by exists (prompt_keep_options (first :: rest) []).
Qed.

End passes.




(** C4, as the claim has it, fails: with the group of the descriptors 0 and
    3 in the bucket of CONTENT_DUP and a user who keeps nothing, the first
    member, 0, is the file that is removed, and the other member is not. *)
Lemma first_member_is_removed :
  ~ first_member_retained (cli := keeps_nothing) CONTENT_DUP
      (with_groups CONTENT_DUP [[0; 3]]).
Proof.
  intros Hclaim. destruct (Hclaim 0 [3]) as [Hfirst _].
  - vm_compute. repeat constructor.
  - apply Hfirst. vm_compute. repeat constructor.
Qed.


(** ** Classification: what is cached and what is filed *)

Lemma filter_none {A} (P : A -> Prop) `{forall x, Decision (P x)} (l : list A) :
  Forall (fun x => ~ P x) l -> filter P l = [].
Proof.
  induction 1 as [|x l Hx Hl IH]; [done|].
  by rewrite filter_cons, decide_False.
Qed.

Section filing.
Context {hashlib : Hashlib} {CI : Type} {index_ops : ComparisonIndex CI} {cli : Cli}.

(** The loop over a group works on the world only. *)
Lemma compare_group_loop_frame file group acc (s : Sys CI) :
  let s' := snd (compare_group_loop file group acc s) in
  comparisons s' = comparisons s /\
  comparison_cache s' = comparison_cache s /\
  cli_log s' = cli_log s.
Proof.
  apply (compare_group_loop_keeps
           (fun s' => comparisons s' = comparisons s /\
                      comparison_cache s' = comparison_cache s /\
                      cli_log s' = cli_log s)); done.
Qed.

Lemma add_comparisons_loop_run cs :
  forall found (s : Sys CI),
  exists s',
    add_comparisons_loop cs found s =
      (Return (found || bool_decide (Exists (fun c => comp_type c <> UNIQUE) cs)), s') /\
    world s' = world s /\ cli_log s' = cli_log s /\
    (forall c, c ∈ cs -> is_Some (comparison_cache s' !! pair_key c)) /\
    (forall k, is_Some (comparison_cache s !! k) -> is_Some (comparison_cache s' !! k)) /\
    (forall t, t <> UNIQUE ->
       comparisons s' t =
         foldl (fun b c => add_comparison c b) (comparisons s t)
               (filter (fun c => comp_type c = t) cs)) /\
    comparisons s' UNIQUE = comparisons s UNIQUE.
Proof.
  induction cs as [|c cs IH]; intros found s.
  - exists s. cbn [add_comparisons_loop].
    rewrite bool_decide_eq_false_2 by by intros ?%Exists_nil.
    rewrite orb_false_r. repeat split; try done. by intros c ?%elem_of_nil.
  - cbn [add_comparisons_loop]. rewrite run_bind. unfold modify at 1. cbv beta iota.
    set (s1 := cache_set _ c s).
    assert (forall k, is_Some (comparison_cache s !! k) ->
                      is_Some (comparison_cache s1 !! k)) as Hmono.
    { intros k Hk. subst s1. simpl. apply lookup_insert_is_Some'. by right. }
    assert (is_Some (comparison_cache s1 !! pair_key c)) as Hc.
    { subst s1. simpl. unfold pair_key. by rewrite lookup_insert_eq. }
    destruct (decide (comp_type c <> UNIQUE)) as [Hu|Hu];
      [rewrite (bool_decide_eq_true_2 _ Hu)|rewrite (bool_decide_eq_false_2 _ Hu)].
    + rewrite run_bind. unfold modify at 1. cbv beta iota.
      destruct (IH true (on_index (comp_type c) (add_comparison c) s1))
        as (s' & -> & Hw & Hl & Hin & Hmono' & Hfiled & Hunique).
      exists s'. split.
      { rewrite (bool_decide_eq_true_2 (Exists _ (c :: cs))) by by left.
        by rewrite orb_true_r. }
      split; [done|]. split; [done|]. split; [|split; [|split]].
      * intros c' [->|Hc']%elem_of_cons; [by apply Hmono'|by apply Hin].
      * intros k Hk. by apply Hmono', Hmono.
      * intros t Ht. rewrite (Hfiled t Ht), filter_cons.
        destruct (decide (comp_type c = t)) as [<-|Hne].
        -- rewrite on_index_same. by subst s1.
        -- rewrite on_index_other by done. by subst s1.
      * rewrite Hunique, on_index_other by done. by subst s1.
    + apply dec_stable in Hu.
      destruct (IH found s1) as (s' & -> & Hw & Hl & Hin & Hmono' & Hfiled & Hunique).
      exists s'. split.
      { f_equal. f_equal. f_equal. apply bool_decide_ext.
        rewrite Exists_cons. split; [by right|by intros [?|?]]. }
      split; [done|]. split; [done|]. split; [|split; [|split]].
      * intros c' [->|Hc']%elem_of_cons; [by apply Hmono'|by apply Hin].
      * intros k Hk. by apply Hmono', Hmono.
      * intros t Ht. rewrite (Hfiled t Ht), filter_cons.
        rewrite decide_False by congruence. by subst s1.
      * rewrite Hunique. by subst s1.
Qed.

Lemma sys_eta (s : Sys CI) :
  {| world := world s; comparisons := comparisons s;
     comparison_cache := comparison_cache s; cli_log := cli_log s |} = s.
Proof. by destruct s. Qed.

Lemma in_world_deref_inv file (s s0 : Sys CI) r :
  in_world (deref file) s = (r, s0) ->
  s0 = s /\ r = match heap (world s) !! file with
                | Some f => Return f
                | None => Raise ReferenceError
                end.
Proof.
  rewrite run_in_world. unfold deref.
  destruct (heap (world s) !! file); simpl; rewrite sys_eta; by intros [= <- <-].
Qed.

Lemma not_found_all_unique (names sizes : list Comparison) :
  negb (bool_decide (Exists (fun c => comp_type c <> UNIQUE) names))
  && negb (bool_decide (Exists (fun c => comp_type c <> UNIQUE) sizes)) =
  bool_decide (Forall (fun c => comp_type c = UNIQUE) (names ++ sizes)).
Proof.
  assert (forall l : list Comparison,
            negb (bool_decide (Exists (fun c => comp_type c <> UNIQUE) l)) =
            bool_decide (Forall (fun c => comp_type c = UNIQUE) l)) as Hneg.
  { intros l. rewrite <- bool_decide_not. apply bool_decide_ext.
    rewrite <- Forall_Exists_neg. apply Forall_proper; [|done].
    intros c. split; [apply dec_stable|by intros ? ?]. }
  rewrite !Hneg.
  rewrite <- bool_decide_and. apply bool_decide_ext. by rewrite Forall_app.
Qed.

(** C7, as the code has it.  When the classification of a file against its
    name-group and its size-group goes through: every outcome the two
    groups produced is in the pair cache; the outcomes of a category other
    than UNIQUE, and only they, were filed, each into the bucket of its
    category and in the order they were produced; and the file was filed
    under UNIQUE exactly when no outcome of another category was produced
    (so also when no outcome was produced at all), in which case its
    classification has changed no other bucket. *)
Theorem classification_caches_and_files d file (s s' : Sys CI) :
  add_dir_index_file d file s = (Return (), s') ->
  exists f names s1 sizes s3,
    heap (world s) !! file = Some f /\
    _compare_file_against_group file (name_index d (File.name f)) s = (Return names, s1) /\
    _compare_file_against_group file (size_index d (File.size f))
        (snd (_add_comparisons names s1)) = (Return sizes, s3) /\
    (forall c, c ∈ names ++ sizes -> is_Some (comparison_cache s' !! pair_key c)) /\
    (forall t, t <> UNIQUE ->
       comparisons s' t =
         foldl (fun b c => add_comparison c b) (comparisons s t)
               (filter (fun c => comp_type c = t) (names ++ sizes))) /\
    comparisons s' UNIQUE =
      (if bool_decide (Forall (fun c => comp_type c = UNIQUE) (names ++ sizes))
       then add_file file (comparisons s UNIQUE)
       else comparisons s UNIQUE) /\
    (Forall (fun c => comp_type c = UNIQUE) (names ++ sizes) ->
     forall t, t <> UNIQUE -> comparisons s' t = comparisons s t).
Proof.
  unfold add_dir_index_file. intros H.
  apply bind_inv in H as [(f & s0 & Hf & H)|(e & _ & ?)]; [|done].
  apply in_world_deref_inv in Hf as [-> Hf].
  destruct (heap (world s) !! file) as [f'|] eqn:Hfile; [|done].
  injection Hf as <-.
  apply bind_inv in H as [(names & s1 & Hnames & H)|(e & _ & ?)]; [|done].
  apply bind_inv in H as [(found_name & s2 & Hadd1 & H)|(e & _ & ?)]; [|done].
  apply bind_inv in H as [(sizes & s3 & Hsizes & H)|(e & _ & ?)]; [|done].
  apply bind_inv in H as [(found_size & s4 & Hadd2 & H)|(e & _ & ?)]; [|done].
  destruct (compare_group_loop_frame file (name_index d (File.name f)) [] s)
    as (Hc1 & Hk1 & _).
  unfold _compare_file_against_group in Hnames, Hsizes. rewrite Hnames in Hc1, Hk1.
  simpl in Hc1, Hk1.
  destruct (add_comparisons_loop_run names false s1)
    as (s2' & E1 & _ & _ & Hin1 & Hmono1 & Hfiled1 & Hunique1).
  unfold _add_comparisons in Hadd1, Hadd2. rewrite E1 in Hadd1.
  injection Hadd1 as <- <-.
  destruct (compare_group_loop_frame file (size_index d (File.size f)) [] s2')
    as (Hc3 & Hk3 & _).
  rewrite Hsizes in Hc3, Hk3. simpl in Hc3, Hk3.
  destruct (add_comparisons_loop_run sizes false s3)
    as (s4' & E2 & _ & _ & Hin2 & Hmono2 & Hfiled2 & Hunique2).
  rewrite E2 in Hadd2. injection Hadd2 as <- <-.
  cbn [orb] in H. rewrite not_found_all_unique in H.
  assert (forall t, t <> UNIQUE ->
            comparisons s4' t =
              foldl (fun b c => add_comparison c b) (comparisons s t)
                    (filter (fun c => comp_type c = t) (names ++ sizes))) as Hfiled.
  { intros t Ht. rewrite filter_app, foldl_app.
    by rewrite (Hfiled2 t Ht), Hc3, (Hfiled1 t Ht), Hc1. }
  assert (comparisons s4' UNIQUE = comparisons s UNIQUE) as Hunique.
  { by rewrite Hunique2, Hc3, Hunique1, Hc1. }
  assert (forall c, c ∈ names ++ sizes -> is_Some (comparison_cache s4' !! pair_key c))
    as Hin.
  { intros c [Hc|Hc]%elem_of_app; [|by apply Hin2].
    apply Hmono2. rewrite Hk3. by apply Hin1. }
  exists f, names, s1, sizes, s3. split; [done|]. split; [done|].
  split; [unfold _add_comparisons; by rewrite E1|].
  destruct (bool_decide (Forall _ (names ++ sizes))) eqn:Hall.
  - injection H as <-. split; [done|]. split; [|split].
    + intros t Ht. rewrite on_index_other by done. by apply Hfiled.
    + by rewrite on_index_same, Hunique.
    + intros Hu t Ht. rewrite on_index_other by done. rewrite (Hfiled t Ht).
      replace (filter (fun c => comp_type c = t) (names ++ sizes)) with (@nil Comparison);
        [done|].
      symmetry. apply filter_none. eapply Forall_impl; [exact Hu|].
      intros c ->. done.
  - injection H as <-. split; [done|]. split; [done|]. split; [done|].
    intros Hu. apply bool_decide_eq_false in Hall. done.
Qed.

End filing.

(** ** The pair cache *)

Section pair_cache.
Context {hashlib : Hashlib} {CI : Type} {index_ops : ComparisonIndex CI} {cli : Cli}.

(** The pair cache is written by [_add_comparisons] only, under keys made
    of two files. *)
Lemma add_comparisons_loop_keeps_file_keys cs found :
  keeps (file_keys (CI := CI)) (add_comparisons_loop cs found).
Proof.
  revert found. induction cs as [|c cs IH]; intros found; simpl.
  - apply keeps_ret.
  - apply keeps_bind; [|intros _].
    + apply keeps_modify. intros s Hs k. simpl.
      intros [<-|Hk]%lookup_insert_is_Some'; [by eexists _, _|by apply Hs].
    + destruct (bool_decide _); [|apply IH].
      apply keeps_bind; [by apply keeps_modify|intros _; apply IH].
Qed.

Lemma add_dir_index_keeps_file_keys d : keeps (file_keys (CI := CI)) (add_dir_index d).
Proof.
  apply keeps_for_each. intros file. unfold add_dir_index_file.
  apply keeps_bind; [by apply keeps_in_world|intros f].
  apply keeps_bind; [by apply compare_group_loop_keeps|intros names].
  apply keeps_bind; [apply add_comparisons_loop_keeps_file_keys|intros found_name].
  apply keeps_bind; [by apply compare_group_loop_keeps|intros sizes].
  apply keeps_bind; [apply add_comparisons_loop_keeps_file_keys|intros found_size].
  destruct (_ && _); [by apply keeps_modify|apply keeps_ret].
Qed.

Lemma resolve_matches_keeps_file_keys : keeps (file_keys (CI := CI)) resolve_matches.
Proof.
  apply for_items_keeps. intros _ [|first group]; [apply keeps_raise|].
  by apply keeps_modify.
Qed.

Lemma resolve_dups_keeps_file_keys type : keeps (file_keys (CI := CI)) (resolve_dups type).
Proof.
  unfold resolve_dups. apply keeps_bind; [|intros to_remove].
  - apply for_items_keeps. intros acc group. unfold resolve_dup_group.
    apply keeps_bind; [by apply keeps_modify|intros _].
    apply keeps_bind; [destruct (negb _); [by apply keeps_modify|apply keeps_ret]|intros _].
    apply keeps_bind; [by intros s|intros user_choice].
    destruct (_ =? _)%nat.
    + destruct group; [apply keeps_raise|apply keeps_ret].
    + apply keeps_bind; [by apply keeps_modify|intros; apply keeps_ret].
  - apply keeps_for_each. intros file. by apply keeps_modify.
Qed.

Lemma call_keeps_file_keys c : keeps (file_keys (CI := CI)) (call c).
Proof.
  destruct c as [d| | |type]; simpl.
  - apply add_dir_index_keeps_file_keys.
  - apply keeps_for_each. intros type. unfold resolve_type.
    destruct (bool_decide _); [apply resolve_matches_keeps_file_keys|].
    destruct (bool_decide _); [apply keeps_ret|apply resolve_dups_keeps_file_keys].
  - apply resolve_matches_keeps_file_keys.
  - apply resolve_dups_keeps_file_keys.
Qed.

Lemma after_calls_file_keys calls (s : Sys CI) :
  file_keys s -> file_keys (after_calls calls s).
Proof.
  revert s. induction calls as [|c calls IH]; intros s Hs; simpl; [done|].
  apply IH. by apply call_keeps_file_keys.
Qed.

(** The lookups of [_compare_file_against_group] have the manager in their
    key, and find nothing. *)
Lemma cache_get_manager (s : Sys CI) other :
  file_keys s -> cache_get (OManager, OFile other) s = (Return false, s).
Proof.
  intros Hs. unfold cache_get, gets.
  destruct (comparison_cache s !! (OManager, OFile other)) as [c|] eqn:E; [|done].
  destruct (Hs (OManager, OFile other)) as (a & b & [=]). by rewrite E.
Qed.

End pair_cache.

(** C3, where the code departs from it.  Whatever was called on a new
    manager before, the two lookups in the pair cache that
    [_compare_file_against_group] makes answer that nothing is cached: their
    key holds the manager, and only pairs of files are ever cached.  So with
    the descriptors 0 and 1, which share their name and their size: once the
    name-group of 0 was compared and recorded the pair is in the cache, the
    size-group nevertheless compares it again, and the whole classification
    files the pair four times. *)
Theorem pair_cache_never_consulted :
  (forall (hashlib : Hashlib) (CI : Type) (index_ops : ComparisonIndex CI) (cli : Cli)
          (calls : list manager_call) (w : World) (other : FileRef),
     let s : Sys CI := after_calls calls (ComparisonManager_init w) in
     cache_get (OManager, OFile other) s = (Return false, s)) /\
  let d := index_of sample_heap [0; 1] in
  let s0 : Sys Recorder := ComparisonManager_init sample_world in
  let c01 := {| fileA := 0; fileB := 1; comp_type := MATCH |} in
  let c10 := {| fileA := 1; fileB := 0; comp_type := MATCH |} in
  let s1 := snd (_compare_file_against_group (hashlib := spelling_hashlib) 0
                   (name_index d "a.txt") s0) in
  let s2 := snd (_add_comparisons [c01] s1) in
  fst (_compare_file_against_group (hashlib := spelling_hashlib) 0
         (name_index d "a.txt") s0) = Return [c01] /\
  comparison_cache s2 !! (OFile 0, OFile 1) = Some c01 /\
  fst (_compare_file_against_group (hashlib := spelling_hashlib) 0
         (size_index d 5) s2) = Return [c01] /\
  asked (snd (add_dir_index (hashlib := spelling_hashlib) d s0)) =
    [(MATCH, [AddComparison c01; AddComparison c01; AddComparison c10; AddComparison c10])].
Proof.
  split.
  - intros hashlib CI index_ops cli calls w other s.
    apply cache_get_manager, after_calls_file_keys.
    intros k [c Hc]. unfold ComparisonManager_init in Hc.
    cbn [comparison_cache] in Hc. by rewrite lookup_empty in Hc.
  - vm_compute. by repeat split.
Qed.

(** ** An exception ends the classification *)

Lemma for_each_raise {S A} (l1 l2 : list A) (x : A) (body : A -> M S unit) s s1 e s2 :
  for_each l1 body s = (Return (), s1) ->
  body x s1 = (Raise e, s2) ->
  for_each (l1 ++ x :: l2) body s = (Raise e, s2).
Proof.
  revert s. induction l1 as [|y l1 IH]; intros s; simpl.
  - intros [= ->] Hx. by rewrite run_bind, Hx.
  - rewrite !run_bind. destruct (body y s) as [[[]|e'] s']; [|done].
    intros Hl1 Hx. by apply IH.
Qed.

Section aborting.
Context {hashlib : Hashlib} {CI : Type} {index_ops : ComparisonIndex CI} {cli : Cli}.

(** One turn of the loop over a group. *)
Lemma compare_group_loop_cons file other group acc (s : Sys CI) :
  compare_group_loop file (other :: group) acc s =
    if bool_decide (file <> other)
       && negb (bool_decide (is_Some (comparison_cache s !! (OManager, OFile other))))
    then match in_world (compare_to file other) s with
         | (Return (Some c), s') => compare_group_loop file group (acc ++ [c]) s'
         | (Return None, s') => compare_group_loop file group acc s'
         | (Raise e, s') => (Raise e, s')
         end
    else compare_group_loop file group acc s.
Proof.
  cbn [compare_group_loop]. rewrite run_bind. unfold cache_get at 1, gets at 1.
  cbv beta iota. rewrite run_bind. unfold cache_get at 1, gets at 1. cbv beta iota.
  destruct (comparison_cache s !! (OManager, OFile other)) as [c|].
  - rewrite (bool_decide_eq_true_2 (is_Some (Some c))) by done.
    by rewrite !andb_false_r.
  - rewrite (bool_decide_eq_false_2 (is_Some None)) by by intros [? ?].
    cbn [orb negb]. rewrite !andb_true_r.
    destruct (bool_decide (file <> other)); [|done].
    rewrite run_bind. by destruct (in_world _ s) as [[[c|]|e] s'].
Qed.

Lemma compare_group_loop_app file g1 g2 acc (s : Sys CI) acc1 s1 :
  compare_group_loop file g1 acc s = (Return acc1, s1) ->
  compare_group_loop file (g1 ++ g2) acc s = compare_group_loop file g2 acc1 s1.
Proof.
  revert acc s. induction g1 as [|other g1 IH]; intros acc s.
  - simpl. by intros [= -> ->].
  - rewrite <- app_comm_cons, !compare_group_loop_cons.
    destruct (_ && _); [|apply IH].
    destruct (in_world (compare_to file other) s) as [[[c|]|e] s']; [apply IH|apply IH|done].
Qed.

Lemma compare_group_loop_raise file other group acc (s : Sys CI) e w :
  file <> other ->
  comparison_cache s !! (OManager, OFile other) = None ->
  compare_to file other (world s) = (Raise e, w) ->
  compare_group_loop file (other :: group) acc s =
    (Raise e, {| world := w; comparisons := comparisons s;
                 comparison_cache := comparison_cache s; cli_log := cli_log s |}).
Proof.
  intros Hne Hcache Hraise. rewrite compare_group_loop_cons, Hcache.
  rewrite (bool_decide_eq_true_2 (file <> other)) by done.
  rewrite (bool_decide_eq_false_2 (is_Some None)) by by intros [? ?].
  cbn [negb andb]. by rewrite run_in_world, Hraise.
Qed.

Lemma reaches_member_raise file group (s1 : Sys CI) other s2 e w :
  reaches_member file group s1 other s2 ->
  file <> other ->
  comparison_cache s2 !! (OManager, OFile other) = None ->
  compare_to file other (world s2) = (Raise e, w) ->
  _compare_file_against_group file group s1 =
    (Raise e, {| world := w; comparisons := comparisons s2;
                 comparison_cache := comparison_cache s2; cli_log := cli_log s2 |}).
Proof.
  intros (g1 & g2 & acc & -> & Hg1) Hne Hcache Hraise.
  unfold _compare_file_against_group.
  rewrite (compare_group_loop_app _ _ _ _ _ _ _ Hg1).
  by apply compare_group_loop_raise.
Qed.

Lemma add_dir_index_file_raise d file f (s1 : Sys CI) other s2 e w :
  heap (world s1) !! file = Some f ->
  reaches_pair d file f s1 other s2 ->
  file <> other ->
  comparison_cache s2 !! (OManager, OFile other) = None ->
  compare_to file other (world s2) = (Raise e, w) ->
  add_dir_index_file d file s1 =
    (Raise e, {| world := w; comparisons := comparisons s2;
                 comparison_cache := comparison_cache s2; cli_log := cli_log s2 |}).
Proof.
  intros Hf Hreach Hne Hcache Hraise. unfold add_dir_index_file.
  rewrite run_bind, run_in_world. unfold deref. rewrite Hf. simpl. rewrite sys_eta.
  destruct Hreach as [Hname|(names & s' & found & s'' & Hnames & Hadd & Hsize)].
  - by rewrite run_bind, (reaches_member_raise _ _ _ _ _ _ _ Hname Hne Hcache Hraise).
  - rewrite run_bind, Hnames, run_bind, Hadd.
    by rewrite run_bind, (reaches_member_raise _ _ _ _ _ _ _ Hsize Hne Hcache Hraise).
Qed.

(** C5, as the code has it.  Nothing catches the error of a file that cannot
    be read.  When the classification has come to a file and to its
    comparison with another member of one of its two groups, and the content
    test of that pair fails on reading, the exception is OSError, [compare_to]
    raises it and [add_dir_index] ends by raising it, in the state the
    comparison was started in but for the world: nothing was cached or filed
    for the group at hand, and no later file is classified. *)
Theorem io_error_ends_classification d (s : Sys CI) file s1 f other s2 f2 o e w :
  reaches_file d s file s1 ->
  heap (world s1) !! file = Some f ->
  reaches_pair d file f s1 other s2 ->
  file <> other ->
  comparison_cache s2 !! (OManager, OFile other) = None ->
  heap (world s2) !! file = Some f2 ->
  heap (world s2) !! other = Some o ->
  compare_content file other (world s2) = (Raise e, w) ->
  e = OSError /\
  compare_to file other (world s2) = (Raise OSError, w) /\
  add_dir_index d s =
    (Raise OSError, {| world := w; comparisons := comparisons s2;
                       comparison_cache := comparison_cache s2; cli_log := cli_log s2 |}).
Proof.
  intros (before & after & Hlist & Hbefore) Hf Hreach Hne Hcache Hf2 Ho Hraise.
  assert (e = OSError) as ->.
  { pose proof (compare_content_verdict _ _ _ _ _ Hne Hf2 Ho) as Hv.
    rewrite Hraise in Hv. symmetry in Hv. by apply content_verdict_raises in Hv. }
  assert (compare_to file other (world s2) = (Raise OSError, w)) as Hto.
  { by rewrite (run_compare_to _ _ _ _ _ Hne Hf2 Ho), Hraise. }
  split; [done|]. split; [done|].
  unfold add_dir_index. rewrite Hlist.
  eapply for_each_raise; [exact Hbefore|].
  by eapply add_dir_index_file_raise.
Qed.

End aborting.

(** C5, as the claim has it, fails: 0, 4 and 3 have the same size, 4 cannot
    be read, and the classification of the three files ends with OSError at
    the pair of 0 and 4; nothing is filed, not even the pair of 0 and 3,
    which have the same content. *)
Lemma unreadable_file_stops_classification :
  ~ classification_goes_on (hashlib := spelling_hashlib)
      (index_of sample_heap [0; 4; 3]) (ComparisonManager_init sample_world) /\
  asked (snd (add_dir_index (hashlib := spelling_hashlib)
                (index_of sample_heap [0; 4; 3]) (ComparisonManager_init sample_world))) = [].
Proof.
  split; [|by vm_compute].
  intros [s' Hrun].
  assert (fst (add_dir_index (hashlib := spelling_hashlib) (index_of sample_heap [0; 4; 3])
                 (ComparisonManager_init (CI := Recorder) sample_world)) = Raise OSError)
    as Hraise by by vm_compute.
  by rewrite Hrun in Hraise.
Qed.

(** C7, as the claim has it, fails: 2 and 3 have the same size, another name,
    another folder and another content; the size-group of 2 produces their
    outcome, of the category UNIQUE, which is cached and not filed. *)
Lemma unique_outcome_not_filed :
  let s0 : Sys Recorder := ComparisonManager_init sample_world in
  let c := {| fileA := 2; fileB := 3; comp_type := UNIQUE |} in
  fst (_compare_file_against_group (hashlib := spelling_hashlib) 2
         (size_index (index_of sample_heap [2; 3]) 5) s0) = Return [c] /\
  ~ outcomes_all_filed [c] s0.
Proof.
  split; [by vm_compute|].
  intros Hclaim. destruct (Hclaim {| fileA := 2; fileB := 3; comp_type := UNIQUE |})
    as [_ Hfiled]; [by left|].
  vm_compute in Hfiled. by apply elem_of_nil in Hfiled.
Qed.

(** ** Memoized fingerprints, over a whole run *)

Section memoized_run.
Context {hashlib : Hashlib}.

Lemma compare_group_loop_keeps_world {CI} (Q : World -> Prop) file group acc :
  (forall a b, keeps Q (compare_to a b)) ->
  keeps (fun s : Sys CI => Q (world s)) (compare_group_loop file group acc).
Proof.
  intros Hto. revert acc. induction group as [|other group IH]; intros acc; simpl.
  - apply keeps_ret.
  - unfold cache_get.
    repeat first [apply IH | by apply keeps_in_world_lift | keeps_step].
Qed.

Lemma add_comparisons_loop_keeps_world {CI} `{ComparisonIndex CI} (Q : World -> Prop) cs found :
  keeps (fun s : Sys CI => Q (world s)) (add_comparisons_loop cs found).
Proof.
  revert found. induction cs as [|c cs IH]; intros found; simpl.
  - apply keeps_ret.
  - apply keeps_bind; [by apply keeps_modify|intros _].
    destruct (bool_decide _); [|apply IH].
    apply keeps_bind; [by apply keeps_modify|intros _; apply IH].
Qed.

(** What the two steps that fill in a fingerprint keep of the world is kept
    by the classification of a directory index. *)
Lemma add_dir_index_keeps_world {CI} `{ComparisonIndex CI} (Q : World -> Prop) d :
  (forall r, keeps Q (ensure_quick_hash r)) ->
  (forall r, keeps Q (ensure_full_hash r)) ->
  keeps (fun s : Sys CI => Q (world s)) (add_dir_index d).
Proof.
  intros Hq Hf. apply keeps_for_each. intros file. unfold add_dir_index_file.
  assert (forall a b, keeps Q (compare_to a b)) as Hto
    by (intros; by apply compare_to_keeps).
  apply keeps_bind; [apply keeps_in_world_lift, keeps_deref|intros f].
  apply keeps_bind; [by apply compare_group_loop_keeps_world|intros names].
  apply keeps_bind; [apply add_comparisons_loop_keeps_world|intros found_name].
  apply keeps_bind; [by apply compare_group_loop_keeps_world|intros sizes].
  apply keeps_bind; [apply add_comparisons_loop_keeps_world|intros found_size].
  destruct (_ && _); [by apply keeps_modify|apply keeps_ret].
Qed.

(** C8. Fingerprints are memoized.  In every run of comparisons from fresh
    descriptors, whatever happens to the disk meanwhile, each descriptor's
    quick hash and full hash are computed at most once (hex digests being
    non-empty strings); a fingerprint that a descriptor has cached is the one
    it still holds after any further steps; and a comparison computes a full
    hash only if it leaves its two descriptors with equal quick fingerprints.
    The classification of a directory index is such a run: from fresh
    descriptors, [add_dir_index] computes each fingerprint at most once. *)
Theorem fingerprints_memoized :
  hex_digests hashlib ->
  (forall steps w r, fresh w ->
     times (QuickHashed r) (hash_log (run_steps steps w)) <= 1 /\
     times (FullHashed r) (hash_log (run_steps steps w)) <= 1) /\
  (forall steps w r f, heap w !! r = Some f ->
     exists f', heap (run_steps steps w) !! r = Some f' /\
       (truthy (File.quick_hash f) = true -> File.quick_hash f' = File.quick_hash f) /\
       (truthy (File.full_hash f) = true -> File.full_hash f' = File.full_hash f)) /\
  (forall self other w s o res w',
     heap w !! self = Some s -> heap w !! other = Some o ->
     compare_content self other w = (res, w') ->
     exists l, hash_log w' = hash_log w ++ l /\
       (Exists is_full l ->
        exists s' o', heap w' !! self = Some s' /\ heap w' !! other = Some o' /\
          is_Some (File.quick_hash s') /\ File.quick_hash s' = File.quick_hash o')) /\
  (forall (CI : Type) (index_ops : ComparisonIndex CI) d (s : Sys CI) r,
     fresh (world s) ->
     times (QuickHashed r) (hash_log (world (snd (add_dir_index d s)))) <= 1 /\
     times (FullHashed r) (hash_log (world (snd (add_dir_index d s)))) <= 1).
Proof.
  intros Hhex. split; [|split; [|split]].
  - intros steps w r Hfresh. apply computed_once_at_most.
    apply run_steps_keeps; [intros; by apply ensure_quick_hash_computed_once
                           |intros; by apply ensure_full_hash_computed_once
                           |done|by apply fresh_computed_once].
  - intros steps w r f Hr.
    apply (run_steps_keeps (cached_kept r f)); [apply ensure_quick_hash_cached_kept
                                               |apply ensure_full_hash_cached_kept
                                               |done|].
    by exists f.
  - apply compare_content_full_hashed.
  - intros CI index_ops d s r Hfresh. apply computed_once_at_most.
    apply (add_dir_index_keeps_world computed_once);
      [intros; by apply ensure_quick_hash_computed_once
      |intros; by apply ensure_full_hash_computed_once
      |by apply fresh_computed_once].
Qed.

End memoized_run.

(** ** The theorems at work on the sample data *)

Lemma run_returns {S A} (m : M S A) (s : S) (a : A) :
  fst (m s) = Return a -> m s = (Return a, snd (m s)).
Proof. destruct (m s) as [r s']. simpl. by intros ->. Qed.

Lemma run_raises {S A} (m : M S A) (s : S) (e : exn) :
  fst (m s) = Raise e -> m s = (Raise e, snd (m s)).
Proof. destruct (m s) as [r s']. simpl. by intros ->. Qed.

Lemma spelling_hashlib_hex : hex_digests spelling_hashlib.
Proof. split; intros b; simpl; discriminate. Qed.

(** Two descriptors with the name and the folder of each other and another
    content are a PATH_NAME_DUP; resolving their group asks for a diff, and
    what the user keeps is what the bucket is told to keep. *)
Example sample_path_name_dup :
  let s := snd (resolve_dups (cli := keeps_everything) PATH_NAME_DUP
                  (with_groups PATH_NAME_DUP [[2; 5]])) in
  cli_log s = [display_files PATH_NAME_DUP [2; 5]; prompt_build_diff [2; 5];
               prompt_keep_options [2; 5] [2; 5]] /\
  selections (comparisons s PATH_NAME_DUP) = [KeepFiles [2; 5]] /\
  removals (comparisons s PATH_NAME_DUP) = [].
Proof. vm_compute. by repeat split. Qed.

(** The eight categories, met on the sample descriptors. *)
Example sample_categories :
  let category a b :=
    category_of (fst (compare_to (hashlib := spelling_hashlib) a b sample_world)) in
  category 0 1 = Return (Some MATCH) /\
  category 2 5 = Return (Some PATH_NAME_DUP) /\
  category 0 5 = Return (Some CONTENT_PATH_DUP) /\
  category 3 0 = Return (Some CONTENT_DUP) /\
  category 2 3 = Return (Some UNIQUE) /\
  category 0 2 = Return None /\
  category 0 4 = Raise OSError /\
  category 0 0 = Raise ValueError_self_compare.
Proof. vm_compute. by repeat split. Qed.

(** A bucket that re-keys its dict while the manager iterates over it: the
    dict has the size it had, and the iterator, after as many turns as
    there were keys, finds an entry still: the passes end with the
    RuntimeError of a dict whose keys changed during the iteration. *)
Example sample_rekeying :
  fst (resolve_matches (index_ops := Rekeying_index) (rekeying_groups MATCH [[0; 1]]))
    = Raise RuntimeError_keys_changed /\
  fst (resolve_dups (index_ops := Rekeying_index) (cli := keeps_everything) CONTENT_DUP
         (rekeying_groups CONTENT_DUP [[0; 3]])) = Raise RuntimeError_keys_changed /\
  fst (resolve_dups (index_ops := Rekeying_index) (cli := keeps_nothing) CONTENT_DUP
         (rekeying_groups CONTENT_DUP [[0; 3]])) = Return ().
Proof. vm_compute. by repeat split. Qed.

Lemma compare_to_one_category_witness :
  fst (compare_to (hashlib := spelling_hashlib) 0 1 sample_world)
    <> Raise ValueError_no_comp_type.
Proof.
  exact (proj1 (proj2 (compare_to_one_category (hashlib := spelling_hashlib)
                         sample_world 0 1 _ _ ltac:(done) eq_refl eq_refl))).
Defined.

Lemma compare_content_staged_witness :
  exists s' o',
    heap (snd (compare_content (hashlib := spelling_hashlib) 0 1 sample_world)) !! 0
      = Some s' /\
    heap (snd (compare_content (hashlib := spelling_hashlib) 0 1 sample_world)) !! 1
      = Some o' /\
    File.size s' = File.size o' /\
    is_Some (File.quick_hash s') /\ File.quick_hash s' = File.quick_hash o' /\
    is_Some (File.full_hash s') /\ File.full_hash s' = File.full_hash o' /\
    File.quick_hash s' =
      quick_value (hashlib := spelling_hashlib) sample_world
        (sample_file "left" ["docs"; "a.txt"]) /\
    File.quick_hash o' =
      quick_value (hashlib := spelling_hashlib) sample_world
        (sample_file "right" ["docs"; "a.txt"]) /\
    File.full_hash s' =
      full_value (hashlib := spelling_hashlib) sample_world
        (sample_file "left" ["docs"; "a.txt"]) /\
    File.full_hash o' =
      full_value (hashlib := spelling_hashlib) sample_world
        (sample_file "right" ["docs"; "a.txt"]).
Proof.
  apply (proj1 (proj2 (proj2 (compare_content_staged (hashlib := spelling_hashlib)
                                sample_world 0 1 _ _ eq_refl eq_refl)))).
  apply run_returns. vm_compute. reflexivity.
Defined.

Lemma compare_to_symmetric_witness :
  category_of (fst (compare_to (hashlib := spelling_hashlib) 0 3 sample_world)) =
  category_of (fst (compare_to (hashlib := spelling_hashlib) 3 0 sample_world)).
Proof.
  exact (proj1 (proj2 (compare_to_symmetric (hashlib := spelling_hashlib)
                         sample_world 0 3 _ _ ltac:(done) eq_refl eq_refl))).
Defined.

Lemma fingerprints_memoized_witness :
  times (QuickHashed 0)
        (hash_log (run_steps (hashlib := spelling_hashlib)
                     [Compare 0 1; DiskChange (fun _ => None); Compare 1 0; Compare 0 3]
                     sample_world)) <= 1 /\
  times (FullHashed 0)
        (hash_log (run_steps (hashlib := spelling_hashlib)
                     [Compare 0 1; DiskChange (fun _ => None); Compare 1 0; Compare 0 3]
                     sample_world)) <= 1.
Proof.
  apply (proj1 (fingerprints_memoized (hashlib := spelling_hashlib) spelling_hashlib_hex)).
  split; [done|]. intros i f Hi.
  do 6 (destruct i as [|i]; [injection Hi as <-; by split|]). done.
Defined.

Lemma path_dup_bucket_stays_empty_witness :
  resolve_dups (cli := keeps_nothing) PATH_DUP
    (after_calls (hashlib := spelling_hashlib) (cli := keeps_nothing)
       [AddDirIndex (index_of sample_heap [0; 1; 2; 3]); ResolveAll]
       (ComparisonManager_init (CI := Recorder) sample_world)) =
  (Return (),
   after_calls (hashlib := spelling_hashlib) (cli := keeps_nothing)
     [AddDirIndex (index_of sample_heap [0; 1; 2; 3]); ResolveAll]
     (ComparisonManager_init (CI := Recorder) sample_world)).
Proof.
  exact (proj1 (proj2 (proj2 (proj2 (proj2
    (path_dup_bucket_stays_empty (hashlib := spelling_hashlib) (cli := keeps_nothing)
       (fun _ => eq_refl)
       [AddDirIndex (index_of sample_heap [0; 1; 2; 3]); ResolveAll] sample_world)))))).
Defined.


Lemma resolve_dups_empty_selection_witness :
  exists new,
    cli_log (snd (resolve_dups (cli := keeps_nothing) CONTENT_DUP
                    (with_groups CONTENT_DUP [[0; 3]]))) =
      cli_log (with_groups CONTENT_DUP [[0; 3]]) ++ new /\
    comparisons (snd (resolve_dups (cli := keeps_nothing) CONTENT_DUP
                        (with_groups CONTENT_DUP [[0; 3]]))) CONTENT_DUP =
      foldl (fun b file => remove_comparisons file b)
            (foldl (fun b k => set_comparisons k b)
                   (comparisons (with_groups CONTENT_DUP [[0; 3]]) CONTENT_DUP)
                   (omap kept_selection new))
            (omap dropped new).
Proof.
  assert (fst (resolve_dups (cli := keeps_nothing) CONTENT_DUP
                 (with_groups CONTENT_DUP [[0; 3]])) = Return ())
    as Hrun by (vm_compute; reflexivity).
  destruct (resolve_dups_empty_selection (cli := keeps_nothing) CONTENT_DUP
              (with_groups CONTENT_DUP [[0; 3]]) _ (run_returns _ _ _ Hrun))
    as (new & Hcli & Hbucket & _).
  exists new. split; [exact Hcli|exact Hbucket].
Defined.

Lemma classification_caches_and_files_witness :
  exists f names s1 sizes s3,
    heap sample_world !! 2 = Some f /\
    _compare_file_against_group (hashlib := spelling_hashlib) 2
      (name_index (index_of sample_heap [2; 3]) (File.name f))
      (ComparisonManager_init (CI := Recorder) sample_world) = (Return names, s1) /\
    _compare_file_against_group (hashlib := spelling_hashlib) 2
      (size_index (index_of sample_heap [2; 3]) (File.size f))
      (snd (_add_comparisons names s1)) = (Return sizes, s3).
Proof.
  assert (fst (add_dir_index_file (hashlib := spelling_hashlib)
                 (index_of sample_heap [2; 3]) 2
                 (ComparisonManager_init (CI := Recorder) sample_world)) = Return ())
    as Hrun by (vm_compute; reflexivity).
  destruct (classification_caches_and_files (hashlib := spelling_hashlib)
              (index_of sample_heap [2; 3]) 2
              (ComparisonManager_init (CI := Recorder) sample_world) _
              (run_returns _ _ _ Hrun))
    as (f & names & s1 & sizes & s3 & Hf & Hnames & Hsizes & _).
  exists f, names, s1, sizes, s3. split; [exact Hf|]. split; [exact Hnames|exact Hsizes].
Defined.

Lemma io_error_ends_classification_witness :
  fst (add_dir_index (hashlib := spelling_hashlib) (index_of sample_heap [0; 4; 3])
         (ComparisonManager_init (CI := Recorder) sample_world)) = Raise OSError.
Proof.
  set (s0 := ComparisonManager_init (CI := Recorder) sample_world).
  destruct (io_error_ends_classification (hashlib := spelling_hashlib)
              (index_of sample_heap [0; 4; 3]) s0 0 s0
              (sample_file "left" ["docs"; "a.txt"]) 4 s0
              (sample_file "left" ["docs"; "a.txt"]) (sample_file "right" ["gone.txt"])
              OSError
              (snd (compare_content (hashlib := spelling_hashlib) 0 4 sample_world)))
    as (_ & _ & Hrun).
  - by exists [], [4; 3].
  - reflexivity.
  - right. exists [], s0, false, s0. split; [reflexivity|]. split; [reflexivity|].
    by exists [0], [3], [].
  - done.
  - reflexivity.
  - reflexivity.
  - reflexivity.
  - apply run_raises. reflexivity.
  - by rewrite Hrun.
Defined.


(** * Further properties of file.py *)

Lemma relative_to_below (p base : Path) :
  relative_to p base =
    (if decide (base `prefix_of` p /\ is_absolute p = is_absolute base)
     then Some (drop (length base) p) else None).
Proof.
  unfold relative_to.
  destruct (decide (base `prefix_of` p /\ is_absolute p = is_absolute base))
    as [[[k ->] Habs]|Hn].
  - by rewrite take_app_length, !bool_decide_eq_true_2.
  - destruct (decide (take (length base) p = base)) as [E|E].
    + rewrite (bool_decide_eq_true_2 _ E). rewrite bool_decide_eq_false_2; [done|].
      intros Habs. apply Hn. split; [|done].
      exists (drop (length base) p). by rewrite <- E at 1; rewrite take_drop.
    + by rewrite (bool_decide_eq_false_2 _ E).
Qed.

(** The last part of a path of several parts, or of one part that is no
    anchor, is its name, and the parts before it are its parent. *)
Lemma Path_parent_name (p : Path) :
  p <> [] -> (forall part, p = [part] -> is_anchor part = false) ->
  Path_parent p ++ [path_name p] = p /\ last p = Some (path_name p) /\
  Path_parent p = parent p.
Proof.
  intros Hp Hone. destruct p as [|a [|b p]]; [done|..].
  - unfold Path_parent, path_name. by rewrite (Hone a eq_refl).
  - unfold Path_parent, path_name, parent.
    split; [symmetry; by apply app_removelast_last|]. split; [|done].
    clear. revert a b. induction p as [|c p IH]; intros a b; [done|].
    apply (IH b c).
Qed.

Lemma last_app_parts (base rel : Path) : rel <> [] -> last (base ++ rel) = last rel.
Proof.
  intros Hr. destruct rel as [|r rel _] using rev_ind; [done|].
  by rewrite app_assoc, !last_snoc.
Qed.

Lemma parent_app (base rel : Path) : rel <> [] -> parent (base ++ rel) = base ++ parent rel.
Proof. intros Hr. unfold parent. by apply List.removelast_app. Qed.

Section file_further.
Context {hashlib : Hashlib} {os : Os}.

(** X1. [File(base_path, abs_path)], when [abs_path] is [base_path]
    followed by [rel], both of them absolute or both of them relative, and
    stat gives a size for it, be it a file that can be opened or not, or a
    directory: the call returns a reference that was not in use and leaves
    every descriptor that existed as it was, with the disk and the record of
    the hashes; nothing is opened.  The new descriptor has the size that
    stat gave and no fingerprint, and its paths fit together:
    [base_path / rel_path] is [abs_path], and, when [abs_path] is not
    [base_path] itself, [name] is the last part of [rel_path],
    [dir_path / name] is [abs_path], and the folder that [compare_to] tests,
    [rel_path.parent], is [dir_path] taken relative to [base_path]. *)
Theorem File_init_new_descriptor (base_path rel : Path) (n : N) (w : World) :
  is_absolute (base_path ++ rel) = is_absolute base_path ->
  st_size w (base_path ++ rel) = Some n ->
  exists f w',
    File_init base_path (base_path ++ rel) w = (Return (length (heap w)), w') /\
    heap w !! length (heap w) = None /\
    heap w' = heap w ++ [f] /\
    heap w' !! length (heap w) = Some f /\
    (forall r g, heap w !! r = Some g -> heap w' !! r = Some g) /\
    disk w' = disk w /\ hash_log w' = hash_log w /\
    File.size f = n /\ unhashed f /\
    File.rel_path f = rel /\
    base_path ++ File.rel_path f = File.abs_path f /\
    (rel <> [] ->
       last (File.rel_path f) = Some (File.name f) /\
       File.dir_path f ++ [File.name f] = File.abs_path f /\
       File.dir_path f = base_path ++ parent (File.rel_path f)).
Proof.
  intros Habs Hn. unfold File_init. rewrite relative_to_below.
  rewrite decide_True by (split; [by eexists|done]).
  rewrite drop_app_length. rewrite run_bind. unfold stat_st_size. rewrite Hn.
  eexists _, _. split; [reflexivity|]. simpl.
  split; [by apply lookup_ge_None_2|].
  split; [done|].
  split; [by rewrite lookup_app_r, Nat.sub_diag|].
  split; [intros r g Hr; by apply lookup_app_l_Some|].
  do 6 (split; [done|]). intros Hrel.
  destruct (Path_parent_name (base_path ++ rel)) as (Hjoin & Hlast & Hparent).
  { destruct base_path, rel; done. }
  { intros part Hpart. destruct base_path as [|b base_path].
    - simpl in Hpart, Habs. by rewrite Hpart in Habs.
    - destruct base_path, rel; done. }
  simpl. split; [by rewrite <- (last_app_parts base_path rel)|]. split; [done|].
  rewrite Hparent. by apply parent_app.
Qed.

(** X2. [File(base_path, abs_path)] fails in two ways, and in both it
    creates nothing: with the ValueError of [relative_to] when [abs_path]
    does not begin with [base_path] or when one of the two is absolute and
    the other is not, whatever is at the path, and with OSError when
    [relative_to] succeeds and stat fails.  It returns exactly when
    [abs_path] begins with [base_path], both are absolute or both are
    relative, and stat gives a size.  So an absolute path is never accepted
    with the empty base. *)
Theorem File_init_failure (base_path abs_path : Path) (w : World) :
  (~ (base_path `prefix_of` abs_path /\ is_absolute abs_path = is_absolute base_path) ->
     File_init base_path abs_path w = (Raise ValueError_relative_to, w)) /\
  (base_path `prefix_of` abs_path -> is_absolute abs_path = is_absolute base_path ->
   st_size w abs_path = None ->
     File_init base_path abs_path w = (Raise OSError, w)) /\
  (forall e w', File_init base_path abs_path w = (Raise e, w') ->
     w' = w /\ (e = ValueError_relative_to \/ e = OSError)) /\
  ((exists r w', File_init base_path abs_path w = (Return r, w')) <->
   base_path `prefix_of` abs_path /\ is_absolute abs_path = is_absolute base_path /\
   is_Some (st_size w abs_path)) /\
  (is_absolute abs_path = true ->
     File_init [] abs_path w = (Raise ValueError_relative_to, w)).
Proof.
  split; [|split; [|split; [|split]]].
  - intros Hn. unfold File_init. rewrite relative_to_below. by rewrite decide_False.
  - intros Hp Habs Hstat. unfold File_init. rewrite relative_to_below.
    rewrite decide_True by done. rewrite run_bind. unfold stat_st_size. by rewrite Hstat.
  - intros e w'. unfold File_init. rewrite relative_to_below.
    destruct (decide _); [|intros [= <- <-]; eauto].
    rewrite run_bind. unfold stat_st_size.
    destruct (st_size w abs_path); [done|]. intros [= <- <-]. eauto.
  - unfold File_init. rewrite relative_to_below.
    destruct (decide _) as [[Hp Habs]|Hn].
    + rewrite run_bind. unfold stat_st_size.
      destruct (st_size w abs_path) as [n|].
      * split; [by intros _|]. intros _. by eexists _, _.
      * split; [by intros (? & ? & ?)|]. by intros (_ & _ & [? ?]).
    + split; [by intros (? & ? & ?)|]. intros (? & ? & _). by destruct Hn.
  - intros Habs. unfold File_init. rewrite relative_to_below.
    rewrite decide_False; [done|]. intros [_ E]. by rewrite Habs in E.
Qed.

Lemma feed_hasher_no_chunk fuel rest fed : feed_hasher fuel 0 rest fed = fed.
Proof. by destruct fuel. Qed.

(** X3. [__create_full_hash] reads the file in chunks and returns the sha256
    of the whole content whatever the chunk size, as long as it is positive:
    the chunks the hasher is fed add up to the content.  With a chunk size
    of 0 the first read is empty, the loop ends at once and the digest is the
    one of no byte at all.  A file that cannot be opened gives OSError and
    nothing is put on the record. *)
Theorem create_full_hash_whole_content (r : FileRef) (f : File.t) (w : World)
    (chunk_size : nat) :
  heap w !! r = Some f ->
  __create_full_hash r chunk_size w =
    match disk w (File.abs_path f) with
    | Some c =>
        (Return (sha256_hexdigest (if decide (chunk_size = 0) then [] else c)),
         add_hash_event (FullHashed r) w)
    | None => (Raise OSError, w)
    end.
Proof.
  intros Hr. unfold __create_full_hash.
  rewrite run_bind, (run_deref _ _ _ Hr), run_bind. unfold open_rb.
  destruct (disk w (File.abs_path f)) as [c|]; [|done].
  destruct (decide (chunk_size = 0)) as [->|Hpos].
  - by rewrite feed_hasher_no_chunk.
  - rewrite feed_hasher_fuel by lia. done.
Qed.

Lemma quick_value_unhashed w f c :
  unhashed f -> disk w (File.abs_path f) = Some c ->
  quick_value w f = Some (md5_hexdigest (take quick_chunk_size c)).
Proof. intros [Hq _] Hd. unfold quick_value. by rewrite Hq, Hd. Qed.

Lemma full_value_unhashed w f c :
  unhashed f -> disk w (File.abs_path f) = Some c ->
  full_value w f = Some (sha256_hexdigest c).
Proof. intros [_ Hf] Hd. unfold full_value. by rewrite Hf, Hd. Qed.

(** X4. On two different descriptors without fingerprints, of two readable
    files, [compare_content] answers, and it answers True exactly when the
    recorded sizes, the md5 of the first 4096 bytes and the sha256 of the
    whole contents are the same.  So two files with the same bytes and the
    same recorded size are always found equal, and an answer of False means
    that the sizes or the bytes differ: the test can only err by calling two
    different files equal, and only when their sha256 digests collide. *)
Theorem compare_content_exact (w : World) (self other : FileRef) (s o : File.t)
    (cs co : list byte) :
  self <> other -> heap w !! self = Some s -> heap w !! other = Some o ->
  unhashed s -> unhashed o ->
  disk w (File.abs_path s) = Some cs -> disk w (File.abs_path o) = Some co ->
  exists v,
    fst (compare_content self other w) = Return v /\
    (v = true <->
       File.size s = File.size o /\
       md5_hexdigest (take quick_chunk_size cs) = md5_hexdigest (take quick_chunk_size co) /\
       sha256_hexdigest cs = sha256_hexdigest co) /\
    (File.size s = File.size o -> cs = co -> v = true) /\
    (v = false -> File.size s <> File.size o \/ cs <> co) /\
    (v = true -> (sha256_hexdigest cs = sha256_hexdigest co -> cs = co) -> cs = co).
Proof.
  intros Hne Hs Ho Hus Huo Hcs Hco.
  rewrite (compare_content_verdict _ _ _ _ _ Hne Hs Ho). unfold content_verdict.
  rewrite (quick_value_unhashed _ _ _ Hus Hcs), (quick_value_unhashed _ _ _ Huo Hco).
  rewrite (full_value_unhashed _ _ _ Hus Hcs), (full_value_unhashed _ _ _ Huo Hco).
  assert (forall v : bool,
    (v = true <->
       File.size s = File.size o /\
       md5_hexdigest (take quick_chunk_size cs) = md5_hexdigest (take quick_chunk_size co) /\
       sha256_hexdigest cs = sha256_hexdigest co) ->
    (v = true <->
       File.size s = File.size o /\
       md5_hexdigest (take quick_chunk_size cs) = md5_hexdigest (take quick_chunk_size co) /\
       sha256_hexdigest cs = sha256_hexdigest co) /\
    (File.size s = File.size o -> cs = co -> v = true) /\
    (v = false -> File.size s <> File.size o \/ cs <> co) /\
    (v = true -> (sha256_hexdigest cs = sha256_hexdigest co -> cs = co) -> cs = co)) as Hall.
  { intros v Hv. split; [done|]. split; [|split].
    - intros Hsz ->. by apply Hv.
    - intros -> . destruct (decide (File.size s = File.size o)) as [Hsz|]; [|by left].
      right. intros ->. by assert (false = true) by by apply Hv.
    - intros Ht Hinj. apply Hinj. by apply Hv in Ht as (_ & _ & ?). }
  destruct (File.size s =? File.size o)%N eqn:Hsz.
  - apply N.eqb_eq in Hsz. case_bool_decide as Hq.
    + eexists. split; [reflexivity|]. apply Hall.
      rewrite bool_decide_eq_true. split; [by intros ?|by intros (_ & _ & ?)].
    + exists false. split; [done|]. apply Hall. split; [done|by intros (_ & ? & _)].
  - apply N.eqb_neq in Hsz. exists false. split; [done|]. apply Hall.
    split; [done|by intros (? & _)].
Qed.

Lemma keeps_update (P : World -> Prop) r g :
  (forall w f, P w -> heap w !! r = Some f -> P (set_heap (<[r := g f]> (heap w)) w)) ->
  keeps P (update r g).
Proof.
  intros H w Hw. unfold update. destruct (heap w !! r) eqn:E; [|done]. simpl. eauto.
Qed.

Lemma only_fingerprints_refl T w : only_fingerprints T w w.
Proof.
  split; [done|]. split; [done|]. split; [by exists []; rewrite app_nil_r|].
  intros r f Hr. exists f. by repeat split.
Qed.

Lemma only_fingerprints_log T w0 w e :
  only_fingerprints T w0 w -> only_fingerprints T w0 (add_hash_event e w).
Proof.
  intros (Hd & Hl & [l Hlog] & Hh). split; [done|]. split; [done|]. split; [|done].
  exists (l ++ [e]). simpl. by rewrite Hlog, app_assoc.
Qed.

Lemma only_fingerprints_set (T : FileRef -> Prop) w0 w r f g :
  T r -> heap w !! r = Some f -> same_file f (g f) ->
  only_fingerprints T w0 w -> only_fingerprints T w0 (set_heap (<[r := g f]> (heap w)) w).
Proof.
  intros HT Hr Hsame (Hd & Hl & Hlog & Hh).
  split; [done|]. split; [by simpl; rewrite length_insert|]. split; [done|].
  intros r' f0 Hr'. destruct (Hh _ _ Hr') as (f1 & Hf1 & Hs1 & Hu1). simpl.
  destruct (decide (r = r')) as [<-|Hne].
  - exists (g f). rewrite list_lookup_insert_eq by by eapply lookup_lt_Some.
    split; [done|]. split; [|done].
    assert (f1 = f) as -> by congruence.
    destruct Hs1 as (?&?&?&?&?), Hsame as (?&?&?&?&?).
    repeat split; congruence.
  - exists f1. by rewrite list_lookup_insert_ne.
Qed.

Lemma ensure_quick_hash_only_fingerprints (T : FileRef -> Prop) w0 r :
  T r -> keeps (only_fingerprints T w0) (ensure_quick_hash r).
Proof.
  intros HT. unfold ensure_quick_hash, __create_quick_hash, open_rb.
  repeat first
    [ apply keeps_modify; intros; by apply only_fingerprints_log
    | apply keeps_update; intros; by apply only_fingerprints_set
    | keeps_step
    | (intros w Hw; by destruct (disk w _)) ].
Qed.

Lemma ensure_full_hash_only_fingerprints (T : FileRef -> Prop) w0 r :
  T r -> keeps (only_fingerprints T w0) (ensure_full_hash r).
Proof.
  intros HT. unfold ensure_full_hash, __create_full_hash, open_rb.
  repeat first
    [ apply keeps_modify; intros; by apply only_fingerprints_log
    | apply keeps_update; intros; by apply only_fingerprints_set
    | keeps_step
    | (intros w Hw; by destruct (disk w _)) ].
Qed.

Lemma compare_content_keeps_on (P : World -> Prop) self other :
  keeps P (ensure_quick_hash self) -> keeps P (ensure_quick_hash other) ->
  keeps P (ensure_full_hash self) -> keeps P (ensure_full_hash other) ->
  keeps P (compare_content self other).
Proof.
  intros. unfold compare_content, compare_quick_hash, compare_full_hash.
  repeat first [assumption | keeps_step].
Qed.

Lemma compare_to_keeps_on (P : World -> Prop) self other :
  keeps P (ensure_quick_hash self) -> keeps P (ensure_quick_hash other) ->
  keeps P (ensure_full_hash self) -> keeps P (ensure_full_hash other) ->
  keeps P (compare_to self other).
Proof.
  intros. unfold compare_to.
  repeat first [by apply compare_content_keeps_on | apply assign_comp_type_keeps | keeps_step].
Qed.

(** X5. Whatever they answer, [compare_content] and [compare_to] do nothing
    to the world but fill in fingerprints of their two arguments: the disk
    is as it was, no descriptor is created or lost, every descriptor keeps
    its name, its paths and its size, every descriptor other than the two
    compared is untouched, and the record of the hashes only grows. *)
Theorem compare_to_only_fingerprints (w : World) (self other : FileRef) :
  only_fingerprints (fun r => r = self \/ r = other) w (snd (compare_content self other w)) /\
  only_fingerprints (fun r => r = self \/ r = other) w (snd (compare_to self other w)).
Proof.
  split.
  - apply compare_content_keeps_on;
      first [ apply ensure_quick_hash_only_fingerprints
            | apply ensure_full_hash_only_fingerprints
            | apply only_fingerprints_refl ]; auto.
  - apply compare_to_keeps_on;
      first [ apply ensure_quick_hash_only_fingerprints
            | apply ensure_full_hash_only_fingerprints
            | apply only_fingerprints_refl ]; auto.
Qed.

(** X6. Two different descriptors of different recorded sizes are classified
    without a file being opened: [compare_to] leaves the world as it is, and
    its category is the one, of the four with different content, that goes
    with the names and the folders: PATH_NAME_DUP, NAME_DUP, UNIQUE, or the
    suppressed PATH_DUP, for which it returns None. *)
Theorem compare_to_different_sizes (w : World) (self other : FileRef) (s o : File.t) :
  self <> other -> heap w !! self = Some s -> heap w !! other = Some o ->
  File.size s <> File.size o ->
  let same_path := bool_decide (parent (File.rel_path s) = parent (File.rel_path o)) in
  let same_name := bool_decide (File.name s = File.name o) in
  compare_to self other w =
    (Return (match same_path, same_name with
             | true, true =>
                 Some {| fileA := self; fileB := other; comp_type := PATH_NAME_DUP |}
             | false, true =>
                 Some {| fileA := self; fileB := other; comp_type := NAME_DUP |}
             | false, false =>
                 Some {| fileA := self; fileB := other; comp_type := UNIQUE |}
             | true, false => None
             end), w).
Proof.
  intros Hne Hs Ho Hsz same_path same_name.
  rewrite (run_compare_to _ _ _ _ _ Hne Hs Ho), (run_compare_content _ _ _ _ _ Hs Ho).
  apply N.eqb_neq in Hsz. rewrite Hsz. cbv zeta.
  fold same_path same_name. by destruct same_path, same_name.
Qed.

End file_further.


(** * Further properties of comparison_manager.py: classification *)

(** ** What a computation can raise *)

Lemma safe_bind {S A B} (E : exn -> Prop) (P : S -> Prop) (m : M S A) (k : A -> M S B) :
  safe E P m -> (forall a, safe E P (k a)) -> safe E P (m ≫= k).
Proof.
  intros Hm Hk s Hs. rewrite run_bind. destruct (Hm s Hs) as [HP HE].
  destruct (m s) as [[a|e] s1]; simpl in *; [by apply Hk|done].
Qed.

Lemma safe_ret {S A} (E : exn -> Prop) (P : S -> Prop) (a : A) : safe E P (mret a : M S A).
Proof. by intros s. Qed.

Lemma safe_gets {S A} (E : exn -> Prop) (P : S -> Prop) (f : S -> A) : safe E P (gets f).
Proof. by intros s. Qed.

Lemma safe_modify {S} (E : exn -> Prop) (P : S -> Prop) (f : S -> S) :
  (forall s, P s -> P (f s)) -> safe E P (modify f).
Proof. intros Hf s Hs. split; [by apply Hf|done]. Qed.

Lemma safe_for_each {S A} (E : exn -> Prop) (P : S -> Prop) (l : list A)
    (body : A -> M S unit) :
  (forall x, x ∈ l -> safe E P (body x)) -> safe E P (for_each l body).
Proof.
  induction l as [|x l IH]; intros Hbody; simpl; [apply safe_ret|].
  apply safe_bind; [apply Hbody; left|intros _].
  apply IH. intros y Hy. apply Hbody. by right.
Qed.

Lemma keeps_safe {S A} (P : S -> Prop) (m : M S A) : keeps P m -> safe (fun _ => True) P m.
Proof. intros Hm s Hs. split; [by apply Hm|]. by destruct (m s) as [[?|?] ?]. Qed.

Lemma safe_keeps {S A} (E : exn -> Prop) (P : S -> Prop) (m : M S A) : safe E P m -> keeps P m.
Proof. intros Hm s Hs. by apply Hm. Qed.

Lemma safe_returns {S A} (P : S -> Prop) (m : M S A) s :
  safe (fun _ => False) P m -> P s -> exists a s', m s = (Return a, s') /\ P s'.
Proof.
  intros Hm Hs. destruct (Hm s Hs) as [HP HE].
  destruct (m s) as [[a|e] s']; simpl in *; [by eexists _, _|done].
Qed.

Lemma safe_raises {S A} (E : exn -> Prop) (P : S -> Prop) (m : M S A) s e s' :
  safe E P m -> P s -> m s = (Raise e, s') -> E e.
Proof. intros Hm Hs Hrun. destruct (Hm s Hs) as [_ HE]. by rewrite Hrun in HE. Qed.

Section classification_further.
Context {hashlib : Hashlib} {CI : Type} {index_ops : ComparisonIndex CI} {cli : Cli}.

Lemma safe_in_world {A} (E : exn -> Prop) (Q : World -> Prop) (m : M World A) :
  safe E Q m -> safe E (fun s : Sys CI => Q (world s)) (in_world m).
Proof. intros Hm s Hs. rewrite run_in_world. simpl. by apply Hm. Qed.

(** ** The loops of [add_dir_index], for a property of the state that the
    writes to the cache and to the buckets keep *)

Lemma compare_group_loop_safe (E : exn -> Prop) (P : Sys CI -> Prop) file group acc :
  (forall other, other ∈ group -> file <> other ->
     safe E P (in_world (compare_to file other))) ->
  safe E P (compare_group_loop file group acc).
Proof.
  revert acc. induction group as [|other group IH]; intros acc Hcmp; simpl.
  - apply safe_ret.
  - assert (forall acc', safe E P (compare_group_loop file group acc')) as IH'.
    { intros acc'. apply IH. intros o Ho. apply Hcmp. by right. }
    unfold cache_get.
    apply safe_bind; [apply safe_gets|intros cached1].
    apply safe_bind; [apply safe_gets|intros cached2].
    destruct (bool_decide (file <> other)) eqn:Hne; simpl; [|apply IH'].
    apply bool_decide_eq_true in Hne.
    destruct (negb _); [|apply IH'].
    apply safe_bind; [apply Hcmp; [left|done]|].
    intros [c|]; apply IH'.
Qed.

Lemma add_comparisons_loop_safe (E : exn -> Prop) (P : Sys CI -> Prop) cs found :
  (forall s k c, P s -> P (cache_set k c s)) ->
  (forall s t method, P s -> P (on_index t method s)) ->
  safe E P (add_comparisons_loop cs found).
Proof.
  intros Hcache Hindex. revert found.
  induction cs as [|c cs IH]; intros found; simpl; [apply safe_ret|].
  apply safe_bind; [apply safe_modify; intros; by apply Hcache|intros _].
  destruct (bool_decide _); [|apply IH].
  apply safe_bind; [apply safe_modify; intros; by apply Hindex|intros _; apply IH].
Qed.

Lemma add_dir_index_safe (E : exn -> Prop) (P : Sys CI -> Prop) d :
  (forall s k c, P s -> P (cache_set k c s)) ->
  (forall s t method, P s -> P (on_index t method s)) ->
  (forall r, listed d r -> safe E P (in_world (deref r))) ->
  (forall a b, listed d a -> listed d b -> a <> b ->
     safe E P (in_world (compare_to a b))) ->
  safe E P (add_dir_index d).
Proof.
  intros Hcache Hindex Hderef Hcmp. apply safe_for_each. intros file Hfile.
  assert (listed d file) as Hlisted by by left.
  unfold add_dir_index_file.
  apply safe_bind; [by apply Hderef|intros f].
  apply safe_bind; [|intros names].
  { apply compare_group_loop_safe. intros other Ho Hne.
    apply Hcmp; [done| |done]. right; left. by eexists. }
  apply safe_bind; [by apply add_comparisons_loop_safe|intros found_name].
  apply safe_bind; [|intros sizes].
  { apply compare_group_loop_safe. intros other Ho Hne.
    apply Hcmp; [done| |done]. right; right. by eexists. }
  apply safe_bind; [by apply add_comparisons_loop_safe|intros found_size].
  destruct (_ && _); [|apply safe_ret].
  apply safe_modify. intros; by apply Hindex.
Qed.

(** ** The steps of file.py, on the descriptors of an index *)

Lemma only_fingerprints_lookup T w0 w r :
  only_fingerprints T w0 w -> is_Some (heap w0 !! r) -> is_Some (heap w !! r).
Proof. intros (_ & _ & _ & Hh) [f Hf]. destruct (Hh _ _ Hf) as (f' & ? & _). by exists f'. Qed.

Lemma only_fingerprints_origin T w0 w r f :
  only_fingerprints T w0 w -> heap w !! r = Some f ->
  exists f0, heap w0 !! r = Some f0 /\ same_file f0 f.
Proof.
  intros (_ & Hlen & _ & Hh) Hf.
  destruct (heap w0 !! r) as [f0|] eqn:E.
  - destruct (Hh _ _ E) as (f' & Hf' & Hsame & _). exists f0. split; [done|]. congruence.
  - apply lookup_ge_None in E. apply lookup_lt_Some in Hf. lia.
Qed.

Lemma deref_safe (E : exn -> Prop) T w0 r :
  is_Some (heap w0 !! r) -> safe E (only_fingerprints T w0) (deref r).
Proof.
  intros Hr w Hw. destruct (only_fingerprints_lookup _ _ _ _ Hw Hr) as [f Hf].
  by rewrite (run_deref _ _ _ Hf).
Qed.

Lemma compare_to_keeps_only_fingerprints (T : FileRef -> Prop) w0 a b :
  T a -> T b -> keeps (only_fingerprints T w0) (compare_to a b).
Proof.
  intros Ha Hb. apply compare_to_keeps_on;
    first [by apply ensure_quick_hash_only_fingerprints
          | by apply ensure_full_hash_only_fingerprints].
Qed.

Lemma compare_to_safe_OSError (T : FileRef -> Prop) w0 a b :
  T a -> T b -> a <> b -> is_Some (heap w0 !! a) -> is_Some (heap w0 !! b) ->
  safe (eq OSError) (only_fingerprints T w0) (compare_to a b).
Proof.
  intros Ta Tb Hne Ha Hb w Hw. split; [by apply compare_to_keeps_only_fingerprints|].
  destruct (only_fingerprints_lookup _ _ _ _ Hw Ha) as [fa Hfa].
  destruct (only_fingerprints_lookup _ _ _ _ Hw Hb) as [fb Hfb].
  rewrite (run_compare_to _ _ _ _ _ Hne Hfa Hfb).
  pose proof (compare_content_verdict _ _ _ _ _ Hne Hfa Hfb) as Hv.
  destruct (compare_content a b w) as [[v|e] w']; simpl in *; [done|].
  symmetry. by eapply content_verdict_raises.
Qed.

Lemma readable_quick_value w f :
  is_Some (disk w (File.abs_path f)) -> is_Some (quick_value w f).
Proof.
  intros [c Hc]. unfold quick_value. destruct (truthy _) eqn:Ht.
  - destruct (truthy_Some _ Ht) as [q ->]. by eexists.
  - rewrite Hc. by eexists.
Qed.

Lemma readable_full_value w f :
  is_Some (disk w (File.abs_path f)) -> is_Some (full_value w f).
Proof.
  intros [c Hc]. unfold full_value. destruct (truthy _) eqn:Ht.
  - destruct (truthy_Some _ Ht) as [q ->]. by eexists.
  - rewrite Hc. by eexists.
Qed.

Lemma readable_verdict w s o :
  is_Some (disk w (File.abs_path s)) -> is_Some (disk w (File.abs_path o)) ->
  exists v, content_verdict w s o = Return v.
Proof.
  intros Hs Ho. unfold content_verdict.
  destruct (readable_quick_value _ _ Hs) as [qs ->], (readable_quick_value _ _ Ho) as [qo ->].
  destruct (readable_full_value _ _ Hs) as [fs ->], (readable_full_value _ _ Ho) as [fo ->].
  destruct (_ =? _)%N; [|by eexists]. destruct (bool_decide _); by eexists.
Qed.

Lemma only_fingerprints_readable d w0 w r f :
  readable_index d w0 -> only_fingerprints (listed d) w0 w -> listed d r ->
  heap w !! r = Some f -> is_Some (disk w (File.abs_path f)).
Proof.
  intros Hread Hw Hr Hf.
  destruct (only_fingerprints_origin _ _ _ _ _ Hw Hf) as (f0 & Hf0 & Hsame).
  destruct Hw as (-> & _). destruct Hsame as (_ & _ & _ & -> & _). by eapply Hread.
Qed.

Lemma compare_to_safe_readable d w0 a b :
  valid_index d w0 -> readable_index d w0 -> listed d a -> listed d b -> a <> b ->
  safe (fun _ => False) (only_fingerprints (listed d) w0) (compare_to a b).
Proof.
  intros Hvalid Hread La Lb Hne w Hw.
  split; [by apply compare_to_keeps_only_fingerprints|].
  destruct (only_fingerprints_lookup _ _ _ _ Hw (Hvalid _ La)) as [fa Hfa].
  destruct (only_fingerprints_lookup _ _ _ _ Hw (Hvalid _ Lb)) as [fb Hfb].
  rewrite (run_compare_to _ _ _ _ _ Hne Hfa Hfb).
  pose proof (compare_content_verdict _ _ _ _ _ Hne Hfa Hfb) as Hv.
  destruct (readable_verdict w fa fb) as [v Hret];
    [exact (only_fingerprints_readable _ _ _ _ _ Hread Hw La Hfa)
    |exact (only_fingerprints_readable _ _ _ _ _ Hread Hw Lb Hfb)|].
  rewrite Hret in Hv.
  destruct (compare_content a b w) as [[v'|e] w']; [exact I|discriminate Hv].
Qed.

(** X7. The only exception that comes out of [add_dir_index] is the OSError
    of a file that cannot be read: it never compares a file to itself, even
    when the file is listed in its own groups (so not the ValueError of
    [compare_to]), and it finds a category for every pair it compares. *)
Theorem add_dir_index_raises_only_OSError (d : DirIndex) (s s' : Sys CI) (e : exn) :
  valid_index d (world s) ->
  add_dir_index d s = (Raise e, s') ->
  e = OSError.
Proof.
  intros Hvalid Hrun. symmetry.
  eapply (safe_raises (eq OSError)
            (fun s1 : Sys CI => only_fingerprints (listed d) (world s) (world s1)));
    [|apply only_fingerprints_refl|exact Hrun].
  apply add_dir_index_safe; [done|done|..].
  - intros r Hr. apply safe_in_world, deref_safe. by apply Hvalid.
  - intros a b Ha Hb Hne. apply safe_in_world.
    apply compare_to_safe_OSError; auto.
Qed.

(** X8. When the file of every descriptor that the index lists can be read,
    [add_dir_index] runs to its end: every file of the list is classified,
    and the files are still all readable afterwards. *)
Theorem add_dir_index_completes (d : DirIndex) (s : Sys CI) :
  valid_index d (world s) ->
  readable_index d (world s) ->
  exists s', add_dir_index d s = (Return (), s') /\
    valid_index d (world s') /\ readable_index d (world s').
Proof.
  intros Hvalid Hread.
  destruct (safe_returns
              (fun s1 : Sys CI => only_fingerprints (listed d) (world s) (world s1))
              (add_dir_index d) s) as ([] & s' & Hrun & Hs').
  - apply add_dir_index_safe; [done|done|..].
    + intros r Hr. apply safe_in_world, deref_safe. by apply Hvalid.
    + intros a b Ha Hb Hne. apply safe_in_world. by apply compare_to_safe_readable.
  - apply only_fingerprints_refl.
  - exists s'. split; [done|]. split.
    + intros r Hr. eapply only_fingerprints_lookup; [exact Hs'|by apply Hvalid].
    + intros r f Hr Hf. by eapply only_fingerprints_readable.
Qed.

(** X9. Classification asks the user nothing and writes nothing: through
    [add_dir_index], whatever it answers, the dialogue with the user is as it
    was, the disk is as it was, the store holds the same descriptors but for
    fingerprints filled in, and only in descriptors that the index lists,
    and the pair cache loses no key. *)
Theorem add_dir_index_frame (d : DirIndex) (s : Sys CI) :
  let s' := snd (add_dir_index d s) in
  cli_log s' = cli_log s /\
  only_fingerprints (listed d) (world s) (world s') /\
  (forall k, is_Some (comparison_cache s !! k) -> is_Some (comparison_cache s' !! k)).
Proof.
  cbv zeta. split; [|split].
  - apply (safe_keeps (fun _ => True) (fun s1 : Sys CI => cli_log s1 = cli_log s));
      [|done].
    apply add_dir_index_safe; [done|done|..]; intros; by apply keeps_safe, keeps_in_world.
  - apply (safe_keeps (fun _ => True)
             (fun s1 : Sys CI => only_fingerprints (listed d) (world s) (world s1)));
      [|apply only_fingerprints_refl].
    apply add_dir_index_safe; [done|done|..]; intros; apply safe_in_world, keeps_safe.
    + apply keeps_deref.
    + by apply compare_to_keeps_only_fingerprints.
  - apply (safe_keeps (fun _ => True)
             (fun s1 : Sys CI => forall k, is_Some (comparison_cache s !! k) ->
                                           is_Some (comparison_cache s1 !! k)));
      [|done].
    apply add_dir_index_safe.
    + intros s1 k c Hs1 k' Hk'. simpl. apply lookup_insert_is_Some'. right. by apply Hs1.
    + done.
    + intros. by apply keeps_safe, keeps_in_world.
    + intros. by apply keeps_safe, keeps_in_world.
Qed.

(** ** [_compare_file_against_group] and [_add_comparisons] *)

Lemma compare_group_loop_skip file group acc (s : Sys CI) :
  Forall (eq file) group -> compare_group_loop file group acc s = (Return acc, s).
Proof.
  induction 1 as [|other group <- _ IH]; [done|].
  rewrite compare_group_loop_cons. by rewrite (bool_decide_eq_false_2 (file <> file)) by auto.
Qed.

Lemma add_comparisons_nil (s : Sys CI) : _add_comparisons [] s = (Return false, s).
Proof. reflexivity. Qed.

(** X10. A file that shares its name and its size with no other file of the
    index is filed under UNIQUE without a file being opened: when the group
    of its name and the group of its size hold nothing but the file itself
    (or nothing at all) the one effect of its classification is the call
    [add_file] to the bucket of UNIQUE. *)
Theorem add_dir_index_file_alone (d : DirIndex) (file : FileRef) (f : File.t) (s : Sys CI) :
  heap (world s) !! file = Some f ->
  Forall (eq file) (name_index d (File.name f)) ->
  Forall (eq file) (size_index d (File.size f)) ->
  add_dir_index_file d file s = (Return (), on_index UNIQUE (add_file file) s).
Proof.
  intros Hf Hname Hsize. unfold add_dir_index_file.
  rewrite run_bind, run_in_world, (run_deref _ _ _ Hf). simpl. rewrite sys_eta.
  unfold _compare_file_against_group.
  rewrite run_bind, (compare_group_loop_skip _ _ _ _ Hname).
  rewrite run_bind, add_comparisons_nil.
  rewrite run_bind, (compare_group_loop_skip _ _ _ _ Hsize).
  rewrite run_bind, add_comparisons_nil.
  reflexivity.
Qed.

Lemma compare_group_loop_order file group :
  forall acc (s s' : Sys CI) cs,
    compare_group_loop file group acc s = (Return cs, s') ->
    exists new, cs = acc ++ new /\
      fileB <$> new `sublist_of` filter (fun r => r <> file) group /\
      Forall (fun c => fileA c = file) new.
Proof.
  induction group as [|other group IH]; intros acc s s' cs Hrun.
  - injection Hrun as <- <-. exists []. rewrite app_nil_r. by repeat split.
  - rewrite compare_group_loop_cons in Hrun.
    destruct (bool_decide (file <> other)) eqn:Hne; simpl in Hrun.
    + apply bool_decide_eq_true in Hne.
      rewrite filter_cons_True by done.
      destruct (negb _).
      * destruct (in_world (compare_to file other) s) as [[[c|]|e] s1] eqn:Hcmp; [| |done].
        -- destruct (IH _ _ _ _ Hrun) as (new & -> & Hsub & Hall).
           pose proof (returns_in_world _ _ (compare_to_returns file other) _ _ _ Hcmp c eq_refl)
             as (HA & HB & _).
           exists (c :: new). rewrite <- app_assoc. split; [done|]. split.
           ++ rewrite fmap_cons, HB. by apply sublist_skip.
           ++ by constructor.
        -- destruct (IH _ _ _ _ Hrun) as (new & -> & Hsub & Hall).
           exists new. split; [done|]. split; [by apply sublist_cons|done].
      * destruct (IH _ _ _ _ Hrun) as (new & -> & Hsub & Hall).
        exists new. split; [done|]. split; [by apply sublist_cons|done].
    + apply bool_decide_eq_false in Hne.
      rewrite filter_cons_False by (intros ?; apply Hne; congruence). by eapply IH.
Qed.

(** X11. The outcomes that [_compare_file_against_group] returns follow the
    order of the group: their second files are members of the group other
    than the file itself, in the order of the group and with no more
    repetitions than the group has, and their first file is the file.  The
    method changes neither a bucket, nor the pair cache, nor the dialogue. *)
Theorem compare_file_against_group_order (file : FileRef) (group : list FileRef)
    (s s' : Sys CI) (cs : list Comparison) :
  _compare_file_against_group file group s = (Return cs, s') ->
  fileB <$> cs `sublist_of` filter (fun r => r <> file) group /\
  Forall (fun c => fileA c = file) cs /\
  length cs <= length group /\
  comparisons s' = comparisons s /\
  comparison_cache s' = comparison_cache s /\
  cli_log s' = cli_log s.
Proof.
  intros Hrun.
  destruct (compare_group_loop_order _ _ _ _ _ _ Hrun) as (new & -> & Hsub & Hall).
  simpl. split; [done|]. split; [done|]. split.
  - apply sublist_length in Hsub. rewrite length_fmap in Hsub.
    etrans; [exact Hsub|]. apply length_filter.
  - pose proof (compare_group_loop_frame file group [] s) as Hframe.
    unfold _compare_file_against_group in Hrun. by rewrite Hrun in Hframe.
Qed.

Lemma add_comparisons_loop_cache cs :
  forall found (s : Sys CI),
    comparison_cache (snd (add_comparisons_loop cs found s)) =
      foldl (fun m c => <[pair_key c := c]> m) (comparison_cache s) cs.
Proof.
  induction cs as [|c cs IH]; intros found s; [done|].
  simpl add_comparisons_loop. rewrite run_bind. unfold modify at 1. cbv beta iota.
  destruct (bool_decide _).
  - rewrite run_bind. unfold modify at 1. cbv beta iota. by rewrite IH.
  - by rewrite IH.
Qed.

Lemma add_comparisons_loop_app l1 :
  forall l2 found (s : Sys CI),
    add_comparisons_loop (l1 ++ l2) found s =
      add_comparisons_loop l2
        (found || bool_decide (Exists (fun c => comp_type c <> UNIQUE) l1))
        (snd (add_comparisons_loop l1 found s)).
Proof.
  induction l1 as [|c l1 IH]; intros l2 found s.
  - assert (bool_decide (Exists (fun c : Comparison => comp_type c <> UNIQUE) []) = false)
      as -> by (apply bool_decide_eq_false_2; by intros ?%Exists_nil).
    by rewrite orb_false_r.
  - simpl app. simpl add_comparisons_loop.
    rewrite !run_bind. unfold modify at 1 3. cbv beta iota.
    destruct (decide (comp_type c <> UNIQUE)) as [Hc|Hc].
    + rewrite !(bool_decide_eq_true_2 _ Hc).
      rewrite !run_bind. unfold modify. cbv beta iota. rewrite IH.
      rewrite (bool_decide_eq_true_2 (Exists _ (c :: l1))) by by left.
      by rewrite orb_true_r.
    + rewrite !(bool_decide_eq_false_2 _ Hc).
      rewrite IH. do 2 f_equal. apply bool_decide_ext. rewrite Exists_cons.
      split; [by right|by intros [?|?]].
Qed.

Lemma add_comparisons_loop_found cs :
  forall f1 f2 (s : Sys CI),
    snd (add_comparisons_loop cs f1 s) = snd (add_comparisons_loop cs f2 s).
Proof.
  induction cs as [|c cs IH]; intros f1 f2 s; [done|].
  simpl add_comparisons_loop. rewrite !run_bind. unfold modify at 1 3. cbv beta iota.
  destruct (bool_decide _); [|apply IH].
  rewrite !run_bind. unfold modify. cbv beta iota. apply IH.
Qed.

Lemma foldl_insert_last (m : gmap (obj * obj) Comparison) l1 c l2 :
  pair_key c ∉ pair_key <$> l2 ->
  foldl (fun m c => <[pair_key c := c]> m) m (l1 ++ c :: l2) !! pair_key c = Some c.
Proof.
  rewrite foldl_app. simpl. generalize (foldl (fun m c => <[pair_key c := c]> m) m l1).
  intros m'. revert m' . induction l2 as [|c2 l2 IH] using rev_ind; intros m' Hnot.
  - simpl. by rewrite lookup_insert_eq.
  - rewrite foldl_app. simpl. rewrite fmap_app in Hnot.
    rewrite lookup_insert_ne.
    + apply IH. intros Hin. apply Hnot. apply elem_of_app. by left.
    + intros E. apply Hnot. apply elem_of_app. right. rewrite <- E. by left.
Qed.

Lemma foldl_insert_other (m : gmap (obj * obj) Comparison) l k :
  k ∉ pair_key <$> l ->
  foldl (fun m c => <[pair_key c := c]> m) m l !! k = m !! k.
Proof.
  revert m. induction l as [|c l IH]; intros m Hk; [done|].
  simpl. rewrite IH by (intros Hin; apply Hk; by right).
  apply lookup_insert_ne. intros E. apply Hk. rewrite <- E. by left.
Qed.

(** X12. [_add_comparisons] never raises, and answers True exactly when one
    of the outcomes is of a category other than UNIQUE (so False on the empty
    list).  Afterwards the pair cache holds, for every pair of the list, the
    last outcome listed for that pair, and is as it was for every other key.
    Adding a list in two parts, one after the other, leaves the same state
    as adding it at once, and the answer for the whole list is the
    disjunction of the answers for the parts. *)
Theorem add_comparisons_cache (cs : list Comparison) (s : Sys CI) :
  exists s',
    _add_comparisons cs s =
      (Return (bool_decide (Exists (fun c => comp_type c <> UNIQUE) cs)), s') /\
    (forall l1 c l2, cs = l1 ++ c :: l2 -> pair_key c ∉ pair_key <$> l2 ->
       comparison_cache s' !! pair_key c = Some c) /\
    (forall k, k ∉ pair_key <$> cs -> comparison_cache s' !! k = comparison_cache s !! k) /\
    (forall l1 l2, cs = l1 ++ l2 ->
       snd (_add_comparisons l2 (snd (_add_comparisons l1 s))) = s' /\
       bool_decide (Exists (fun c => comp_type c <> UNIQUE) cs) =
         bool_decide (Exists (fun c => comp_type c <> UNIQUE) l1)
         || bool_decide (Exists (fun c => comp_type c <> UNIQUE) l2)).
Proof.
  unfold _add_comparisons.
  destruct (add_comparisons_loop_run cs false s) as (s' & Hrun & _).
  exists s'. split; [exact Hrun|].
  assert (comparison_cache s' =
          foldl (fun m c => <[pair_key c := c]> m) (comparison_cache s) cs) as Hcache.
  { rewrite <- (add_comparisons_loop_cache cs false s). by rewrite Hrun. }
  split; [|split].
  - intros l1 c l2 -> Hnot. rewrite Hcache. by apply foldl_insert_last.
  - intros k Hk. rewrite Hcache. by apply foldl_insert_other.
  - intros l1 l2 ->. split.
    + rewrite add_comparisons_loop_app in Hrun.
      rewrite (add_comparisons_loop_found l2 false
                 (false || bool_decide (Exists (fun c => comp_type c <> UNIQUE) l1))).
      by rewrite Hrun.
    + destruct (bool_decide (Exists _ l1)) eqn:E1, (bool_decide (Exists _ l2)) eqn:E2;
        simpl.
      * apply bool_decide_eq_true. apply bool_decide_eq_true in E1.
        apply Exists_app. by left.
      * apply bool_decide_eq_true. apply bool_decide_eq_true in E1.
        apply Exists_app. by left.
      * apply bool_decide_eq_true. apply bool_decide_eq_true in E2.
        apply Exists_app. by right.
      * apply bool_decide_eq_false. apply bool_decide_eq_false in E1, E2.
        by intros [?|?]%Exists_app.
Qed.

End classification_further.


(** * Further properties of comparison_manager.py: the pair cache and
      resolution *)

Section resolution_further.
Context {hashlib : Hashlib} {CI : Type} {index_ops : ComparisonIndex CI} {cli : Cli}.

(** ** What the passes of resolution keep *)

Lemma resolve_dup_group_keeps (P : Sys CI -> Prop) type to_remove group :
  (forall s t method, P s -> P (on_index t method s)) ->
  (forall s e, P s -> P (add_cli_event e s)) ->
  keeps P (resolve_dup_group type to_remove group).
Proof.
  intros Hindex Hcli. unfold resolve_dup_group.
  apply keeps_bind; [apply keeps_modify; intros; by apply Hcli|intros _].
  apply keeps_bind; [|intros _].
  { destruct (negb _); [apply keeps_modify; intros; by apply Hcli|apply keeps_ret]. }
  apply keeps_bind; [intros s Hs; by apply Hcli|intros user_choice].
  destruct (_ =? _)%nat.
  - destruct group; [apply keeps_raise|apply keeps_ret].
  - apply keeps_bind; [apply keeps_modify; intros; by apply Hindex|intros; apply keeps_ret].
Qed.

Lemma resolve_matches_keeps (P : Sys CI -> Prop) :
  (forall s t method, P s -> P (on_index t method s)) ->
  keeps P resolve_matches.
Proof.
  intros Hindex. apply for_items_keeps. intros _ [|first group]; [apply keeps_raise|].
  apply keeps_modify. intros; by apply Hindex.
Qed.

Lemma resolve_dups_keeps (P : Sys CI -> Prop) type :
  (forall s t method, P s -> P (on_index t method s)) ->
  (forall s e, P s -> P (add_cli_event e s)) ->
  keeps P (resolve_dups type).
Proof.
  intros Hindex Hcli. unfold resolve_dups. apply keeps_bind; [|intros to_remove].
  - apply for_items_keeps. intros acc group. by apply resolve_dup_group_keeps.
  - apply keeps_for_each. intros file. apply keeps_modify. intros; by apply Hindex.
Qed.

Lemma resolve_all_keeps (P : Sys CI -> Prop) :
  (forall s t method, P s -> P (on_index t method s)) ->
  (forall s e, P s -> P (add_cli_event e s)) ->
  keeps P resolve_all.
Proof.
  intros Hindex Hcli. apply keeps_for_each. intros type. unfold resolve_type.
  destruct (bool_decide _); [by apply resolve_matches_keeps|].
  destruct (bool_decide _); [apply keeps_ret|by apply resolve_dups_keeps].
Qed.

(** ** The entries of the pair cache *)

Lemma add_comparisons_loop_keeps_consistent cs found :
  Forall (fun c => fileA c <> fileB c /\ comp_type c <> PATH_DUP) cs ->
  keeps (cache_consistent (CI := CI)) (add_comparisons_loop cs found).
Proof.
  intros Hcs. revert found.
  induction Hcs as [|c cs [Hab Hc] Hcs IH]; intros found; simpl.
  - apply keeps_ret.
  - apply keeps_bind; [|intros _].
    + apply keeps_modify. intros s Hs k c'. simpl.
      destruct (decide ((OFile (fileA c), OFile (fileB c)) = k)) as [<-|Hk].
      * rewrite lookup_insert_eq. by intros [= <-].
      * rewrite lookup_insert_ne by done. apply Hs.
    + destruct (bool_decide _); [|apply IH].
      apply keeps_bind; [by apply keeps_modify|intros _; apply IH].
Qed.

Lemma outcomes_consistent file group cs :
  Forall (outcome_of file group) cs ->
  Forall (fun c => fileA c <> fileB c /\ comp_type c <> PATH_DUP) cs.
Proof.
  intros H. eapply Forall_impl; [exact H|].
  intros c (HA & _ & HB & Hc). split; [congruence|done].
Qed.

Lemma add_dir_index_keeps_consistent d :
  keeps (cache_consistent (CI := CI)) (add_dir_index d).
Proof.
  apply keeps_for_each. intros file. unfold add_dir_index_file.
  apply keeps_bind; [by apply keeps_in_world|intros f].
  eapply keeps_bind_with;
    [by apply compare_group_loop_keeps|apply compare_file_against_group_returns|].
  intros names Hnames.
  apply keeps_bind;
    [eapply add_comparisons_loop_keeps_consistent, outcomes_consistent, Hnames|].
  intros found_name.
  eapply keeps_bind_with;
    [by apply compare_group_loop_keeps|apply compare_file_against_group_returns|].
  intros sizes Hsizes.
  apply keeps_bind;
    [eapply add_comparisons_loop_keeps_consistent, outcomes_consistent, Hsizes|].
  intros found_size.
  destruct (_ && _); [by apply keeps_modify|apply keeps_ret].
Qed.

Lemma call_keeps_consistent c : keeps (cache_consistent (CI := CI)) (call c).
Proof.
  destruct c as [d| | |type]; simpl.
  - apply add_dir_index_keeps_consistent.
  - by apply resolve_all_keeps.
  - by apply resolve_matches_keeps.
  - by apply resolve_dups_keeps.
Qed.

(** X14. Whatever is called on a new manager, and in whatever order, every
    entry of the pair cache is an outcome kept under the pair of its own two
    files: the two files are different, the key is (fileA, fileB) in that
    order, and the category is never PATH_DUP. *)
Theorem pair_cache_consistent (calls : list manager_call) (w : World) :
  cache_consistent (after_calls calls (ComparisonManager_init w : Sys CI)).
Proof.
  assert (forall s : Sys CI, cache_consistent s -> cache_consistent (after_calls calls s))
    as Hcalls.
  { induction calls as [|c calls IH]; intros s Hs; simpl; [done|].
    apply IH. by apply call_keeps_consistent. }
  apply Hcalls. intros k c. simpl. by rewrite lookup_empty.
Qed.

(** ** How a pass can fail *)

Lemma resolve_matches_loop_fail len :
  forall pos used (s s' : Sys CI) e,
    iter_items len pos used MATCH
      (fun _ matches =>
         match matches with
         | [] => raise IndexError
         | first :: _ => modify (on_index MATCH (set_comparisons (KeepFile first)))
         end) () s = (Raise e, s') ->
    (e = IndexError /\ [] ∈ index_items (comparisons s' MATCH)) \/
    (e = RuntimeError_changed_size /\
     length (index_items (comparisons s' MATCH)) <> used) \/
    (e = RuntimeError_keys_changed /\
     length (index_items (comparisons s' MATCH)) = used /\
     index_items (comparisons s' MATCH) <> []).
Proof.
  induction len as [|len IH]; intros pos used s s' e;
    rewrite iter_items_unfold; (case_bool_decide as Hused;
      [intros [= <- <-]; right; by left|]);
    destruct (next_entry _ pos) as [[i [|first rest]]|] eqn:Hpos; try done.
  - intros [= <- <-]. right. right. split; [done|]. split.
    + by destruct (decide (length (index_items (comparisons s MATCH)) = used)).
    + apply next_entry_item in Hpos. intros Hnil. unfold index_items in Hnil. rewrite Hnil in Hpos.
      by apply elem_of_nil in Hpos.
  - intros [= <- <-]. right. right. split; [done|]. split.
    + by destruct (decide (length (index_items (comparisons s MATCH)) = used)).
    + apply next_entry_item in Hpos. intros Hnil. unfold index_items in Hnil. rewrite Hnil in Hpos.
      by apply elem_of_nil in Hpos.
  - intros [= <- <-]. left. split; [done|]. by eapply next_entry_item.
  - rewrite run_bind. unfold modify at 1. cbv beta iota. apply IH.
Qed.

(** X15. [resolve_matches] can fail in three ways only: with IndexError, at
    a group without a member, which the bucket of MATCH then still holds;
    with the RuntimeError of a dict that changed size while it is iterated,
    when the number of groups of the bucket is no longer the one it was when
    the pass began; and with the RuntimeError of a dict whose keys changed
    while it is iterated, when the bucket has as many groups as it had when
    the pass began and the pass, having made as many turns, still finds an
    entry to visit, so that the dict is not empty. *)
Theorem resolve_matches_failure (s s' : Sys CI) (e : exn) :
  resolve_matches s = (Raise e, s') ->
  (e = IndexError /\ [] ∈ index_items (comparisons s' MATCH)) \/
  (e = RuntimeError_changed_size /\
   length (index_items (comparisons s' MATCH)) <>
   length (index_items (comparisons s MATCH))) \/
  (e = RuntimeError_keys_changed /\
   length (index_items (comparisons s' MATCH)) =
   length (index_items (comparisons s MATCH)) /\
   index_items (comparisons s' MATCH) <> []).
Proof.
  unfold resolve_matches, for_items. rewrite run_bind. unfold gets at 1. cbv beta iota.
  apply resolve_matches_loop_fail.
Qed.

Lemma resolve_dup_group_fail type to_remove g (s s' : Sys CI) e :
  resolve_dup_group type to_remove g s = (Raise e, s') ->
  e = IndexError /\ g = [] /\
  comparisons s' = comparisons s /\
  last (cli_log s') = Some (prompt_keep_options [] []).
Proof.
  unfold resolve_dup_group. rewrite run_bind. unfold modify at 1. cbv beta iota.
  rewrite run_bind.
  set (s1 := add_cli_event (display_files type g) s).
  set (s2 := if negb (content (value type))
             then add_cli_event (prompt_build_diff g) s1 else s1).
  assert ((if negb (content (value type))
           then modify (add_cli_event (prompt_build_diff g))
           else ret ()) s1 = (Return (), s2)) as ->.
  { subst s2. by destruct (negb _). }
  assert (comparisons s2 = comparisons s) as Hcmp2.
  { subst s2. by destruct (negb _). }
  rewrite run_bind. unfold ask_keep_options at 1. cbv beta iota zeta.
  destruct (keep_options (cli_log s2) g) as [|a more]; cbn [length Nat.eqb].
  - destruct g as [|first rest]; [|done]. intros [= <- <-].
    split; [done|]. split; [done|]. split; [done|]. simpl. by rewrite last_snoc.
  - rewrite run_bind. unfold modify at 1. cbv beta iota. done.
Qed.

Lemma resolve_dups_loop_fail type len :
  forall pos used to_remove (s s' : Sys CI) e,
    iter_items len pos used type (resolve_dup_group type) to_remove s = (Raise e, s') ->
    (exists selections,
       comparisons s' type =
         foldl (fun b k => set_comparisons k b) (comparisons s type) selections) /\
    ((e = IndexError /\ [] ∈ index_items (comparisons s' type) /\
      last (cli_log s') = Some (prompt_keep_options [] [])) \/
     (e = RuntimeError_changed_size /\
      length (index_items (comparisons s' type)) <> used) \/
     (e = RuntimeError_keys_changed /\
      length (index_items (comparisons s' type)) = used /\
      index_items (comparisons s' type) <> [])).
Proof.
  induction len as [|len IH]; intros pos used to_remove s s' e;
    rewrite iter_items_unfold; (case_bool_decide as Hused;
      [intros [= <- <-]; split; [by exists []|]; right; by left|]);
    destruct (next_entry _ pos) as [[i g]|] eqn:Hpos; try done.
  - intros [= <- <-]. split; [by exists []|]. right. right. split; [done|]. split.
    + by destruct (decide (length (index_items (comparisons s type)) = used)).
    + apply next_entry_item in Hpos. intros Hnil. unfold index_items in Hnil. rewrite Hnil in Hpos.
      by apply elem_of_nil in Hpos.
  - intros Hrun.
    apply bind_inv in Hrun as [(acc1 & s1 & Hg & Hrest)|(e' & Hg & [= <-])].
    + apply resolve_dup_group_run in Hg as (new1 & _ & _ & _ & Hset1 & _).
      apply IH in Hrest as ([selections Hset2] & Hfail).
      split; [|done]. exists (omap kept_selection new1 ++ selections).
      by rewrite foldl_app, <- Hset1.
    + apply resolve_dup_group_fail in Hg as (-> & -> & Hcmp & Hlast).
      split; [exists []; by rewrite Hcmp|]. left. split; [done|]. split; [|done].
      rewrite Hcmp. by eapply next_entry_item.
Qed.

(** X16. [resolve_dups] can fail in three ways only: with IndexError, when
    the user keeps nothing of a group without a member (the last thing in
    the dialogue is then that prompt, and the bucket still holds the
    group); with the RuntimeError of a dict that changed size while it is
    iterated, when the number of groups of the bucket is no longer the one
    it was when the pass began; and with the RuntimeError of a dict whose
    keys changed while it is iterated, when the bucket has as many groups
    as it had when the pass began and the pass, having made as many turns,
    still finds an entry to visit.  Either way the pass ends before its
    second loop: the bucket was told selections to keep, and nothing was
    removed from it, not even the first members scheduled for removal by
    the groups already answered. *)
Theorem resolve_dups_failure (type : CompType) (s s' : Sys CI) (e : exn) :
  resolve_dups type s = (Raise e, s') ->
  (exists selections,
     comparisons s' type =
       foldl (fun b k => set_comparisons k b) (comparisons s type) selections) /\
  ((e = IndexError /\ [] ∈ index_items (comparisons s' type) /\
    last (cli_log s') = Some (prompt_keep_options [] [])) \/
   (e = RuntimeError_changed_size /\
    length (index_items (comparisons s' type)) <>
    length (index_items (comparisons s type))) \/
   (e = RuntimeError_keys_changed /\
    length (index_items (comparisons s' type)) =
    length (index_items (comparisons s type)) /\
    index_items (comparisons s' type) <> [])).
Proof.
  unfold resolve_dups, for_items. intros Hrun.
  apply bind_inv in Hrun as [(to_remove & s1 & Hloop & Hrem)|(e' & Hloop & [= <-])].
  - destruct (removals_loop_run type to_remove s1) as (s2 & Hrun2 & _).
    by rewrite Hrun2 in Hrem.
  - rewrite run_bind in Hloop. unfold gets at 1 in Hloop. cbv beta iota in Hloop.
    by apply resolve_dups_loop_fail in Hloop.
Qed.

(** ** The dialogue of a pass *)

Lemma resolve_dup_group_dialogue type to_remove g (s : Sys CI) :
  cli_log (snd (resolve_dup_group type to_remove g s)) = dialogue type (cli_log s) [g].
Proof.
  unfold resolve_dup_group. rewrite run_bind. unfold modify at 1. cbv beta iota.
  rewrite run_bind.
  set (s1 := add_cli_event (display_files type g) s).
  set (s2 := if negb (content (value type))
             then add_cli_event (prompt_build_diff g) s1 else s1).
  assert ((if negb (content (value type))
           then modify (add_cli_event (prompt_build_diff g))
           else ret ()) s1 = (Return (), s2)) as ->.
  { subst s2. by destruct (negb _). }
  assert (cli_log s2 =
          cli_log s ++ display_files type g
            :: (if content (value type) then [] else [prompt_build_diff g])) as Hlog2.
  { subst s2 s1. destruct (content _); simpl; by rewrite <- ?app_assoc. }
  rewrite run_bind. unfold ask_keep_options at 1. cbv beta iota zeta.
  simpl dialogue. rewrite <- Hlog2.
  destruct (keep_options (cli_log s2) g) as [|a more]; cbn [length Nat.eqb].
  - by destruct g.
  - rewrite run_bind. unfold modify at 1. cbv beta iota. done.
Qed.

Lemma dialogue_app type log visited1 visited2 :
  dialogue type (dialogue type log visited1) visited2 =
    dialogue type log (visited1 ++ visited2).
Proof.
  revert log. induction visited1 as [|g visited1 IH]; intros log; [done|].
  simpl. apply IH.
Qed.

Lemma resolve_dups_loop_dialogue type len :
  forall pos used to_remove (s : Sys CI),
    exists visited,
      cli_log (snd (iter_items len pos used type (resolve_dup_group type) to_remove s)) =
        dialogue type (cli_log s) visited /\
      length visited <= len.
Proof.
  induction len as [|len IH]; intros pos used to_remove s;
    rewrite iter_items_unfold; (case_bool_decide as Hused;
      [exists []; split; [done|]; simpl; lia|]);
    destruct (next_entry _ pos) as [[i g]|] eqn:Hpos;
    try (exists []; split; [done|]; simpl; lia).
  pose proof (resolve_dup_group_dialogue type to_remove g s) as Hg.
  rewrite run_bind.
  destruct (resolve_dup_group type to_remove g s) as [[acc1|e] s1]; simpl in Hg.
  - destruct (IH (S i) used acc1 s1) as (visited & Hrest & Hbound).
    exists (g :: visited). split.
    + rewrite Hrest, Hg. apply (dialogue_app type (cli_log s) [g] visited).
    + simpl. lia.
  - exists [g]. split; [done|]. simpl. lia.
Qed.

(** X17. The dialogue of a pass of [resolve_dups], whatever the pass
    answers, is made of whole turns, one for each group it came to and at
    most as many as the bucket had groups when the pass began: the group is
    displayed under the name of the category, a diff is offered exactly when
    the category is one of different content (its trait "content" is
    False), and the user is asked what to keep.  Nothing else is shown or
    asked, and the second loop, which removes, asks nothing. *)
Theorem resolve_dups_dialogue (type : CompType) (s : Sys CI) :
  exists visited,
    cli_log (snd (resolve_dups type s)) = dialogue type (cli_log s) visited /\
    length visited <= length (index_items (comparisons s type)).
Proof.
  unfold resolve_dups, for_items. rewrite run_bind, run_bind.
  unfold gets at 1. cbv beta iota.
  destruct (resolve_dups_loop_dialogue type
              (length (index_items (comparisons s type))) 0
              (length (index_items (comparisons s type))) [] s)
    as (visited & Hlog & Hbound).
  exists visited. split; [|done].
  destruct (iter_items _ _ _ _ _ _ s) as [[to_remove|e] s1]; simpl in Hlog; [|done].
  rewrite <- Hlog.
  apply (keeps_for_each (fun s2 : Sys CI => cli_log s2 = cli_log s1)); [|done].
  intros file. by apply keeps_modify.
Qed.

End resolution_further.


(** * Further properties: comparing a file with itself, files of different
      sizes, well-behaved buckets, and the text of an outcome *)

Section self_comparison.
Context {hashlib : Hashlib}.

(** X18. Comparing a descriptor with itself: [compare_to] refuses at once,
    with ValueError and before anything is read, whether the descriptor can
    be read or not; [compare_content], called on its own, answers True for
    every descriptor whose file can be read. *)
Theorem compare_with_itself (w : World) (r : FileRef) (f : File.t) :
  heap w !! r = Some f -> is_Some (disk w (File.abs_path f)) ->
  compare_to r r w = (Raise ValueError_self_compare, w) /\
  fst (compare_content r r w) = Return true.
Proof.
  intros Hr Hread. split.
  { unfold compare_to. by rewrite bool_decide_eq_true_2. }
  rewrite (run_compare_content _ _ _ _ _ Hr Hr), N.eqb_refl.
  rewrite (run_compare_quick_hash _ _ _ _ _ Hr Hr).
  destruct (readable_quick_value _ _ Hread) as [qs ->]. cbv zeta.
  rewrite (decide_True (P := r = r)) by done.
  destruct (readable_quick_value (quick_known r f qs w) (File.set_quick_hash qs f) Hread)
    as [qo ->].
  rewrite (decide_True (P := r = r)) by done.
  rewrite bool_decide_eq_true_2 by done.
  pose proof (lookup_quick_known r f qs w _ _ Hr Hr) as Hr1.
  rewrite (decide_True (P := r = r)) in Hr1 by done.
  pose proof (lookup_quick_known r _ qo _ _ _ Hr1 Hr1) as Hr2.
  rewrite (decide_True (P := r = r)) in Hr2 by done.
  rewrite (run_compare_full_hash _ _ _ _ _ Hr2 Hr2).
  set (f2 := File.set_quick_hash qo (File.set_quick_hash qs f)) in *.
  set (w2 := quick_known r (File.set_quick_hash qs f) qo (quick_known r f qs w)) in *.
  assert (is_Some (disk w2 (File.abs_path f2))) as Hread2 by done.
  destruct (readable_full_value _ _ Hread2) as [fs ->]. cbv zeta.
  rewrite (decide_True (P := r = r)) by done.
  destruct (readable_full_value (full_known r f2 fs w2) (File.set_full_hash fs f2) Hread2)
    as [fo ->].
  rewrite (decide_True (P := r = r)) by done.
  simpl fst. by rewrite bool_decide_eq_true_2.
Qed.

End self_comparison.

Section quiet_classification.
Context {hashlib : Hashlib} {CI : Type} {index_ops : ComparisonIndex CI} {cli : Cli}.

Lemma in_world_same {A} (E : exn -> Prop) (w0 : World) (m : M World A) :
  (forall w, w = w0 -> snd (m w) = w0 /\ raises_in E (fst (m w))) ->
  safe E (fun s : Sys CI => world s = w0) (in_world m).
Proof. intros Hm s Hs. rewrite run_in_world. simpl. by apply Hm. Qed.

(** X19. When no two descriptors that the index lists have the same size,
    [add_dir_index] opens no file at all and cannot fail, even when the
    files are gone: it runs to its end and leaves the world of the
    descriptors, store, disk and record of the hashes, as it found it. *)
Theorem add_dir_index_opens_nothing (d : DirIndex) (s : Sys CI) :
  valid_index d (world s) -> sizes_differ d (world s) ->
  exists s', add_dir_index d s = (Return (), s') /\ world s' = world s.
Proof.
  intros Hvalid Hsizes.
  destruct (safe_returns (fun s1 : Sys CI => world s1 = world s) (add_dir_index d) s)
    as ([] & s' & Hrun & Hs'); [|done|by exists s'].
  apply add_dir_index_safe; [done|done|..].
  - intros r Hr. apply in_world_same. intros w ->.
    destruct (Hvalid _ Hr) as [f Hf]. by rewrite (run_deref _ _ _ Hf).
  - intros a b Ha Hb Hne. apply in_world_same. intros w ->.
    destruct (Hvalid _ Ha) as [fa Hfa], (Hvalid _ Hb) as [fb Hfb].
    rewrite (run_compare_to _ _ _ _ _ Hne Hfa Hfb), (run_compare_content _ _ _ _ _ Hfa Hfb).
    pose proof (Hsizes _ _ _ _ Ha Hb Hne Hfa Hfb) as Hsz.
    apply N.eqb_neq in Hsz. by rewrite Hsz.
Qed.

End quiet_classification.

Section steady_buckets.
Context {CI : Type} {index_ops : ComparisonIndex CI} {cli : Cli}.

Lemma same_layout_refl (b : CI) : same_layout b b.
Proof. unfold same_layout. by apply Forall_Forall2_diag, Forall_true. Qed.

Lemma same_layout_trans (b1 b2 b3 : CI) :
  same_layout b1 b2 -> same_layout b2 b3 -> same_layout b1 b3.
Proof.
  unfold same_layout. intros H12. revert b3.
  generalize dependent (index_entries b2). generalize dependent (index_entries b1).
  intros es1 es2 H12 b3. generalize dependent (index_entries b3).
  induction H12 as [|e1 e2 es1 es2 E12 _ IH]; intros es3 H23;
    inversion H23 as [|? e3 ? es3' E23 H23']; subst; constructor.
  - by rewrite E12.
  - by apply IH.
Qed.

(** Arrays of the same layout have the same number of entries in use, from
    every position on. *)
Lemma same_layout_used (es es' : list (option (list FileRef))) :
  Forall2 (fun entry entry' => is_Some entry <-> is_Some entry') es es' ->
  length (omap id es) = length (omap id es').
Proof.
  induction 1 as [|e e' es es' He _ IH]; [done|].
  destruct e as [g|], e' as [g'|]; simpl.
  - by f_equal.
  - by destruct (proj1 He (mk_is_Some _ _ eq_refl)).
  - by destruct (proj2 He (mk_is_Some _ _ eq_refl)).
  - done.
Qed.

Lemma first_entry_used entries pos i g :
  first_entry entries pos = Some (i, g) ->
  exists k, i = pos + k /\
    length (omap id entries) = S (length (omap id (drop (S k) entries))).
Proof.
  revert pos. induction entries as [|[g'|] entries IH]; intros pos; simpl; [done|..].
  - intros [= <- <-]. exists 0. split; [lia|done].
  - intros (k & -> & Hlen)%IH. exists (S k). split; [lia|done].
Qed.

Lemma next_entry_used entries pos i g :
  next_entry entries pos = Some (i, g) ->
  length (omap id (drop pos entries)) = S (length (omap id (drop (S i) entries))).
Proof.
  unfold next_entry. intros (k & -> & Hlen)%first_entry_used.
  rewrite Hlen, drop_drop. by replace (pos + S k) with (S (pos + k)) by lia.
Qed.

(** The loop over the items of a dict that no turn re-keys: when every turn
    on a group with a member returns and leaves the dict laid out as it
    was, with no empty group, the loop returns. *)
Lemma iter_items_steady {A} type (body : A -> list FileRef -> M (Sys CI) A) (b0 : CI) :
  (forall acc g, keeps (steady_from b0 type) (body acc g)) ->
  (forall acc g s, g <> [] -> exists acc' s', body acc g s = (Return acc', s')) ->
  forall len pos acc s,
    steady_from b0 type s ->
    len = length (omap id (drop pos (index_entries b0))) ->
    exists acc' s',
      iter_items len pos (length (index_items b0)) type body acc s = (Return acc', s').
Proof.
  intros Hkeeps Hbody. induction len as [|len IH]; intros pos acc s [Hlay Hfull] Hlen;
    rewrite iter_items_unfold;
    (rewrite bool_decide_eq_false_2
       by (intros Hused; apply Hused; symmetry; by apply same_layout_used));
    destruct (next_entry _ pos) as [[i g]|] eqn:Hpos; try by eexists _, _.
  - apply next_entry_used in Hpos.
    rewrite <- (same_layout_used _ _ (Forall2_drop _ _ _ pos Hlay)) in Hpos. lia.
  - assert (g <> []) as Hg.
    { intros ->. apply Hfull. by eapply next_entry_item. }
    destruct (Hbody acc g s Hg) as (acc' & s' & Hrun).
    rewrite run_bind, Hrun.
    pose proof (Hkeeps acc g s (conj Hlay Hfull)) as Hs'. rewrite Hrun in Hs'.
    apply IH; [exact Hs'|].
    apply next_entry_used in Hpos.
    rewrite <- (same_layout_used _ _ (Forall2_drop _ _ _ pos Hlay)) in Hpos.
    rewrite <- (same_layout_used _ _ (Forall2_drop _ _ _ (S i) Hlay)) in Hpos. lia.
Qed.

Lemma for_items_steady {A} type (body : A -> list FileRef -> M (Sys CI) A) acc s :
  (forall acc g, keeps (steady_from (comparisons s type) type) (body acc g)) ->
  (forall acc g s, g <> [] -> exists acc' s', body acc g s = (Return acc', s')) ->
  [] ∉ index_items (comparisons s type) ->
  exists acc' s', for_items type body acc s = (Return acc', s').
Proof.
  intros Hkeeps Hbody Hfull. unfold for_items. rewrite run_bind. unfold gets at 1.
  cbv beta iota.
  apply (iter_items_steady type body (comparisons s type) Hkeeps Hbody).
  - split; [apply same_layout_refl|done].
  - by rewrite drop_0.
Qed.

Lemma steady_set_comparisons b0 type k (s : Sys CI) :
  steady_selection CI ->
  steady_from b0 type s -> steady_from b0 type (on_index type (set_comparisons k) s).
Proof.
  intros Hsteady [Hlay Hne]. unfold steady_from. rewrite on_index_same.
  destruct (Hsteady k (comparisons s type)) as [Hl Hn].
  split; [by eapply same_layout_trans|auto].
Qed.

Lemma resolve_dup_group_keeps_steady b0 type to_remove group :
  steady_selection CI ->
  keeps (steady_from b0 type) (resolve_dup_group type to_remove group).
Proof.
  intros Hsteady. unfold resolve_dup_group.
  apply keeps_bind; [by apply keeps_modify|intros _].
  apply keeps_bind; [destruct (negb _); [by apply keeps_modify|apply keeps_ret]|intros _].
  apply keeps_bind; [by intros s|intros user_choice].
  destruct (_ =? _)%nat.
  - destruct group; [apply keeps_raise|apply keeps_ret].
  - apply keeps_bind; [|intros; apply keeps_ret].
    apply keeps_modify. intros s Hs. by apply steady_set_comparisons.
Qed.

Lemma resolve_dup_group_returns type to_remove group (s : Sys CI) :
  group <> [] -> exists acc s', resolve_dup_group type to_remove group s = (Return acc, s').
Proof.
  intros Hg. destruct (resolve_dup_group type to_remove group s) as [[acc|e] s'] eqn:Hrun;
    [by eexists _, _|].
  by apply resolve_dup_group_fail in Hrun as (_ & -> & _).
Qed.

Lemma resolve_matches_returns (s : Sys CI) :
  steady_selection CI -> [] ∉ index_items (comparisons s MATCH) ->
  exists s', resolve_matches s = (Return (), s').
Proof.
  intros Hsteady Hne.
  destruct (for_items_steady MATCH
              (fun _ matches =>
                 match matches with
                 | [] => raise IndexError
                 | first :: _ => modify (on_index MATCH (set_comparisons (KeepFile first)))
                 end) () s) as ([] & s' & Hrun); [| |done|by exists s'].
  - intros _ [|first group]; [apply keeps_raise|].
    apply keeps_modify. intros s1 Hs1. by apply steady_set_comparisons.
  - intros _ [|first group] s1 Hg; [done|]. by eexists _, _.
Qed.

Lemma resolve_dups_returns type (s : Sys CI) :
  steady_selection CI -> [] ∉ index_items (comparisons s type) ->
  exists s', resolve_dups type s = (Return (), s').
Proof.
  intros Hsteady Hne. unfold resolve_dups. rewrite run_bind.
  destruct (for_items_steady type (resolve_dup_group type) [] s)
    as (to_remove & s1 & ->); [| |done|].
  - intros acc group. by apply resolve_dup_group_keeps_steady.
  - intros acc group s1. apply resolve_dup_group_returns.
  - destruct (removals_loop_run type to_remove s1) as (s2 & Hrun2 & _). by exists s2.
Qed.

Lemma resolve_type_returns type (s : Sys CI) :
  steady_selection CI -> [] ∉ index_items (comparisons s type) ->
  exists s', resolve_type type s = (Return (), s') /\
    forall t, t <> type -> comparisons s' t = comparisons s t.
Proof.
  intros Hsteady Hne. unfold resolve_type.
  case_bool_decide as Hm; [subst type|case_bool_decide as Hu].
  - destruct (resolve_matches_returns s Hsteady Hne) as [s' Hrun].
    exists s'. split; [done|]. intros t Ht.
    pose proof (resolve_matches_keeps_bucket t (comparisons s t) Ht s eq_refl) as Hk.
    by rewrite Hrun in Hk.
  - by exists s.
  - destruct (resolve_dups_returns type s Hsteady Hne) as [s' Hrun].
    exists s'. split; [done|]. intros t Ht.
    pose proof (resolve_dups_keeps_bucket type t (comparisons s t) Ht s eq_refl) as Hk.
    by rewrite Hrun in Hk.
Qed.

Lemma resolve_types_return (types : list CompType) (s0 : Sys CI) :
  steady_selection CI -> NoDup types ->
  (forall t, [] ∉ index_items (comparisons s0 t)) ->
  forall s : Sys CI,
    (forall t, t ∈ types -> comparisons s t = comparisons s0 t) ->
    exists s', for_each types resolve_type s = (Return (), s').
Proof.
  intros Hsteady Hnodup Hfull.
  induction Hnodup as [|type types Hnotin Hnodup IH]; intros s Hsame.
  - by exists s.
  - destruct (resolve_type_returns type s Hsteady) as (s1 & Hrun & Hother).
    { rewrite Hsame by left. apply Hfull. }
    destruct (IH s1) as [s' Hrest].
    { intros t Ht. rewrite Hother by (intros ->; done). apply Hsame. by right. }
    exists s'. cbn [for_each]. by rewrite run_bind, Hrun.
Qed.

(** X20. With buckets whose [set_comparisons] inserts and deletes no key of
    the dict, so that every entry of the dict stays where it is, and
    empties no group, resolution runs to its end from every state in which
    no bucket holds an empty group: [resolve_matches] returns, and so do
    [resolve_dups], for every category and whatever the user answers, and
    [resolve_all].  Nothing is asked of [remove_comparisons]: the loop that
    removes does not iterate over the dict. *)
Theorem resolution_completes (s : Sys CI) :
  steady_selection CI ->
  (forall t, [] ∉ index_items (comparisons s t)) ->
  (exists s', resolve_matches s = (Return (), s')) /\
  (forall type, exists s', resolve_dups type s = (Return (), s')) /\
  (exists s', resolve_all s = (Return (), s')).
Proof.
  intros Hsteady Hfull. split; [|split].
  - by apply resolve_matches_returns.
  - intros type. by apply resolve_dups_returns.
  - apply (resolve_types_return CompType_members s); [done| |done|done].
    apply (bool_decide_unpack _). by vm_compute.
Qed.

End steady_buckets.

(** ** The text of an outcome *)

Lemma CompType_name_line t1 t2 rest1 rest2 :
  CompType_name t1 +:+ LF +:+ rest1 = CompType_name t2 +:+ LF +:+ rest2 -> t1 = t2.
Proof. destruct t1, t2; simpl; intros E; first [reflexivity | discriminate E]. Qed.

(** X21. The text that [Comparison.__str__] makes names the category of the
    outcome on its first line, and the names of the categories tell them
    apart: two outcomes with the same text are of the same category.
    Making the text changes nothing. *)
Theorem Comparison_str_names_category (c1 c2 : Comparison) (w1 w1' w2 w2' : World)
    (text : string) :
  Comparison__str__ c1 w1 = (Return text, w1') ->
  Comparison__str__ c2 w2 = (Return text, w2') ->
  comp_type c1 = comp_type c2 /\ w1' = w1 /\ w2' = w2.
Proof.
  unfold Comparison__str__. intros H1 H2.
  apply bind_inv in H1 as [(a1 & u1 & Ha1 & H1)|(e & _ & ?)]; [|done].
  apply bind_inv in H1 as [(b1 & v1 & Hb1 & H1)|(e & _ & ?)]; [|done].
  apply bind_inv in H2 as [(a2 & u2 & Ha2 & H2)|(e & _ & ?)]; [|done].
  apply bind_inv in H2 as [(b2 & v2 & Hb2 & H2)|(e & _ & ?)]; [|done].
  assert (forall r w f w', deref r w = (Return f, w') -> w' = w) as Hsame.
  { intros r w f w'. unfold deref. destruct (heap w !! r); [|done]. by intros [= _ <-]. }
  apply Hsame in Ha1 as ->, Hb1 as ->, Ha2 as ->, Hb2 as ->.
  injection H1 as H1 <-. injection H2 as H2 <-. split; [|done].
  rewrite <- H2 in H1. simpl in H1. injection H1 as H1.
  by eapply CompType_name_line.
Qed.


(** * The further properties at work on the sample data *)

Lemma index_of_listed h files r : listed (index_of h files) r -> r ∈ files.
Proof.
  intros [Hr|[[n Hr]|[z Hr]]]; simpl in Hr; [done|..];
    by apply list_elem_of_filter in Hr as [_ ?].
Qed.

Lemma index_of_valid h files w :
  heap w = h -> Forall (fun r => is_Some (h !! r)) files ->
  valid_index (index_of h files) w.
Proof.
  intros <- Hall r Hr%index_of_listed. by eapply Forall_forall in Hall.
Qed.

Lemma index_of_readable h files w :
  heap w = h ->
  Forall (fun r => is_Some (h !! r ≫= fun f => disk w (File.abs_path f))) files ->
  readable_index (index_of h files) w.
Proof.
  intros <- Hall r f Hr%index_of_listed Hf.
  eapply Forall_forall in Hall; [|exact Hr]. by rewrite Hf in Hall.
Qed.

Lemma index_of_sizes_differ h files w :
  heap w = h ->
  Forall (fun a => Forall (fun b =>
            a = b \/ File.size <$> h !! a <> File.size <$> h !! b) files) files ->
  sizes_differ (index_of h files) w.
Proof.
  intros <- Hall a b fa fb Ha%index_of_listed Hb%index_of_listed Hne Hfa Hfb.
  eapply Forall_forall in Hall; [|exact Ha].
  eapply Forall_forall in Hall; [|exact Hb].
  destruct Hall as [?|Hsz]; [done|]. rewrite Hfa, Hfb in Hsz. simpl in Hsz. congruence.
Qed.

Lemma File_init_new_descriptor_witness :
  fst (File_init (os := sample_os) ["left"] (["left"] ++ ["docs"]) sample_world) = Return 6.
Proof.
  destruct (File_init_new_descriptor (os := sample_os) ["left"] ["docs"] 4096%N
              sample_world eq_refl eq_refl)
    as (f & w' & Hrun & _).
  rewrite Hrun. reflexivity.
Defined.

Lemma create_full_hash_whole_content_witness :
  __create_full_hash (hashlib := spelling_hashlib) 0 3 sample_world =
    (Return (sha256_hexdigest (Hashlib := spelling_hashlib) (list_byte_of_string "hello")),
     add_hash_event (FullHashed 0) sample_world).
Proof.
  exact (create_full_hash_whole_content (hashlib := spelling_hashlib)
           0 (sample_file "left" ["docs"; "a.txt"]) sample_world 3 eq_refl).
Defined.

Lemma compare_content_exact_witness :
  fst (compare_content (hashlib := spelling_hashlib) 0 3 sample_world) = Return true.
Proof.
  destruct (compare_content_exact (hashlib := spelling_hashlib) sample_world 0 3
              (sample_file "left" ["docs"; "a.txt"]) (sample_file "left" ["pics"; "c.txt"])
              (list_byte_of_string "hello") (list_byte_of_string "hello")
              ltac:(done) eq_refl eq_refl (conj eq_refl eq_refl) (conj eq_refl eq_refl)
              eq_refl eq_refl)
    as (v & Hrun & _ & Hsame & _).
  rewrite Hrun. f_equal. apply Hsame; reflexivity.
Defined.

Lemma compare_to_different_sizes_witness :
  compare_to (hashlib := spelling_hashlib) 0 1 gone_world =
    (Return (Some {| fileA := 0; fileB := 1; comp_type := PATH_NAME_DUP |}), gone_world).
Proof.
  exact (compare_to_different_sizes (hashlib := spelling_hashlib) gone_world 0 1 _ _
           ltac:(done) eq_refl eq_refl ltac:(done)).
Defined.

Lemma add_dir_index_raises_only_OSError_witness :
  match fst (add_dir_index (hashlib := spelling_hashlib) (index_of sample_heap [0; 4; 3])
               (ComparisonManager_init (CI := Recorder) sample_world)) with
  | Raise e => e = OSError
  | Return _ => False
  end.
Proof.
  destruct (add_dir_index (hashlib := spelling_hashlib) (index_of sample_heap [0; 4; 3])
              (ComparisonManager_init (CI := Recorder) sample_world))
    as [[[]|e] s'] eqn:Hrun.
  - apply (f_equal fst) in Hrun. vm_compute in Hrun. discriminate Hrun.
  - simpl. refine (add_dir_index_raises_only_OSError (hashlib := spelling_hashlib)
                     (index_of sample_heap [0; 4; 3])
                     (ComparisonManager_init (CI := Recorder) sample_world) s' e _ Hrun).
    apply (index_of_valid sample_heap); [reflexivity|].
    repeat (constructor; [by eexists|]). constructor.
Defined.

Lemma add_dir_index_completes_witness :
  exists s',
    add_dir_index (hashlib := spelling_hashlib) (index_of sample_heap [0; 1; 2; 3; 5])
      (ComparisonManager_init (CI := Recorder) sample_world) = (Return (), s').
Proof.
  destruct (add_dir_index_completes (hashlib := spelling_hashlib)
              (index_of sample_heap [0; 1; 2; 3; 5])
              (ComparisonManager_init (CI := Recorder) sample_world))
    as (s' & Hrun & _).
  - apply (index_of_valid sample_heap); [reflexivity|].
    repeat (constructor; [by eexists|]). constructor.
  - apply (index_of_readable sample_heap); [reflexivity|].
    repeat (constructor; [by eexists|]). constructor.
  - exists s'. exact Hrun.
Defined.

Lemma add_dir_index_file_alone_witness :
  add_dir_index_file (hashlib := spelling_hashlib) (index_of sample_heap [2]) 2
    (ComparisonManager_init (CI := Recorder) sample_world) =
  (Return (), on_index UNIQUE (add_file 2) (ComparisonManager_init sample_world)).
Proof.
  apply (add_dir_index_file_alone (hashlib := spelling_hashlib) (index_of sample_heap [2]) 2
           (sample_file "left" ["docs"; "b.txt"])).
  - reflexivity.
  - vm_compute. repeat constructor.
  - vm_compute. repeat constructor.
Defined.

Lemma compare_file_against_group_order_witness :
  fileB <$> [ {| fileA := 0; fileB := 1; comp_type := MATCH |};
              {| fileA := 0; fileB := 3; comp_type := CONTENT_DUP |} ]
    `sublist_of` filter (fun r => r <> 0) [0; 1; 3].
Proof.
  assert (fst (_compare_file_against_group (hashlib := spelling_hashlib) 0 [0; 1; 3]
                 (ComparisonManager_init (CI := Recorder) sample_world)) =
          Return [ {| fileA := 0; fileB := 1; comp_type := MATCH |};
                   {| fileA := 0; fileB := 3; comp_type := CONTENT_DUP |} ])
    as Hrun by (vm_compute; reflexivity).
  exact (proj1 (compare_file_against_group_order (hashlib := spelling_hashlib) 0 [0; 1; 3]
                  (ComparisonManager_init (CI := Recorder) sample_world) _ _
                  (run_returns _ _ _ Hrun))).
Defined.

Lemma resolve_matches_failure_witness :
  [] ∈ index_items (comparisons (snd (resolve_matches (with_groups MATCH [[0; 1]; []]))) MATCH).
Proof.
  assert (fst (resolve_matches (with_groups MATCH [[0; 1]; []])) = Raise IndexError)
    as Hrun by (vm_compute; reflexivity).
  destruct (resolve_matches_failure (with_groups MATCH [[0; 1]; []]) _ _
              (run_raises _ _ _ Hrun)) as [[_ Hin]|[[Hne _]|[Hne _]]].
  - exact Hin.
  - discriminate Hne.
  - discriminate Hne.
Defined.

Lemma resolve_dups_failure_witness :
  exists selections,
    comparisons (snd (resolve_dups (cli := keeps_nothing) CONTENT_DUP
                        (with_groups CONTENT_DUP [[0; 3]; []]))) CONTENT_DUP =
      foldl (fun b k => set_comparisons k b)
            (comparisons (with_groups CONTENT_DUP [[0; 3]; []]) CONTENT_DUP) selections.
Proof.
  assert (fst (resolve_dups (cli := keeps_nothing) CONTENT_DUP
                 (with_groups CONTENT_DUP [[0; 3]; []])) = Raise IndexError)
    as Hrun by (vm_compute; reflexivity).
  exact (proj1 (resolve_dups_failure (cli := keeps_nothing) CONTENT_DUP
                  (with_groups CONTENT_DUP [[0; 3]; []]) _ _ (run_raises _ _ _ Hrun))).
Defined.

Lemma compare_with_itself_witness :
  fst (compare_content (hashlib := spelling_hashlib) 0 0 sample_world) = Return true.
Proof.
  refine (proj2 (compare_with_itself (hashlib := spelling_hashlib) sample_world 0
                   (sample_file "left" ["docs"; "a.txt"]) eq_refl _)).
  by eexists.
Defined.

Lemma add_dir_index_opens_nothing_witness :
  exists s',
    add_dir_index (hashlib := spelling_hashlib) (index_of (heap gone_world) [0; 1])
      (ComparisonManager_init (CI := Recorder) gone_world) = (Return (), s') /\
    world s' = gone_world.
Proof.
  apply (add_dir_index_opens_nothing (hashlib := spelling_hashlib)
           (index_of (heap gone_world) [0; 1])
           (ComparisonManager_init (CI := Recorder) gone_world)).
  - apply (index_of_valid (heap gone_world)); [reflexivity|].
    repeat (constructor; [by eexists|]). constructor.
  - apply (index_of_sizes_differ (heap gone_world)); [reflexivity|].
    repeat (constructor; [repeat (constructor; [(by left) || (by right)|]); constructor|]).
    constructor.
Defined.

Lemma resolution_completes_witness :
  exists s',
    resolve_all (cli := keeps_nothing) (with_groups CONTENT_DUP [[0; 3]]) = (Return (), s').
Proof.
  refine (proj2 (proj2 (resolution_completes (cli := keeps_nothing)
                          (with_groups CONTENT_DUP [[0; 3]]) _ _))).
  - intros k b. split; [exact (same_layout_refl b)|]. intros H. exact H.
  - intros t. destruct t; apply (bool_decide_unpack _); vm_compute; exact I.
Defined.

Lemma Comparison_str_names_category_witness :
  comp_type {| fileA := 0; fileB := 1; comp_type := MATCH |} =
  comp_type {| fileA := 1; fileB := 0; comp_type := MATCH |}.
Proof.
  refine (proj1 (Comparison_str_names_category
                   {| fileA := 0; fileB := 1; comp_type := MATCH |}
                   {| fileA := 1; fileB := 0; comp_type := MATCH |}
                   sample_world sample_world sample_world sample_world
                   (match fst (Comparison__str__ {| fileA := 0; fileB := 1; comp_type := MATCH |}
                                 sample_world) with
                    | Return text => text
                    | Raise _ => ""
                    end) _ _)).
  - vm_compute. reflexivity.
  - vm_compute. reflexivity.
Defined.
